(** * Pool: a shallow embedding of [lib/client-pool.js]

    The pool fronts one origin with a list of [Client] connections, a FIFO
    of requests that found no idle connection, and a cached TLS session.

    What is modelled and how:
    - the [Client] ([./core/client]) is an external collaborator: it is an
      interface (a type class) with the members the pool reads or calls;
    - [FixedQueue] ([./node/fixed-queue]) is a list, oldest entry first;
    - a JavaScript exception is a [Throw] completion; state changes made
      before the exception stay, as in the source;
    - promises are cells of a store, a reference is the index of its cell;
    - calls that leave the pool (handler callbacks, user callbacks, emitted
      events, calls on a connection) are appended to a chronological trace;
    - numbers are whole numbers; the counters the pool keeps itself move
      by one from 0 and are exact; the sums the getters take over the
      connections' counters are rounded as sums of doubles are;
    - a handler's [onError] returns or throws; neither it nor a
      connection's methods call back into the pool while the pool is running
      one of its own methods. *)

From Stdlib Require Import String List ZArith QArith Bool Lia RelationClasses.
Import ListNotations.

Set Implicit Arguments.
Set Maximal Implicit Insertion.
Open Scope Z_scope.

(** ** Values *)

(** Errors: the three classes of [./core/errors] the pool raises, the
    runtime's [TypeError], and any other error (supplied by a caller or
    raised by a connection). *)
Inductive JsError : Type :=
| ClientDestroyedError
| ClientClosedError
| InvalidArgumentError (message : string)
| TypeError
| OtherError (tag : nat).

(** Result of running a piece of code: it returns or it throws. *)
Inductive Completion (A : Type) : Type :=
| Normal (a : A)
| Throw (e : JsError).
Arguments Normal {A} a.
Arguments Throw {A} e.

Definition is_throw {A} (c : Completion A) : bool :=
  match c with Throw _ => true | Normal _ => false end.

(** Request options are forwarded verbatim to a connection. *)
Definition RequestOpts := string.

(** A handler argument: nothing at all; an object whose [onError] member
    is a function that returns when called, or is not a function; or an
    object whose [onError] is a function that throws [thrown] when called.
    [hid] identifies the object. *)
Inductive Handler : Type :=
| HandlerMissing
| HandlerObject (hid : nat) (onError_is_function : bool)
| HandlerThrowing (hid : nat) (thrown : JsError).

(** An entry of the queue: [{ opts, handler }]. *)
Record Item : Type := mkItem { opts : RequestOpts; handler : Handler }.

(** Modelled from the spec: [FixedQueue] of [./node/fixed-queue], which is
    not among the sources.  The specification has it as the "FIFO holding
    requests that could not be assigned a Connection immediately": the list
    of its entries, oldest first.  [push(x)] is [queue ++ [x]]; [shift()]
    takes the head off and yields nothing on the empty list; [isEmpty()]
    holds of the empty list. *)
Definition FixedQueue : Type := list Item.

(** A TLS session value as JavaScript sees it: [undefined], [null], or a
    [Buffer] (an object, truthy even when it holds no byte). *)
Inductive SessionVal : Type :=
| SessionUndefined
| SessionNull
| SessionBuffer (bytes : list nat).

Definition session_truthy (s : SessionVal) : bool :=
  match s with SessionBuffer _ => true | _ => false end.

(** [options.tls]: [reuseSessions] is [Some false] exactly when the member
    is the boolean [false] (the source tests [=== false]). *)
Record TlsOptions : Type := mkTls {
  reuseSessions : option bool;
  session : SessionVal
}.

(** The rest of the constructor options after [connections] is taken out:
    [tls] ([None] when absent or falsy) and the members the pool never
    looks at. *)
Record Options : Type := mkOptions {
  tls : option TlsOptions;
  clientOptions : string
}.

Definition Url := string.

(** The [connections] option as passed to the constructor. *)
Inductive ConnectionsArg : Type :=
| ConnUndefined
| ConnNull
| ConnFinite (q : Q)
| ConnNaN
| ConnInfinity (negative : bool)
| ConnNotANumber.

(** Events of a connection the pool listens to. *)
Inductive ClientEvent : Type := EvDrain | EvConnect | EvDisconnect | EvSession.

Definition ClientEvent_eqb (a b : ClientEvent) : bool :=
  match a, b with
  | EvDrain, EvDrain | EvConnect, EvConnect
  | EvDisconnect, EvDisconnect | EvSession, EvSession => true
  | _, _ => false
  end.

(** Calls that leave the pool.  Connections are named by their position in
    [kClients]; the pool never removes a connection from that list. *)
Inductive Effect : Type :=
| OnError (hid : nat) (e : JsError)            (* handler.onError(err) *)
| EmitDrain                                    (* pool.emit('drain') *)
| EmitConnect (c : nat)                        (* pool.emit('connect', client) *)
| EmitDisconnect (c : nat) (e : JsError)       (* pool.emit('disconnect', client, err) *)
| ClientDispatch (c : nat) (it : Item)         (* client.dispatch(opts, handler) *)
| ClientClose (c : nat)                        (* c.close() *)
| ClientDestroy (c : nat) (e : JsError)        (* c.destroy(err) *)
| Callback (cb : nat) (err : option JsError).  (* cb(null, null) or cb(err) *)

(** A reaction registered with [then]. *)
Inductive Reaction : Type :=
| SetDestroyed             (* () => { this[kDestroyed] = true } *)
| CallCallback (cb : nat)  (* () => cb(null, null) *)
| ResolveClosed (r : nat). (* pool[kClosedResolve], the resolver of cell r *)

(** A cell of the promise store. *)
Inductive Promise : Type :=
| PromiseAll (awaited : nat)                (* Promise.all over that many connection promises *)
| PromiseNew                                (* new Promise((resolve) => ...) *)
| PromiseThen (source : nat) (k : Reaction) (* source.then(k) *)
| PromiseReject (e : JsError).              (* Promise.reject(err) *)

(** The first argument of [destroy]: absent (or falsy), an error, or a
    function, which the source then takes for the callback. *)
Inductive DestroyArg : Type :=
| ArgAbsent
| ArgError (e : JsError)
| ArgFunction (cb : nat).

(** ** The connection interface *)

(** The members of [Client] the pool uses.  [newClient] and [dispatch] can
    throw; [dispatch] returns the connection's state after the call. *)
Class Client (C : Type) : Type := {
  newClient : Url -> Options -> Completion C;
  client_busy : C -> bool;
  client_pending : C -> Z;
  client_running : C -> Z;
  client_size : C -> Z;
  client_dispatch : RequestOpts -> Handler -> C -> Completion unit * C;
  client_close : C -> C;
  client_destroy : JsError -> C -> C
}.

(** A connection as the pool holds it: its state and the events the pool
    subscribed to with [.on]. *)
Record Slot (C : Type) : Type := mkSlot {
  conn : C;
  listeners : list ClientEvent
}.

(** ** The pool *)

(** The symbol-keyed fields of a [Pool], then the promise store, the set of
    fulfilled promises and the trace. *)
Record Pool (C : Type) : Type := mkPool {
  kConnections : option Q;
  kUrl : Url;
  kOptions : Options;
  kQueue : FixedQueue;
  kClosedPromise : option nat;
  kClosedResolve : option nat;
  kDestroyed : bool;
  kClients : list (Slot C);
  kNeedDrain : bool;
  kPending : Z;
  kConnected : Z;
  kTLSSession : SessionVal;
  promises : list Promise;
  fulfilled : list nat;
  trace : list Effect
}.

Section Updates.
Context {C : Type}.
Implicit Types p : Pool C.

Definition set_kOptions (v : Options) p : Pool C :=
  mkPool (kConnections p) (kUrl p) v (kQueue p) (kClosedPromise p)
    (kClosedResolve p) (kDestroyed p) (kClients p) (kNeedDrain p)
    (kPending p) (kConnected p) (kTLSSession p) (promises p) (fulfilled p)
    (trace p).

Definition set_kQueue (v : list Item) p : Pool C :=
  mkPool (kConnections p) (kUrl p) (kOptions p) v (kClosedPromise p)
    (kClosedResolve p) (kDestroyed p) (kClients p) (kNeedDrain p)
    (kPending p) (kConnected p) (kTLSSession p) (promises p) (fulfilled p)
    (trace p).

Definition set_kClosedPromise (v : option nat) p : Pool C :=
  mkPool (kConnections p) (kUrl p) (kOptions p) (kQueue p) v
    (kClosedResolve p) (kDestroyed p) (kClients p) (kNeedDrain p)
    (kPending p) (kConnected p) (kTLSSession p) (promises p) (fulfilled p)
    (trace p).

Definition set_kClosedResolve (v : option nat) p : Pool C :=
  mkPool (kConnections p) (kUrl p) (kOptions p) (kQueue p)
    (kClosedPromise p) v (kDestroyed p) (kClients p) (kNeedDrain p)
    (kPending p) (kConnected p) (kTLSSession p) (promises p) (fulfilled p)
    (trace p).

Definition set_kDestroyed (v : bool) p : Pool C :=
  mkPool (kConnections p) (kUrl p) (kOptions p) (kQueue p)
    (kClosedPromise p) (kClosedResolve p) v (kClients p) (kNeedDrain p)
    (kPending p) (kConnected p) (kTLSSession p) (promises p) (fulfilled p)
    (trace p).

Definition set_kClients (v : list (Slot C)) p : Pool C :=
  mkPool (kConnections p) (kUrl p) (kOptions p) (kQueue p)
    (kClosedPromise p) (kClosedResolve p) (kDestroyed p) v (kNeedDrain p)
    (kPending p) (kConnected p) (kTLSSession p) (promises p) (fulfilled p)
    (trace p).

Definition set_kNeedDrain (v : bool) p : Pool C :=
  mkPool (kConnections p) (kUrl p) (kOptions p) (kQueue p)
    (kClosedPromise p) (kClosedResolve p) (kDestroyed p) (kClients p) v
    (kPending p) (kConnected p) (kTLSSession p) (promises p) (fulfilled p)
    (trace p).

Definition set_kPending (v : Z) p : Pool C :=
  mkPool (kConnections p) (kUrl p) (kOptions p) (kQueue p)
    (kClosedPromise p) (kClosedResolve p) (kDestroyed p) (kClients p)
    (kNeedDrain p) v (kConnected p) (kTLSSession p) (promises p)
    (fulfilled p) (trace p).

Definition set_kConnected (v : Z) p : Pool C :=
  mkPool (kConnections p) (kUrl p) (kOptions p) (kQueue p)
    (kClosedPromise p) (kClosedResolve p) (kDestroyed p) (kClients p)
    (kNeedDrain p) (kPending p) v (kTLSSession p) (promises p)
    (fulfilled p) (trace p).

Definition set_kTLSSession (v : SessionVal) p : Pool C :=
  mkPool (kConnections p) (kUrl p) (kOptions p) (kQueue p)
    (kClosedPromise p) (kClosedResolve p) (kDestroyed p) (kClients p)
    (kNeedDrain p) (kPending p) (kConnected p) v (promises p)
    (fulfilled p) (trace p).

Definition set_promises (v : list Promise) p : Pool C :=
  mkPool (kConnections p) (kUrl p) (kOptions p) (kQueue p)
    (kClosedPromise p) (kClosedResolve p) (kDestroyed p) (kClients p)
    (kNeedDrain p) (kPending p) (kConnected p) (kTLSSession p) v
    (fulfilled p) (trace p).

Definition set_fulfilled (v : list nat) p : Pool C :=
  mkPool (kConnections p) (kUrl p) (kOptions p) (kQueue p)
    (kClosedPromise p) (kClosedResolve p) (kDestroyed p) (kClients p)
    (kNeedDrain p) (kPending p) (kConnected p) (kTLSSession p)
    (promises p) v (trace p).

Definition set_trace (v : list Effect) p : Pool C :=
  mkPool (kConnections p) (kUrl p) (kOptions p) (kQueue p)
    (kClosedPromise p) (kClosedResolve p) (kDestroyed p) (kClients p)
    (kNeedDrain p) (kPending p) (kConnected p) (kTLSSession p)
    (promises p) (fulfilled p) v.
End Updates.

(** ** Code that runs on a pool

    [Eff A] is a computation that reads and writes the pool and returns an
    [A] or throws.  The state after a [Throw] is the state at the throw. *)

Definition Eff (C A : Type) : Type := Pool C -> Completion A * Pool C.

Section Monad.
Context {C : Type}.

Definition ret {A} (a : A) : Eff C A := fun p => (Normal a, p).

Definition bind {A B} (m : Eff C A) (k : A -> Eff C B) : Eff C B :=
  fun p =>
    match m p with
    | (Normal a, p') => k a p'
    | (Throw e, p') => (Throw e, p')
    end.

Definition throw {A} (e : JsError) : Eff C A := fun p => (Throw e, p).

(** [try { body } catch (err) { handle err }] *)
Definition try_catch {A} (body : Eff C A) (handle : JsError -> Eff C A)
  : Eff C A :=
  fun p =>
    match body p with
    | (Normal a, p') => (Normal a, p')
    | (Throw e, p') => handle e p'
    end.

Definition gets {A} (f : Pool C -> A) : Eff C A := fun p => (Normal (f p), p).

Definition modify (f : Pool C -> Pool C) : Eff C unit :=
  fun p => (Normal tt, f p).

Definition when (b : bool) (m : Eff C unit) : Eff C unit :=
  if b then m else ret tt.

(** One more call leaves the pool. *)
Definition emit (e : Effect) : Eff C unit :=
  modify (fun p => set_trace (trace p ++ [e]) p).

(** A new promise cell; its reference is its position in the store. *)
Definition new_promise (cell : Promise) : Eff C nat :=
  fun p => (Normal (length (promises p)),
            set_promises (promises p ++ [cell]) p).
End Monad.

Declare Scope eff_scope.
Delimit Scope eff_scope with eff.
Notation "x <- m ;; k" := (bind m (fun x => k))
  (at level 61, m at next level, right associativity) : eff_scope.
Notation "m ;; k" := (bind m (fun _ => k))
  (at level 61, right associativity) : eff_scope.

(** ** Sums of numbers *)

(** The numbers of the source are IEEE doubles; the model holds the whole
    numbers among them as [Z].  [round_to_double z] is the double nearest
    to the whole number [z], a tie going to the even significand: every
    whole number up to [2^53] in size is a double; beyond that only the
    multiples of the unit in the last place, [2 ^ (log2 |z| - 52)], are.
    (Past the largest double, near [2^1024], a sum is [Infinity], which
    is no whole number and is left out.) *)
Definition round_to_double (z : Z) : Z :=
  let m := Z.abs z in
  if m <=? 2 ^ 53 then z
  else
    let ulp := 2 ^ (Z.log2 m - 52) in
    let q := m / ulp in
    let r := m mod ulp in
    let q' :=
      if 2 * r <? ulp then q
      else if ulp <? 2 * r then q + 1
      else if Z.even q then q else q + 1 in
    Z.sgn z * (q' * ulp).

(** [a + b], as in [ret += pending]. *)
Definition js_add (a b : Z) : Z := round_to_double (a + b).

(** ** Lists of connections *)

Section Clients.
Context {C : Type} `{Client C}.

(** [clients.find(client => !client.busy)], as the position of the
    connection found; [from] is the position of the head of [cs]. *)
Fixpoint find_not_busy (from : nat) (cs : list (Slot C)) : option nat :=
  match cs with
  | [] => None
  | s :: cs' =>
      if negb (client_busy (conn s)) then Some from
      else find_not_busy (S from) cs'
  end.

(** [for (const { busy } of clients) { if (!busy) return false }; return true] *)
Fixpoint every_client_busy (cs : list (Slot C)) : bool :=
  match cs with
  | [] => true
  | s :: cs' =>
      if negb (client_busy (conn s)) then false else every_client_busy cs'
  end.

(** [for (const { pending } of clients) { ret += pending }] *)
Fixpoint add_each (f : C -> Z) (cs : list (Slot C)) (ret : Z) : Z :=
  match cs with
  | [] => ret
  | s :: cs' => add_each f cs' (js_add ret (f (conn s)))
  end.


Fixpoint replace_nth {A} (i : nat) (x : A) (l : list A) : list A :=
  match l, i with
  | [], _ => []
  | _ :: l', O => x :: l'
  | y :: l', S i' => y :: replace_nth i' x l'
  end.

(** The effects of calling a method on every connection in list order,
    as [clients.map(c => c.close())] does; [from] as above. *)
Fixpoint call_each (e : nat -> Effect) (from : nat) (cs : list (Slot C))
  : list Effect :=
  match cs with
  | [] => []
  | _ :: cs' => e from :: call_each e (S from) cs'
  end.

Definition map_conn (f : C -> C) (cs : list (Slot C)) : list (Slot C) :=
  map (fun s => mkSlot (f (conn s)) (listeners s)) cs.
End Clients.

(** ** Numbers *)

(** [this[kConnections]] is [null] or a number; a number is truthy unless it
    is zero. *)
Definition limit_truthy (limit : option Q) : bool :=
  match limit with
  | Some q => negb (Qeq_bool q 0)
  | None => false
  end.

(** [length === limit]: never true for [null]. *)
Definition length_is_limit (len : nat) (limit : option Q) : bool :=
  match limit with
  | Some q => Qeq_bool (inject_Z (Z.of_nat len)) q
  | None => false
  end.

(** [length < limit]: [null] converts to 0, below which no length is. *)
Definition length_below_limit (len : nat) (limit : option Q) : bool :=
  match limit with
  | Some q => negb (Qle_bool q (inject_Z (Z.of_nat len)))
  | None => false
  end.

(** [connections != null && (!Number.isFinite(connections) || connections < 0)] *)
Definition invalid_connections (a : ConnectionsArg) : bool :=
  match a with
  | ConnUndefined | ConnNull => false
  | ConnFinite q => negb (Qle_bool 0 q)
  | ConnNaN | ConnInfinity _ | ConnNotANumber => true
  end.

(** [connections || null] on an argument that passed the check. *)
Definition connections_or_null (a : ConnectionsArg) : option Q :=
  match a with
  | ConnFinite q => if Qeq_bool q 0 then None else Some q
  | _ => None
  end.

(** ** The class [Pool] *)

Section PoolCode.
Context {C : Type} `{Client C}.

(** [util.parseOrigin], which throws on an origin it does not accept. *)
Variable parseOrigin : string -> Completion Url.

Local Open Scope eff_scope.
Implicit Types p : Pool C.

(** [constructor (origin, { connections, ...options } = {})].  The copy
    [JSON.parse(JSON.stringify(options))] keeps the members modelled in
    [Options] as they are. *)
Definition constructor (origin : string) (connections : ConnectionsArg)
    (options : Options) : Completion (Pool C) :=
  if invalid_connections connections
  then Throw (InvalidArgumentError "invalid connections")
  else
    match parseOrigin origin with
    | Throw e => Throw e
    | Normal url =>
        Normal (mkPool (connections_or_null connections) url options []
                  None None false [] false 0 0 SessionUndefined [] [] [])
    end.

(** *** Getters *)

Definition url p : Url := kUrl p.

Definition connected p : Z := kConnected p.

Definition busy p : bool :=
  if 0 <? kPending p then true
  else if limit_truthy (kConnections p)
          && length_is_limit (length (kClients p)) (kConnections p)
       then every_client_busy (kClients p)
       else false.

Definition pending p : Z := add_each client_pending (kClients p) (kPending p).

Definition running p : Z := add_each client_running (kClients p) 0.

Definition size p : Z := add_each client_size (kClients p) (kPending p).

Definition destroyed p : bool := kDestroyed p.

Definition closed p : bool :=
  match kClosedPromise p with Some _ => true | None => false end.

(** *** Calls on handlers and connections *)

(** [handler.onError(err)] with no test before it: a [TypeError] when
    there is no handler or its [onError] is not a function; what
    [onError] throws leaves the call. *)
Definition call_onError (h : Handler) (err : JsError) : Eff C unit :=
  match h with
  | HandlerObject hid true => emit (OnError hid err)
  | HandlerThrowing hid thrown => emit (OnError hid err) ;; throw thrown
  | _ => throw TypeError
  end.

(** The [catch] block of [dispatch].  It is outside any [try]: what
    [handler.onError(err)] throws leaves [dispatch]. *)
Definition dispatch_catch (h : Handler) (err : JsError) : Eff C unit :=
  match h with
  | HandlerMissing => throw TypeError
  | HandlerObject _ false =>
      throw (InvalidArgumentError "invalid onError method")
  | HandlerObject hid true => emit (OnError hid err)
  | HandlerThrowing hid thrown => emit (OnError hid err) ;; throw thrown
  end.

(** [this.busy] of the connection at position [this]; a position outside
    the list names no connection, and then nothing is to be done. *)
Definition this_busy (this : nat) p : bool :=
  match nth_error (kClients p) this with
  | Some s => client_busy (conn s)
  | None => true
  end.

(** [client.dispatch(opts, handler)] on the connection at position [c]. *)
Definition dispatch_to (c : nat) (it : Item) : Eff C unit :=
  fun p =>
    match nth_error (kClients p) c with
    | None => (Normal tt, p)
    | Some s =>
        let '(r, st) := client_dispatch (opts it) (handler it) (conn s) in
        (r, set_trace (trace p ++ [ClientDispatch c it])
              (set_kClients
                 (replace_nth c (mkSlot st (listeners s)) (kClients p)) p))
    end.

(** [Promise.all(this[kClients].map(c => c.close()))] *)
Definition close_all : Eff C nat :=
  clients <- gets kClients ;;
  modify (fun p =>
            set_trace (trace p ++ call_each ClientClose 0 clients)
              (set_kClients (map_conn client_close clients) p)) ;;
  new_promise (PromiseAll (length clients)).

(** [Promise.all(this[kClients].map(c => c.destroy(err)))] *)
Definition destroy_all (err : JsError) : Eff C nat :=
  clients <- gets kClients ;;
  modify (fun p =>
            set_trace
              (trace p ++ call_each (fun c => ClientDestroy c err) 0 clients)
              (set_kClients (map_conn (client_destroy err) clients) p)) ;;
  new_promise (PromiseAll (length clients)).

(** *** TLS session reuse *)

Definition reuse_disabled (t : TlsOptions) : bool :=
  match reuseSessions t with Some false => true | _ => false end.

(** [{}] *)
Definition empty_tls : TlsOptions := mkTls None SessionUndefined.

(** [addCachedSessionToTLSOptions (pool, options)], where [options] is the
    shallow copy [{ ...this[kOptions] }]: its [tls] member is the very
    object held by [this[kOptions]], so the assignment to [tls.session] is
    seen through [this[kOptions]] too.  A [tls] made here as [{}] is
    shared with nothing. *)
Definition addCachedSessionToTLSOptions (options : Options)
  : Eff C TlsOptions :=
  let (t, shared) :=
    match tls options with
    | Some t => (t, true)
    | None => (empty_tls, false)
    end in
  if reuse_disabled t then ret t
  else
    cached <- gets kTLSSession ;;
    if negb (session_truthy (session t)) && session_truthy cached then
      let t' := mkTls (reuseSessions t) cached in
      when shared
        (modify (fun p =>
                   set_kOptions
                     (mkOptions (Some t') (clientOptions (kOptions p))) p)) ;;
      ret t'
    else ret t.

(** [!options.tls || (options.tls.reuseSessions !== false && !options.tls.session)] *)
Definition listens_to_session (t : option TlsOptions) : bool :=
  match t with
  | None => true
  | Some t => negb (reuse_disabled t) && negb (session_truthy (session t))
  end.

Definition lift {A} (c : Completion A) : Eff C A := fun p => (c, p).

(** The body of [if (!this[kConnections] || length < this[kConnections])]:
    makes the connection, subscribes, pushes it, and yields its position. *)
Definition create_client : Eff C nat :=
  options0 <- gets kOptions ;;
  t <- addCachedSessionToTLSOptions options0 ;;
  let options := mkOptions (Some t) (clientOptions options0) in
  url <- gets kUrl ;;
  client <- lift (newClient url options) ;;
  let subscribed :=
    [EvDrain; EvConnect; EvDisconnect]
    ++ (if listens_to_session (tls options) then [EvSession] else []) in
  clients <- gets kClients ;;
  modify (set_kClients (clients ++ [mkSlot client subscribed])) ;;
  ret (length clients).

(** *** [dispatch (opts, handler)] *)

(** The two tests that open the [try] block. *)
Definition check_open : Eff C unit :=
  isDestroyed <- gets kDestroyed ;;
  when isDestroyed (throw ClientDestroyedError) ;;
  closedPromise <- gets kClosedPromise ;;
  when (match closedPromise with Some _ => true | None => false end)
    (throw ClientClosedError).

(** [let client = this[kClients].find(...)] and the [if (!client)] that
    may make one: the position of the connection, if there is one. *)
Definition pick_client : Eff C (option nat) :=
  clients <- gets kClients ;;
  limit <- gets kConnections ;;
  match find_not_busy 0 clients with
  | Some c => ret (Some c)
  | None =>
      if negb (limit_truthy limit)
         || length_below_limit (length clients) limit
      then c <- create_client ;; ret (Some c)
      else ret None
  end.

(** The branch [if (!client)] at the end of the [try] block. *)
Definition enqueue (it : Item) : Eff C unit :=
  modify (set_kNeedDrain true) ;;
  modify (fun p => set_kQueue (kQueue p ++ [it]) p) ;;
  modify (fun p => set_kPending (kPending p + 1) p).

(** Its [else] branch. *)
Definition hand_over (c : nat) (it : Item) : Eff C unit :=
  dispatch_to c it ;;
  clientBusy <- gets (this_busy c) ;;
  poolBusy <- gets busy ;;
  when (clientBusy && poolBusy) (modify (set_kNeedDrain true)).

Definition dispatch_try (o : RequestOpts) (h : Handler) : Eff C unit :=
  check_open ;;
  client <- pick_client ;;
  match client with
  | None => enqueue (mkItem o h)
  | Some c => hand_over c (mkItem o h)
  end.

Definition dispatch (o : RequestOpts) (h : Handler) : Eff C unit :=
  try_catch (dispatch_try o h) (dispatch_catch h).

(** *** [close (cb)] *)

Definition close_try (cb : option nat) : Eff C (option nat) :=
  isDestroyed <- gets kDestroyed ;;
  when isDestroyed (throw ClientDestroyedError) ;;
  closedPromise <- gets kClosedPromise ;;
  when (match closedPromise with Some _ => false | None => true end)
    (queue <- gets kQueue ;;
     first <-
       match queue with
       | [] => close_all
       | _ :: _ =>
           r <- new_promise PromiseNew ;;
           modify (set_kClosedResolve (Some r)) ;;
           ret r
       end ;;
     r <- new_promise (PromiseThen first SetDestroyed) ;;
     modify (set_kClosedPromise (Some r))) ;;
  closedPromise <- gets kClosedPromise ;;
  match cb with
  | Some f =>
      match closedPromise with
      | Some r => _ <- new_promise (PromiseThen r (CallCallback f)) ;; ret None
      | None => throw TypeError
      end
  | None => ret closedPromise
  end.

Definition close_catch (cb : option nat) (err : JsError)
  : Eff C (option nat) :=
  match cb with
  | Some f => emit (Callback f (Some err)) ;; ret None
  | None => r <- new_promise (PromiseReject err) ;; ret (Some r)
  end.

Definition close (cb : option nat) : Eff C (option nat) :=
  try_catch (close_try cb) (close_catch cb).

(** *** [destroy (err, cb)] *)

(** [while (true) { const item = this[kQueue].shift(); if (!item) break;
    item.handler.onError(err) }].  [queue] is the content of
    [this[kQueue]] when the loop is entered; each [shift] writes the rest
    back to the pool. *)
Fixpoint destroy_loop (queue : list Item) (err : JsError) p
  : Completion unit * Pool C :=
  match queue with
  | [] => (Normal tt, p)
  | item :: rest =>
      match call_onError (handler item) err (set_kQueue rest p) with
      | (Normal _, p') => destroy_loop rest err p'
      | (Throw e, p') => (Throw e, p')
      end
  end.

Definition destroy (err : DestroyArg) (cb : option nat)
  : Eff C (option nat) :=
  modify (set_kDestroyed true) ;;
  let cb := match err with ArgFunction f => Some f | _ => cb end in
  let err := match err with ArgError e => e | _ => ClientDestroyedError end in
  (fun p => destroy_loop (kQueue p) err p) ;;
  promise <- destroy_all err ;;
  match cb with
  | Some f =>
      _ <- new_promise (PromiseThen promise (CallCallback f)) ;; ret None
  | None => ret (Some promise)
  end.

(** *** Listeners on a connection *)

(** [while (!this.busy) { const item = queue.shift(); if (!item) break;
    pool[kPending]--; this.dispatch(item.opts, item.handler) }], with
    [queue] as in [destroy_loop]. *)
Fixpoint onDrain_loop (this : nat) (queue : list Item) p
  : Completion unit * Pool C :=
  if this_busy this p then (Normal tt, p)
  else
    match queue with
    | [] => (Normal tt, p)
    | item :: rest =>
        let p1 := set_kQueue rest p in
        let p2 := set_kPending (kPending p1 - 1) p1 in
        match dispatch_to this item p2 with
        | (Normal _, p') => onDrain_loop this rest p'
        | (Throw e, p') => (Throw e, p')
        end
    end.

(** [if (pool[kNeedDrain] && !this.busy) { ... }] *)
Definition signal_drain (this : nat) : Eff C unit :=
  needDrain <- gets kNeedDrain ;;
  thisBusy <- gets (this_busy this) ;;
  when (needDrain && negb thisBusy)
    (modify (set_kNeedDrain false) ;; emit EmitDrain).

(** [if (pool[kClosedResolve] && queue.isEmpty()) { ... }] *)
Definition resolve_closed : Eff C unit :=
  resolve <- gets kClosedResolve ;;
  queue <- gets kQueue ;;
  match resolve, queue with
  | Some r, [] =>
      all <- close_all ;;
      _ <- new_promise (PromiseThen all (ResolveClosed r)) ;;
      ret tt
  | _, _ => ret tt
  end.

(** [this[kOnDrain]], run with [this] bound to the connection at that
    position. *)
Definition onDrain (this : nat) : Eff C unit :=
  (fun p => onDrain_loop this (kQueue p) p) ;;
  signal_drain this ;;
  resolve_closed.

Definition onConnect (client : nat) : Eff C unit :=
  modify (fun p => set_kConnected (kConnected p + 1) p) ;;
  emit (EmitConnect client).

Definition onDisconnect (client : nat) (err : JsError) : Eff C unit :=
  modify (fun p => set_kConnected (kConnected p - 1) p) ;;
  emit (EmitDisconnect client err).

(** [this[kOnTLSSession]] *)
Definition cacheClientTLSSession (s : SessionVal) : Eff C unit :=
  when (session_truthy s) (modify (set_kTLSSession s)).

(** *** Promises settling *)

Definition is_fulfilled (r : nat) p : bool := existsb (Nat.eqb r) (fulfilled p).

Definition fulfil (r : nat) : Eff C unit :=
  modify (fun p => set_fulfilled (r :: fulfilled p) p).

(** Every connection promise a [Promise.all] waits for is fulfilled. *)
Definition settle_all (r : nat) : Eff C unit :=
  cell <- gets (fun p => nth_error (promises p) r) ;;
  match cell with
  | Some (PromiseAll _) => fulfil r
  | _ => ret tt
  end.

Definition react (k : Reaction) : Eff C unit :=
  match k with
  | SetDestroyed => modify (set_kDestroyed true)
  | CallCallback f => emit (Callback f None)
  | ResolveClosed r => fulfil r
  end.

(** The reaction of [source.then(k)] runs once, after [source] is
    fulfilled. *)
Definition run_reaction (r : nat) : Eff C unit :=
  cell <- gets (fun p => nth_error (promises p) r) ;;
  match cell with
  | Some (PromiseThen source k) =>
      ready <- gets (is_fulfilled source) ;;
      done <- gets (is_fulfilled r) ;;
      when (ready && negb done) (react k ;; fulfil r)
  | _ => ret tt
  end.

(** ** Histories of a pool *)

(** What can happen to a pool: a call of one of its methods, an event of
    one of its connections, a connection changing by its own work, a
    promise settling. *)
Inductive Action : Type :=
| CallDispatch (o : RequestOpts) (h : Handler)
| CallClose (cb : option nat)
| CallDestroy (err : DestroyArg) (cb : option nat)
| NotifyDrain (c : nat)
| NotifyConnect (c : nat)
| NotifyDisconnect (c : nat) (err : JsError)
| NotifySession (c : nat) (s : SessionVal)
| ClientProgress (c : nat) (st : C)
| SettleAll (r : nat)
| RunReaction (r : nat).

Definition listens (c : nat) (ev : ClientEvent) p : bool :=
  match nth_error (kClients p) c with
  | Some s => existsb (ClientEvent_eqb ev) (listeners s)
  | None => false
  end.

(** An event reaches the pool only from a connection it subscribed to. *)
Definition enabled (a : Action) p : bool :=
  match a with
  | NotifyDrain c => listens c EvDrain p
  | NotifyConnect c => listens c EvConnect p
  | NotifyDisconnect c _ => listens c EvDisconnect p
  | NotifySession c _ => listens c EvSession p
  | ClientProgress c _ => (c <? length (kClients p))%nat
  | _ => true
  end.

Definition forget {A} (m : Eff C A) : Eff C unit := fun p =>
  match m p with
  | (Normal _, p') => (Normal tt, p')
  | (Throw e, p') => (Throw e, p')
  end.

Definition perform (a : Action) : Eff C unit :=
  match a with
  | CallDispatch o h => dispatch o h
  | CallClose cb => forget (close cb)
  | CallDestroy err cb => forget (destroy err cb)
  | NotifyDrain c => onDrain c
  | NotifyConnect c => onConnect c
  | NotifyDisconnect c err => onDisconnect c err
  | NotifySession _ s => cacheClientTLSSession s
  | ClientProgress c st =>
      modify (fun p =>
                match nth_error (kClients p) c with
                | Some s =>
                    set_kClients
                      (replace_nth c (mkSlot st (listeners s)) (kClients p)) p
                | None => p
                end)
  | SettleAll r => settle_all r
  | RunReaction r => run_reaction r
  end.

(** The pool after an action, whether it returned or threw. *)
Definition after (a : Action) p : Pool C := snd (perform a p).

(** Runs the enabled actions of a history in order, skipping the others. *)
Fixpoint run (acts : list Action) p : Pool C :=
  match acts with
  | [] => p
  | a :: acts' => run acts' (if enabled a p then after a p else p)
  end.

(** The states a pool made by [constructor] can be in between two
    actions. *)
Inductive reachable : Pool C -> Prop :=
| reachable_new origin connections options p :
    constructor origin connections options = Normal p ->
    reachable p
| reachable_step a p :
    reachable p -> enabled a p = true -> reachable (after a p).
End PoolCode.

(** ** A connection to run the pool with *)

(** Modelled from the spec: the Connection ([Client] of [./core/client],
    which is not among the sources), in the plainest form that fits what
    the specification says of it: it "exposes busy/pending/running/size
    observability, a dispatch operation, close/destroy lifecycle
    operations".  A [SerialClient] is the list of the requests handed to
    it; it takes one request at a time, so it is busy as soon as it holds
    one, and it finishes requests by its own work ([ClientProgress]). *)
Definition SerialClient : Type := list Item.

#[export] Instance SerialClient_Client : Client SerialClient := {
  newClient _ _ := Normal [];
  client_busy c := negb (Nat.eqb (length c) 0);
  client_pending _ := 0;
  client_running c := Z.of_nat (length c);
  client_size c := Z.of_nat (length c);
  client_dispatch o h c := (Normal tt, c ++ [mkItem o h]);
  client_close c := c;
  client_destroy _ c := c
}.

(** Modelled from the spec: [util.parseOrigin] ("URL/origin parsing", not
    among the sources), here taking every origin as it comes. *)
Definition anyOrigin (origin : string) : Completion Url := Normal origin.

Definition noOptions : Options := mkOptions None EmptyString.

(** [new Pool(origin, { connections })] on [SerialClient]s, when the
    constructor returns. *)
Definition newPool (connections : ConnectionsArg) (options : Options)
  : Pool SerialClient :=
  match constructor anyOrigin "http://localhost:3000"%string connections options with
  | Normal p => p
  | Throw _ => mkPool None EmptyString options [] None None true [] false 0 0
                 SessionUndefined [] [] []
  end.

Definition handlerOf (n : nat) : Handler := HandlerObject n true.

(** ** Notions the properties are stated with *)

Section Notions.
Context {C : Type} `{Client C}.
Implicit Types p : Pool C.

(** [typeof handler.onError === 'function'], for a handler that exists. *)
Definition has_onError (h : Handler) : bool :=
  match h with
  | HandlerObject _ true => true
  | HandlerThrowing _ _ => true
  | _ => false
  end.

(** [handler.onError] is a function, and it returns when it is called. *)
Definition onError_returns (h : Handler) : bool :=
  match h with
  | HandlerObject _ true => true
  | _ => false
  end.

(** What a call [handler.onError(err)] with no test before it throws when
    it does not return: a [TypeError] when there is nothing to call, else
    what [onError] threw. *)
Definition onError_failure (h : Handler) : JsError :=
  match h with
  | HandlerThrowing _ thrown => thrown
  | _ => TypeError
  end.

(** The requests handed to connections, in the order of the calls. *)
Fixpoint handed_over (t : list Effect) : list Item :=
  match t with
  | [] => []
  | ClientDispatch _ it :: t' => it :: handed_over t'
  | _ :: t' => handed_over t'
  end.

(** [handler.onError(err)] for each entry of a queue, head first: the
    calls that are made, whether they return or throw. *)
Definition fail_each (err : JsError) (queue : list Item) : list Effect :=
  flat_map
    (fun it =>
       match handler it with
       | HandlerObject hid true => [OnError hid err]
       | HandlerThrowing hid _ => [OnError hid err]
       | _ => []
       end)
    queue.

(** The entries at the head of a queue whose handler can take an error:
    its [onError] is a function that returns. *)
Fixpoint failable (queue : list Item) : nat :=
  match queue with
  | [] => 0
  | it :: rest =>
      if onError_returns (handler it) then S (failable rest) else 0
  end.

(** The exact sum of [f] over the connections. *)
Definition sum_clients (f : C -> Z) (cs : list (Slot C)) : Z :=
  fold_right (fun s acc => f (conn s) + acc) 0 cs.

(** Every connection reads a number that is not negative. *)
Definition counts_up (f : C -> Z) (cs : list (Slot C)) : Prop :=
  forall s, In s cs -> 0 <= f (conn s).

(** What [destroy] throws at the first entry whose handler cannot take
    the error. *)
Definition stopping_error (queue : list Item) : JsError :=
  match nth_error queue (failable queue) with
  | Some it => onError_failure (handler it)
  | None => TypeError
  end.

(** The busy observable in the words of the specification: true if
    [pendingCount > 0]; else, if [connectionLimit] is set and as many
    connections exist, true unless at least one connection is not busy;
    else false. *)
Definition busy_spec p : bool :=
  if 0 <? kPending p then true
  else
    match kConnections p with
    | Some connectionLimit =>
        if Qeq_bool (inject_Z (Z.of_nat (length (kClients p)))) connectionLimit
        then negb (existsb (fun s => negb (client_busy (conn s))) (kClients p))
        else false
    | None => false
    end.

(** A limit that is set is a positive number. *)
Definition limit_positive p : Prop :=
  match kConnections p with
  | Some q => (0 < q)%Q
  | None => True
  end.

(** [pendingCount == queue.length] *)
Definition pending_is_queue_length p : Prop :=
  kPending p = Z.of_nat (length (kQueue p)).

(** The part of [pool.pending] that is not in any connection. *)
Definition queued_pending p : Z :=
  pending p - add_each client_pending (kClients p) 0.

Definition is_close (a : @Action C) : bool :=
  match a with CallClose _ => true | _ => false end.

(** Whether [close] is called somewhere in a history. *)
Definition close_called (acts : list (@Action C)) : bool :=
  existsb is_close acts.

(** Whether [close] is called somewhere in a history at a moment when the
    pool is not destroyed. *)
Fixpoint close_called_alive (acts : list (@Action C)) p : bool :=
  match acts with
  | [] => false
  | a :: acts' =>
      (is_close a && negb (kDestroyed p))
      || close_called_alive acts' (if enabled a p then after a p else p)
  end.

(** The session subscription the specification asks for, from the options
    the caller gave: reuse not disabled and no session set. *)
Definition caller_allows_session_events (o : Options) : bool :=
  match tls o with
  | None => true
  | Some t => negb (reuse_disabled t) && negb (session_truthy (session t))
  end.
End Notions.

(** ** Pools the examples run on *)

Definition requestA : Item := mkItem "/a"%string (handlerOf 1).
Definition requestB : Item := mkItem "/b"%string (handlerOf 2).
Definition requestC : Item := mkItem "/c"%string (handlerOf 3).

Definition dispatchItem (it : Item) : @Action SerialClient :=
  CallDispatch (opts it) (handler it).

(** One connection allowed, [requestA] in flight, [requestB] and [requestC]
    waiting in the queue. *)
Definition poolWithQueue : Pool SerialClient :=
  run [dispatchItem requestA; dispatchItem requestB; dispatchItem requestC]
      (newPool (ConnFinite 1) noOptions).

(** No limit, no TLS options; the first connection reported a session. *)
Definition poolWithSession : Pool SerialClient :=
  run [dispatchItem requestA; NotifySession 0 (SessionBuffer [7%nat])]
      (newPool ConnUndefined noOptions).

(** Modelled from the spec: a Connection that keeps for its own
    [dispatch] the contract the specification gives the pool's ("[handler]
    must expose an error-reporting capability", a violation being
    "reported by raising immediately"): it raises for a handler without an
    [onError] function and takes the request otherwise, one at a time. *)
Record StrictClient : Type := mkStrict { held : list Item }.

#[export] Instance StrictClient_Client : Client StrictClient := {
  newClient _ _ := Normal (mkStrict []);
  client_busy c := negb (Nat.eqb (length (held c)) 0);
  client_pending _ := 0;
  client_running c := Z.of_nat (length (held c));
  client_size c := Z.of_nat (length (held c));
  client_dispatch o h c :=
    if has_onError h
    then (Normal tt, mkStrict (held c ++ [mkItem o h]))
    else (Throw (InvalidArgumentError "invalid onError method"), c);
  client_close c := c;
  client_destroy _ c := c
}.

(** One [StrictClient] allowed; it has finished [requestA]; the first of
    the two waiting requests has a handler without [onError]. *)
Definition strictPoolWithQueue : Pool StrictClient :=
  match constructor anyOrigin "http://localhost:3000"%string (ConnFinite 1)
          noOptions with
  | Normal p =>
      run [CallDispatch "/a"%string (handlerOf 1);
           CallDispatch "/b"%string (HandlerObject 2 false);
           CallDispatch "/c"%string (handlerOf 3);
           ClientProgress 0 (mkStrict [])]
          p
  | Throw _ => mkPool None EmptyString noOptions [] None None true [] false
                 0 0 SessionUndefined [] [] []
  end.

(** ** Relations between the pool before and after some code *)

Section Frames.
Context {C : Type}.

(** The code leaves what [f] reads as it was. *)
Definition same {X} (f : Pool C -> X) : Pool C -> Pool C -> Prop :=
  fun p q => f q = f p.

(** The code never lowers the flag [f]. *)
Definition upward (f : Pool C -> bool) : Pool C -> Pool C -> Prop :=
  fun p q => f p = true -> f q = true.

(** Whatever the start and the outcome, [m] ends in a pool related to the
    one it started with. *)
Definition keeps (R : Pool C -> Pool C -> Prop) {A} (m : Eff C A) : Prop :=
  forall p, R p (snd (m p)).
End Frames.

(** ** Notions of the queue's order *)

Section QueueNotions.
Context {C : Type} `{Client C}.
Implicit Types p q : Pool C.

(** [q] is [p] after some entries at the head of the queue were taken off
    and handed to connections, the oldest first, [pendingCount] counted
    down by one for each. *)
Definition drained p q : Prop :=
  exists n : nat,
    (n <= length (kQueue p))%nat
    /\ kQueue q = skipn n (kQueue p)
    /\ kPending q = kPending p - Z.of_nat n
    /\ handed_over (trace q) = handed_over (trace p) ++ firstn n (kQueue p).

(** No connection is free and no connection may be added. *)
Definition at_capacity p : bool :=
  match find_not_busy 0 (kClients p) with
  | Some _ => false
  | None =>
      negb (negb (limit_truthy (kConnections p))
            || length_below_limit (length (kClients p)) (kConnections p))
  end.

(** Neither destroyed nor closed. *)
Definition accepting p : bool :=
  negb (kDestroyed p)
  && match kClosedPromise p with Some _ => false | None => true end.

(** Actions that bring no new request and do not destroy the pool. *)
Definition serves_only (a : @Action C) : bool :=
  match a with
  | CallDispatch _ _ | CallDestroy _ _ => false
  | _ => true
  end.


(** What code that leaves the queue alone does not change. *)
Definition queue_view p : list Item * Z * list Item :=
  (kQueue p, kPending p, handed_over (trace p)).

(** The queue and its counter. *)
Definition queue_and_count p : list Item * Z := (kQueue p, kPending p).

(** The error [destroy] hands out and the callback it calls, after it
    sorted out its arguments. *)
Definition destroy_error (err : DestroyArg) : JsError :=
  match err with ArgError e => e | _ => ClientDestroyedError end.

Definition destroy_callback (err : DestroyArg) (cb : option nat)
  : option nat :=
  match err with ArgFunction f => Some f | _ => cb end.

(** What code that leaves the promises and the life cycle alone does not
    change. *)
Definition store_view p
  : list Promise * list nat * option nat * option nat * bool :=
  (promises p, fulfilled p, kClosedPromise p, kClosedResolve p, kDestroyed p).
End QueueNotions.

(** ** Properties kept by code *)

Section Steady.
Context {C : Type}.

(** The code does not break [I]. *)
Definition steady (I : Pool C -> Prop) : Pool C -> Pool C -> Prop :=
  fun p q => I p -> I q.

Definition is_destroy (a : @Action C) : bool :=
  match a with CallDestroy _ _ => true | _ => false end.
End Steady.

(** ** The promise store *)

Section Store.
Context {C : Type}.
Implicit Types p : Pool C.

Definition cell p (r : nat) : option Promise := nth_error (promises p) r.

(** What holds of the promises of a pool: a fulfilled promise is in the
    store; the resolver kept in [kClosedResolve], and any resolver given
    to [then], is that of a promise made with [new Promise]; the promise
    kept in [kClosedPromise] is one whose reaction sets [kDestroyed], and
    it is fulfilled only if that reaction ran. *)
Definition store_ok p : Prop :=
  (forall x, In x (fulfilled p) -> (x < length (promises p))%nat)
  /\ (forall i src a,
         cell p i = Some (PromiseThen src (ResolveClosed a)) ->
         cell p a = Some PromiseNew)
  /\ (forall a, kClosedResolve p = Some a -> cell p a = Some PromiseNew)
  /\ (forall r,
         kClosedPromise p = Some r ->
         (exists src, cell p r = Some (PromiseThen src SetDestroyed))
         /\ (In r (fulfilled p) -> kDestroyed p = true)).

(** A cell that resolves nothing. *)
Definition resolves_nothing (c : Promise) : bool :=
  match c with
  | PromiseThen _ (ResolveClosed _) => false
  | _ => true
  end.
End Store.

(** ** Notions of the further properties *)

Section MoreNotions.
Context {C : Type} `{Client C}.
Implicit Types p : Pool C.

(** What each connection of the pool is subscribed to, in the order the
    connections were made. *)
Definition subscriptions p : list (list ClientEvent) :=
  map (@listeners C) (kClients p).

(** The three [.on] calls every new connection gets. *)
Definition base_events : list ClientEvent :=
  [EvDrain; EvConnect; EvDisconnect].

Definition well_subscribed (ls : list ClientEvent) : Prop :=
  ls = base_events \/ ls = base_events ++ [EvSession].

(** The limit and the subscriptions. *)
Definition limit_and_subscriptions p
  : option Q * list (list ClientEvent) :=
  (kConnections p, subscriptions p).

(** [dispatch] may make a connection: none is free, and the limit is
    unset or not reached. *)
Definition may_grow p : bool :=
  match find_not_busy 0 (kClients p) with
  | Some _ => false
  | None =>
      negb (limit_truthy (kConnections p))
      || length_below_limit (length (kClients p)) (kConnections p)
  end.

Definition is_dispatch (a : @Action C) : bool :=
  match a with CallDispatch _ _ => true | _ => false end.

Definition is_drain (a : @Action C) : bool :=
  match a with NotifyDrain _ => true | _ => false end.

Definition is_emit_drain (e : Effect) : bool :=
  match e with EmitDrain => true | _ => false end.

Definition is_client_close (e : Effect) : bool :=
  match e with ClientClose _ => true | _ => false end.

Definition is_client_destroy (e : Effect) : bool :=
  match e with ClientDestroy _ _ => true | _ => false end.

(** How many effects of a kind a trace holds. *)
Definition count_effects (kind : Effect -> bool) (t : list Effect) : nat :=
  length (filter kind t).

Definition counted (kind : Effect -> bool) p : nat :=
  count_effects kind (trace p).

(** How often the pool emitted ['drain']. *)
Definition drains_emitted (t : list Effect) : nat :=
  count_effects is_emit_drain t.

(** How often the pool called [close()] on a connection. *)
Definition closes_called (t : list Effect) : nat :=
  count_effects is_client_close t.

(** How often the pool called [destroy(err)] on a connection. *)
Definition destroys_called (t : list Effect) : nat :=
  count_effects is_client_destroy t.

(** The TLS options a new connection is made with, in the words of the
    specification: the caller's, unless reuse is not disabled, no
    session is set in them and the cache holds a ticket, which is then
    put in. *)
Definition tls_for_new_client p : TlsOptions :=
  let t := match tls (kOptions p) with Some t => t | None => empty_tls end in
  if reuse_disabled t then t
  else if session_truthy (session t) then t
  else if session_truthy (kTLSSession p)
       then mkTls (reuseSessions t) (kTLSSession p)
       else t.

(** The options the pool keeps after making a connection: the assignment
    to [tls.session] shows in them when the caller gave a [tls] object. *)
Definition kept_options_after_new_client p : Options :=
  match tls (kOptions p) with
  | Some _ => mkOptions (Some (tls_for_new_client p)) (clientOptions (kOptions p))
  | None => kOptions p
  end.

(** As many connections as the limit allows, counted as the code counts:
    a connection is made only while the length is below the limit. *)
Definition within_limit p : Prop :=
  match kConnections p with
  | Some q =>
      forall n : nat,
        length (kClients p) = S n -> (inject_Z (Z.of_nat n) < q)%Q
  | None => True
  end.

(** The queue and the backpressure flag. *)
Definition queue_and_flag p : list Item * bool := (kQueue p, kNeedDrain p).

(** A request waits only while the backpressure flag is up. *)
Definition waiting_needs_drain p : Prop :=
  kQueue p <> [] -> kNeedDrain p = true.

(** [close] on a pool with waiting requests keeps the resolver of a
    promise made with [new Promise], and as [kClosedPromise] the promise
    made next, whose reaction sets [kDestroyed] once the first is
    resolved. *)
Definition close_wired p : Prop :=
  forall a,
    kClosedResolve p = Some a ->
    kClosedPromise p = Some (S a)
    /\ cell p a = Some PromiseNew
    /\ cell p (S a) = Some (PromiseThen a SetDestroyed).

(** What code that makes no promise and leaves [close]'s two fields alone
    does not change. *)
Definition wiring_view p : list Promise * option nat * option nat :=
  (promises p, kClosedPromise p, kClosedResolve p).

(** A promise whose reaction sets [kDestroyed]. *)
Definition sets_destroyed (c : Promise) : bool :=
  match c with
  | PromiseThen _ SetDestroyed => true
  | _ => false
  end.

(** [q] has the promises of [p], maybe more, none of the new ones with a
    reaction that sets [kDestroyed], and [close]'s two fields as they
    were. *)
Definition store_grows p (q : Pool C) : Prop :=
  kClosedResolve q = kClosedResolve p
  /\ kClosedPromise q = kClosedPromise p
  /\ exists extra,
      promises q = promises p ++ extra
      /\ forallb (fun c => negb (sets_destroyed c)) extra = true.

(** The only promise whose reaction sets [kDestroyed] is the one [close]
    keeps in [kClosedPromise]. *)
Definition destroyed_by_close_only p : Prop :=
  forall i src,
    cell p i = Some (PromiseThen src SetDestroyed) ->
    kClosedPromise p = Some i.

(** The call [handler.onError(err)] of the [catch] block of [dispatch],
    when the handler has something to call. *)
Definition reported (h : Handler) (err : JsError) : list Effect :=
  match h with
  | HandlerObject hid true => [OnError hid err]
  | HandlerThrowing hid _ => [OnError hid err]
  | _ => []
  end.

(** [pendingCount] is at least the number of waiting requests. *)
Definition pending_covers_queue p : Prop :=
  Z.of_nat (length (kQueue p)) <= kPending p.

(** What the session cache is after an action. *)
Definition session_after (a : @Action C) p : SessionVal :=
  match a with
  | NotifySession _ s => if session_truthy s then s else kTLSSession p
  | _ => kTLSSession p
  end.

(** The limit is unset or a whole number. *)
Definition whole_limit p : Prop :=
  forall limit : Q,
    kConnections p = Some limit ->
    exists n : nat, (limit == inject_Z (Z.of_nat n))%Q.

(** What [connected] changes by. *)
Definition connected_change (a : @Action C) : Z :=
  match a with
  | NotifyConnect _ => 1
  | NotifyDisconnect _ _ => -1
  | _ => 0
  end.
End MoreNotions.

(** ** More pools the examples run on *)

(** One connection allowed; [close] was called while [requestB] waited;
    the connection has finished [requestA] since. *)
Definition poolClosing : Pool SerialClient :=
  run [dispatchItem requestA; dispatchItem requestB; CallClose None;
       ClientProgress 0 []]
      (newPool (ConnFinite 1) noOptions).

(** One connection allowed, [requestA] in flight; the first of the two
    waiting requests has a handler without [onError]. *)
Definition poolWithBadHandler : Pool SerialClient :=
  run [dispatchItem requestA;
       CallDispatch "/b"%string (HandlerObject 2 false);
       dispatchItem requestC]
      (newPool (ConnFinite 1) noOptions).

(** No limit; the first connection holds [requestA], the second has
    finished [requestB]. *)
Definition poolWithFreeConnection : Pool SerialClient :=
  run [dispatchItem requestA; dispatchItem requestB; ClientProgress 1 []]
      (newPool ConnUndefined noOptions).

(** No limit; the one connection has finished [requestA]. *)
Definition poolIdle : Pool SerialClient :=
  run [dispatchItem requestA; ClientProgress 0 []]
      (newPool ConnUndefined noOptions).

(** [poolWithQueue] after [destroy()]. *)
Definition poolDestroyed : Pool SerialClient :=
  after (CallDestroy ArgAbsent None) poolWithQueue.

(** * Properties *)

Unset Implicit Arguments.
Unset Maximal Implicit Insertion.

Ltac eff :=
  unfold bind, ret, throw, try_catch, gets, modify, when, emit, new_promise,
    lift, forget in *.

(** ** Frame rules *)

#[export] Instance same_PreOrder {C X} (f : Pool C -> X) : PreOrder (same f).
Proof.
  split; unfold same; [intros p; reflexivity|].
  intros p q r Hpq Hqr. rewrite Hqr. exact Hpq.
Qed.

#[export] Instance upward_PreOrder {C} (f : Pool C -> bool)
  : PreOrder (upward f).
Proof.
  split; unfold upward; [intros p; auto|].
  intros p q r Hpq Hqr Hp. auto.
Qed.

#[export] Instance steady_PreOrder {C} (I : Pool C -> Prop)
  : PreOrder (steady I).
Proof.
  split; unfold steady; [intros p; auto|].
  intros p q r Hpq Hqr Hp. auto.
Qed.

Section Keeps.
Context {C : Type} (R : Pool C -> Pool C -> Prop) `{!PreOrder R}.

Lemma keeps_ret {A} (a : A) : keeps R (ret a).
Proof. intros p; cbn; reflexivity. Qed.

Lemma keeps_throw {A} e : keeps R (@throw C A e).
Proof. intros p; cbn; reflexivity. Qed.

Lemma keeps_gets {A} (f : Pool C -> A) : keeps R (gets f).
Proof. intros p; cbn; reflexivity. Qed.

Lemma keeps_lift {A} (c : Completion A) : keeps R (lift c).
Proof. intros p; cbn; reflexivity. Qed.

Lemma keeps_modify f : (forall p, R p (f p)) -> keeps R (modify f).
Proof. intros Hf p; cbn; apply Hf. Qed.

Lemma keeps_bind {A B} (m : Eff C A) (k : A -> Eff C B) :
  keeps R m -> (forall a, keeps R (k a)) -> keeps R (bind m k).
Proof.
  intros Hm Hk p. unfold bind. specialize (Hm p).
  destruct (m p) as [[a|e] p']; cbn in *; [|exact Hm].
  etransitivity; [exact Hm | apply Hk].
Qed.

Lemma keeps_try_catch {A} (m : Eff C A) (h : JsError -> Eff C A) :
  keeps R m -> (forall e, keeps R (h e)) -> keeps R (try_catch m h).
Proof.
  intros Hm Hh p. unfold try_catch. specialize (Hm p).
  destruct (m p) as [[a|e] p']; cbn in *; [exact Hm|].
  etransitivity; [exact Hm | apply Hh].
Qed.

Lemma keeps_when b (m : Eff C unit) : keeps R m -> keeps R (when b m).
Proof. intros Hm. destruct b; cbn; [exact Hm | apply keeps_ret]. Qed.

Lemma keeps_forget {A} (m : Eff C A) : keeps R m -> keeps R (forget m).
Proof.
  intros Hm p. unfold forget. specialize (Hm p).
  destruct (m p) as [[a|e] p']; exact Hm.
Qed.

Lemma keeps_new_promise cell :
  (forall v p, R p (set_promises v p)) -> keeps R (new_promise cell).
Proof. intros Hf p; cbn; apply Hf. Qed.
End Keeps.

(** ** Equality of pools *)

Lemma pool_eq {C} (p q : Pool C) :
  kConnections p = kConnections q ->
  kUrl p = kUrl q ->
  kOptions p = kOptions q ->
  kQueue p = kQueue q ->
  kClosedPromise p = kClosedPromise q ->
  kClosedResolve p = kClosedResolve q ->
  kDestroyed p = kDestroyed q ->
  kClients p = kClients q ->
  kNeedDrain p = kNeedDrain q ->
  kPending p = kPending q ->
  kConnected p = kConnected q ->
  kTLSSession p = kTLSSession q ->
  promises p = promises q ->
  fulfilled p = fulfilled q ->
  trace p = trace q ->
  p = q.
Proof.
  destruct p, q; cbn; intros; subst; reflexivity.
Qed.

(** Two pools are equal when their fields are. *)
Ltac pool_ext := apply pool_eq; cbn; try reflexivity.

Section Facts.
Context {C : Type} `{Client C}.
Variable parseOrigin : string -> Completion Url.
Implicit Types p : Pool C.

Lemma every_client_busy_existsb (cs : list (Slot C)) :
  every_client_busy cs
  = negb (existsb (fun s => negb (client_busy (conn s))) cs).
Proof.
  induction cs as [|s cs IH]; cbn; [reflexivity|].
  destruct (client_busy (conn s)); cbn; auto.
Qed.

Lemma constructor_limit_positive origin connections options p :
  constructor parseOrigin origin connections options = Normal p ->
  limit_positive p.
Proof.
  unfold constructor, limit_positive.
  destruct (invalid_connections connections) eqn:Hinv; [discriminate|].
  destruct (parseOrigin origin); [|discriminate].
  intros [= <-]; cbn.
  destruct connections; cbn in *; auto.
  destruct (Qeq_bool q 0) eqn:Hz; cbn; auto.
  apply negb_false_iff, Qle_bool_iff in Hinv.
  apply Qeq_bool_neq in Hz.
  apply Qle_lteq in Hinv. destruct Hinv as [Hlt|Heq]; [exact Hlt|].
  exfalso; apply Hz; symmetry; exact Heq.
Qed.

(** *** Calls on a connection *)

Lemma replace_nth_length {A} i (x : A) l :
  length (replace_nth i x l) = length l.
Proof.
  revert i; induction l as [|y l IH]; intros [|i]; cbn; auto.
Qed.

Lemma replace_nth_listeners i (s : Slot C) st cs :
  nth_error cs i = Some s ->
  map (@listeners C) (replace_nth i (mkSlot st (listeners s)) cs)
  = map (@listeners C) cs.
Proof.
  revert i; induction cs as [|y cs IH]; intros [|i]; cbn; try discriminate.
  - intros [= ->]; reflexivity.
  - intros Hs; f_equal; auto.
Qed.

Lemma dispatch_to_idle this it p :
  this_busy this p = false ->
  exists r cs',
    map (@listeners C) cs' = map (@listeners C) (kClients p)
    /\ dispatch_to this it p
       = (r, set_trace (trace p ++ [ClientDispatch this it])
               (set_kClients cs' p)).
Proof.
  unfold this_busy, dispatch_to.
  destruct (nth_error (kClients p) this) as [s|] eqn:Hs; [|discriminate].
  intros _.
  destruct (client_dispatch (opts it) (handler it) (conn s)) as [r st].
  exists r, (replace_nth this (mkSlot st (listeners s)) (kClients p)).
  split; [apply replace_nth_listeners; exact Hs | reflexivity].
Qed.

(** *** The loop of [onDrain] *)

Lemma onDrain_loop_spec this queue : forall p,
  kQueue p = queue ->
  exists n cs',
    (n <= length queue)%nat
    /\ map (@listeners C) cs' = map (@listeners C) (kClients p)
    /\ snd (onDrain_loop this queue p)
       = set_trace (trace p ++ map (ClientDispatch this) (firstn n queue))
           (set_kClients cs'
              (set_kPending (kPending p - Z.of_nat n)
                 (set_kQueue (skipn n queue) p)))
    /\ (fst (onDrain_loop this queue p) = Normal tt ->
        this_busy this (snd (onDrain_loop this queue p)) = true
        \/ skipn n queue = [])
    /\ ((0 < n)%nat -> this_busy this p = false).
Proof.
  induction queue as [|item rest IH]; intros p Hq.
  - exists 0%nat, (kClients p). cbn.
    destruct (this_busy this p) eqn:Hb; cbn.
    all: split; [lia|]; split; [reflexivity|].
    all: split; [|split; [auto|lia]].
    all: pool_ext; rewrite ?app_nil_r; auto; lia.
  - cbn [onDrain_loop]. destruct (this_busy this p) eqn:Hb.
    + exists 0%nat, (kClients p). cbn.
      split; [lia|]; split; [reflexivity|]; split; [|split; [auto|lia]].
      pool_ext; rewrite ?app_nil_r; auto; lia.
    + set (p2 := set_kPending (kPending (set_kQueue rest p) - 1)
                   (set_kQueue rest p)).
      assert (Hb2 : this_busy this p2 = false) by exact Hb.
      destruct (dispatch_to_idle this item p2 Hb2) as (r & cs1 & Hl1 & Hd).
      rewrite Hd. destruct r as [[]|e].
      * match goal with
        | |- context [onDrain_loop this rest ?q] => set (p3 := q)
        end.
        destruct (IH p3 eq_refl) as (n & cs' & Hn & Hl & Hs & Hstop & _).
        exists (S n), cs'.
        split; [cbn; lia|]. split; [rewrite Hl; exact Hl1|].
        split; [|split; [exact Hstop | intros _; reflexivity]].
        rewrite Hs. subst p3 p2. pool_ext; [lia|].
        rewrite <- app_assoc. reflexivity.
      * exists 1%nat, cs1.
        split; [cbn; lia|]. split; [exact Hl1|].
        split; [|split; [discriminate | intros _; reflexivity]].
        subst p2. pool_ext.
Qed.

(** *** The loop of [destroy] *)

Lemma destroy_loop_spec err queue : forall p,
  kQueue p = queue ->
  destroy_loop queue err p
  = (if (failable queue =? length queue)%nat then Normal tt
     else Throw (stopping_error queue),
     set_trace
       (trace p ++ fail_each err (firstn (S (failable queue)) queue))
       (set_kQueue (skipn (S (failable queue)) queue) p)).
Proof.
  induction queue as [|item rest IH]; intros p Hq.
  - cbn. f_equal. pool_ext; rewrite ?app_nil_r; auto.
  - cbn [destroy_loop failable].
    destruct item as [o [|hid [|]|hid thrown]];
      cbn [handler onError_returns call_onError].
    + cbn. f_equal. pool_ext. rewrite app_nil_r. reflexivity.
    + unfold emit, modify.
      rewrite IH by reflexivity.
      unfold stopping_error. cbn -[firstn skipn].
      change (firstn (S (S (failable rest))) (mkItem o (HandlerObject hid true) :: rest))
        with (mkItem o (HandlerObject hid true) :: firstn (S (failable rest)) rest).
      cbn -[firstn skipn]. f_equal. pool_ext. rewrite <- app_assoc.
      reflexivity.
    + cbn. f_equal. pool_ext. rewrite app_nil_r. reflexivity.
    + cbn. f_equal; try (pool_ext; rewrite ?app_nil_r; reflexivity).
Qed.

(** *** Frame rules for the loops and the calls on connections *)

Section KeepsCode.
Context (R : Pool C -> Pool C -> Prop) `{!PreOrder R}.

Lemma keeps_dispatch_to c it :
  (forall v w p, R p (set_trace v (set_kClients w p))) ->
  keeps R (dispatch_to c it).
Proof.
  intros Hf p. unfold dispatch_to.
  destruct (nth_error (kClients p) c) as [s|]; [|reflexivity].
  destruct (client_dispatch (opts it) (handler it) (conn s)).
  apply Hf.
Qed.

Lemma keeps_onDrain_loop this :
  (forall v1 v2 v3 v4 p,
      R p (set_trace v1
             (set_kClients v2 (set_kPending v3 (set_kQueue v4 p))))) ->
  keeps R (fun p => onDrain_loop this (kQueue p) p).
Proof.
  intros Hf p.
  destruct (onDrain_loop_spec this (kQueue p) p eq_refl) as (n & cs' & _ & _ & Hs & _).
  rewrite Hs. apply Hf.
Qed.

Lemma keeps_destroy_loop err :
  (forall v1 v2 p, R p (set_trace v1 (set_kQueue v2 p))) ->
  keeps R (fun p => destroy_loop (kQueue p) err p).
Proof.
  intros Hf p. rewrite destroy_loop_spec by reflexivity. apply Hf.
Qed.
End KeepsCode.
End Facts.

Ltac class_goal :=
  try match goal with |- PreOrder _ => typeclasses eauto end.

(** A leaf of a frame proof for [same f] and [upward f]: the field read is
    not the one written, or it is written with [true]. *)
Ltac frame_leaf :=
  idtac;
  match goal with
  | |- keeps _ (modify _) => apply keeps_modify; class_goal
  | |- keeps _ (new_promise _) => apply keeps_new_promise; class_goal
  | |- keeps _ (dispatch_to _ _) => apply keeps_dispatch_to; class_goal
  | |- keeps _ (fun p => onDrain_loop _ (kQueue p) p) =>
      apply keeps_onDrain_loop; class_goal
  | |- keeps _ (fun p => destroy_loop (kQueue p) _ p) =>
      apply keeps_destroy_loop; class_goal
  end;
  intros; unfold same, upward; cbn;
  repeat match goal with
    | |- context [match ?x with _ => _ end] => destruct x; cbn
    end;
  auto.

Ltac head_of t :=
  match t with
  | ?f _ => head_of f
  | _ => t
  end.

(** Takes a computation apart down to its writes, which [leaf] is to solve. *)
Ltac keeps_step leaf :=
  match goal with
  | |- keeps _ _ => solve [leaf]
  | |- keeps _ (ret _) => apply keeps_ret; class_goal
  | |- keeps _ (throw _) => apply keeps_throw; class_goal
  | |- keeps _ (gets _) => apply keeps_gets; class_goal
  | |- keeps _ (lift _) => apply keeps_lift; class_goal
  | |- keeps _ (bind _ _) => apply keeps_bind; class_goal; [|intros ?]
  | |- keeps _ (try_catch _ _) =>
      apply keeps_try_catch; class_goal; [|intros ?]
  | |- keeps _ (when _ _) => apply keeps_when; class_goal
  | |- keeps _ (forget _) => apply keeps_forget; class_goal
  | |- keeps _ (match ?x with _ => _ end) => destruct x
  | |- keeps _ ?m => let h := head_of m in progress unfold h
  end.

Ltac keeps_go := repeat keeps_step frame_leaf.

Section Histories.
Context {C : Type} `{Client C}.
Variable parseOrigin : string -> Completion Url.
Implicit Types p : Pool C.

Lemma perform_keeps_kConnections (a : Action) :
  keeps (same (@kConnections C)) (perform a).
Proof. destruct a; cbn [perform]; keeps_go. Qed.

Lemma perform_keeps_kDestroyed (a : Action) :
  keeps (upward (@kDestroyed C)) (perform a).
Proof. destruct a; cbn [perform]; keeps_go. Qed.

Lemma perform_keeps_kClosedPromise (a : Action) :
  is_close a = false -> keeps (same (@kClosedPromise C)) (perform a).
Proof. destruct a; cbn [perform is_close]; intros Ha; try discriminate; keeps_go. Qed.

Lemma after_kConnections (a : Action) p :
  kConnections (after a p) = kConnections p.
Proof. apply perform_keeps_kConnections. Qed.

Lemma after_kDestroyed (a : Action) p :
  kDestroyed p = true -> kDestroyed (after a p) = true.
Proof. apply perform_keeps_kDestroyed. Qed.

Lemma run_kConnections acts : forall p,
  kConnections (run acts p) = kConnections p.
Proof.
  induction acts as [|a acts IH]; intros p; cbn; [reflexivity|].
  rewrite IH. destruct (enabled a p); [apply after_kConnections | reflexivity].
Qed.

Lemma run_kDestroyed acts : forall p,
  kDestroyed p = true -> kDestroyed (run acts p) = true.
Proof.
  induction acts as [|a acts IH]; intros p Hp; cbn; [exact Hp|].
  apply IH. destruct (enabled a p); [apply after_kDestroyed|]; exact Hp.
Qed.

Lemma run_app acts1 acts2 p :
  run (acts1 ++ acts2) p = run acts2 (run acts1 p).
Proof.
  revert p; induction acts1 as [|a acts1 IH]; intros p; cbn; auto.
Qed.

Lemma reachable_run acts : forall p,
  reachable parseOrigin p -> reachable parseOrigin (run acts p).
Proof.
  induction acts as [|a acts IH]; intros p Hp; cbn; [exact Hp|].
  apply IH. destruct (enabled a p) eqn:Ha; [|exact Hp].
  apply reachable_step; assumption.
Qed.

Lemma reachable_limit_positive p :
  reachable parseOrigin p -> limit_positive p.
Proof.
  induction 1 as [origin connections options p Hnew | a p _ IH _].
  - eapply constructor_limit_positive; eassumption.
  - unfold limit_positive in *. rewrite after_kConnections. exact IH.
Qed.

(** ** The busy observable *)

Lemma busy_spec_of_positive_limit p :
  limit_positive p -> busy p = busy_spec p.
Proof.
  unfold limit_positive, busy, busy_spec, limit_truthy, length_is_limit.
  intros Hpos.
  destruct (0 <? kPending p); [reflexivity|].
  destruct (kConnections p) as [q|]; [|reflexivity].
  assert (Hq : Qeq_bool q 0 = false).
  { destruct (Qeq_bool q 0) eqn:Hz; [|reflexivity].
    apply Qeq_bool_eq in Hz. rewrite Hz in Hpos.
    exfalso. exact (Qlt_irrefl 0 Hpos). }
  rewrite Hq. cbn.
  destruct (Qeq_bool _ q); [apply every_client_busy_existsb | reflexivity].
Qed.

(** C6: in every state a pool can reach, [busy] is what the specification
    says: true when [pendingCount > 0]; otherwise, when the limit is set
    and as many connections exist, true unless some connection is not
    busy; otherwise false. *)
Theorem busy_matches_spec p :
  reachable parseOrigin p -> busy p = busy_spec p.
Proof.
  intros Hp. apply busy_spec_of_positive_limit.
  apply reachable_limit_positive. exact Hp.
Qed.
End Histories.

(** ** The order in which the queue is served *)

Section Order.
Context {C : Type} `{Client C}.
Implicit Types p q : Pool C.

Lemma handed_over_app t1 t2 :
  handed_over (t1 ++ t2) = handed_over t1 ++ handed_over t2.
Proof.
  induction t1 as [|e t1 IH]; cbn; [reflexivity|].
  destruct e; cbn; rewrite ?IH; reflexivity.
Qed.

Lemma handed_over_dispatches c items :
  handed_over (map (ClientDispatch c) items) = items.
Proof. induction items as [|it items IH]; cbn; congruence. Qed.

Lemma handed_over_closes from (cs : list (Slot C)) :
  handed_over (call_each ClientClose from cs) = [].
Proof. revert from; induction cs as [|s cs IH]; intros from; cbn; auto. Qed.

Lemma firstn_add {A} n m (l : list A) :
  firstn (n + m) l = firstn n l ++ firstn m (skipn n l).
Proof.
  revert l; induction n as [|n IH]; intros l; cbn; [reflexivity|].
  destruct l as [|x l]; cbn; [now rewrite firstn_nil|].
  now rewrite IH.
Qed.

Lemma drained_is_preorder : PreOrder (@drained C).
Proof.
  split.
  - intros p. exists 0%nat. cbn. rewrite app_nil_r, Z.sub_0_r.
    repeat split; lia.
  - intros p q r (n & Hn & Hq & Hp & Ht) (m & Hm & Hq' & Hp' & Ht').
    exists (n + m)%nat. rewrite Hq in Hm, Hq', Ht'.
    rewrite length_skipn in Hm.
    split; [lia|]. split; [|split].
    + rewrite Hq', skipn_skipn. f_equal. lia.
    + rewrite Hp', Hp. lia.
    + rewrite Ht', Ht, <- app_assoc, firstn_add. reflexivity.
Qed.

Lemma drained_same p q :
  kQueue q = kQueue p ->
  kPending q = kPending p ->
  handed_over (trace q) = handed_over (trace p) ->
  drained p q.
Proof.
  intros Hq Hp Ht. exists 0%nat. cbn.
  rewrite app_nil_r, Z.sub_0_r. repeat split; auto; lia.
Qed.

Lemma keeps_drained_onDrain_loop this :
  keeps (@drained C) (fun p => onDrain_loop this (kQueue p) p).
Proof.
  intros p.
  destruct (onDrain_loop_spec this (kQueue p) p eq_refl)
    as (n & cs' & Hn & _ & Hs & _).
  rewrite Hs. exists n. cbn.
  rewrite handed_over_app, handed_over_dispatches. auto.
Qed.
End Order.

#[export] Instance drained_PreOrder {C} : PreOrder (@drained C) :=
  drained_is_preorder.

Ltac drained_leaf :=
  idtac;
  match goal with
  | |- keeps _ (fun p => onDrain_loop _ (kQueue p) p) =>
      apply keeps_drained_onDrain_loop
  | |- keeps _ (modify _) =>
      apply keeps_modify; class_goal; intros;
      repeat match goal with
        | |- context [match ?x with _ => _ end] => destruct x
        end;
      apply drained_same; cbn;
      rewrite ?handed_over_app, ?handed_over_closes; cbn;
      rewrite ?app_nil_r; reflexivity
  | |- keeps _ (new_promise _) => intros ?; apply drained_same; reflexivity
  end.

Ltac drained_go := repeat keeps_step drained_leaf.

Section Fifo.
Context {C : Type} `{Client C}.
Implicit Types p q : Pool C.

Lemma perform_keeps_drained (a : Action) :
  serves_only a = true -> keeps (@drained C) (perform a).
Proof.
  destruct a; cbn [perform serves_only]; intros Ha; try discriminate;
    drained_go.
Qed.

End Fifo.

Section Dispatch.
Context {C : Type} `{Client C}.
Implicit Types p q : Pool C.

Lemma dispatch_at_capacity p o h :
  accepting p = true ->
  at_capacity p = true ->
  dispatch o h p
  = (Normal tt,
     set_kPending (kPending p + 1)
       (set_kQueue (kQueue p ++ [mkItem o h]) (set_kNeedDrain true p))).
Proof.
  unfold accepting, at_capacity. intros Hacc Hcap.
  apply andb_true_iff in Hacc as [Hd Hc].
  apply negb_true_iff in Hd.
  destruct (kClosedPromise p) eqn:Hcp; [discriminate|].
  destruct (find_not_busy 0 (kClients p)) eqn:Hfind; [discriminate|].
  apply negb_true_iff in Hcap.
  unfold dispatch, try_catch, dispatch_try, check_open, pick_client, enqueue.
  eff. cbn. rewrite Hd. cbn. rewrite Hcp. cbn. rewrite Hfind, Hcap. reflexivity.
Qed.






End Dispatch.

Section Errors.
Context {C : Type} `{Client C}.
Implicit Types p q : Pool C.

Lemma dispatch_try_destroyed p o h :
  kDestroyed p = true ->
  dispatch_try o h p = (Throw ClientDestroyedError, p).
Proof.
  intros Hd. unfold dispatch_try, check_open. eff. cbn.
  rewrite Hd. reflexivity.
Qed.

Lemma dispatch_try_closed p o h :
  kDestroyed p = false ->
  closed p = true ->
  dispatch_try o h p = (Throw ClientClosedError, p).
Proof.
  unfold closed. intros Hd Hc.
  destruct (kClosedPromise p) eqn:Hcp; [|discriminate].
  unfold dispatch_try, check_open. eff. cbn.
  rewrite Hd. cbn. rewrite Hcp. reflexivity.
Qed.

(** C5, as the code has it: [dispatch] throws only for a handler that
    has no [onError] function, or whose [onError] itself throws, and in
    that case it throws what [onError] threw; when the [try] block does
    not fail [dispatch] returns; with a handler that has the function,
    every failure of the [try] block, among them the destroyed and the
    closed pool, is reported by one call of [handler.onError], after
    which [dispatch] returns if that call returned. *)
Theorem dispatch_throws_only_for_handler_fault p o h :
  (forall e,
      fst (dispatch o h p) = Throw e ->
      has_onError h = false \/ exists hid, h = HandlerThrowing hid e)
  /\ (forall pt,
        dispatch_try o h p = (Normal tt, pt) ->
        dispatch o h p = (Normal tt, pt))
  /\ (forall hid,
        h = HandlerObject hid true ->
        fst (dispatch o h p) = Normal tt
        /\ (forall err pt,
              dispatch_try o h p = (Throw err, pt) ->
              snd (dispatch o h p)
              = set_trace (trace pt ++ [OnError hid err]) pt)
        /\ (kDestroyed p = true ->
            snd (dispatch o h p)
            = set_trace (trace p ++ [OnError hid ClientDestroyedError]) p)
        /\ (kDestroyed p = false ->
            closed p = true ->
            snd (dispatch o h p)
            = set_trace (trace p ++ [OnError hid ClientClosedError]) p))
  /\ (forall hid thrown err pt,
        h = HandlerThrowing hid thrown ->
        dispatch_try o h p = (Throw err, pt) ->
        dispatch o h p
        = (Throw thrown, set_trace (trace pt ++ [OnError hid err]) pt)).
Proof.
  split; [|split; [|split]].
  - intros e. unfold dispatch, try_catch.
    destruct (dispatch_try o h p) as [[[]|err] pt]; cbn; [discriminate|].
    destruct h as [|hid [|]|hid thrown]; cbn; auto; try discriminate.
    intros [= <-]. right. exists hid. reflexivity.
  - intros pt Htry. unfold dispatch, try_catch. rewrite Htry. reflexivity.
  - intros hid ->.
    assert (Hcatch : forall err pt,
               dispatch_try o (HandlerObject hid true) p = (Throw err, pt) ->
               dispatch o (HandlerObject hid true) p
               = (Normal tt, set_trace (trace pt ++ [OnError hid err]) pt)).
    { intros err pt Htry. unfold dispatch, try_catch. rewrite Htry.
      reflexivity. }
    split; [|split; [|split]].
    + unfold dispatch, try_catch.
      destruct (dispatch_try o (HandlerObject hid true) p)
        as [[[]|err] pt]; reflexivity.
    + intros err pt Htry. rewrite (Hcatch _ _ Htry). reflexivity.
    + intros Hd. rewrite (Hcatch _ _ (dispatch_try_destroyed p o _ Hd)).
      reflexivity.
    + intros Hd Hc. rewrite (Hcatch _ _ (dispatch_try_closed p o _ Hd Hc)).
      reflexivity.
  - intros hid thrown err pt -> Htry. unfold dispatch, try_catch.
    rewrite Htry. reflexivity.
Qed.
End Errors.

Section Closing.
Context {C : Type} `{Client C}.
Implicit Types p q : Pool C.

Lemma close_destroyed p :
  kDestroyed p = true ->
  close None p
  = (Normal (Some (length (promises p))),
     set_promises (promises p ++ [PromiseReject ClientDestroyedError]) p)
  /\ forall f,
      close (Some f) p
      = (Normal None,
         set_trace (trace p ++ [Callback f (Some ClientDestroyedError)]) p).
Proof.
  intros Hd. unfold close, close_try, close_catch. eff. cbn.
  rewrite Hd. cbn. split; reflexivity.
Qed.

Lemma close_again p r :
  kDestroyed p = false ->
  kClosedPromise p = Some r ->
  close None p = (Normal (Some r), p)
  /\ forall f,
      close (Some f) p
      = (Normal None,
         set_promises (promises p ++ [PromiseThen r (CallCallback f)]) p).
Proof.
  intros Hd Hc. unfold close, close_try, close_catch. eff. cbn.
  rewrite Hd. cbn. rewrite Hc. cbn. rewrite Hc. split; reflexivity.
Qed.

Lemma close_first p cb :
  kDestroyed p = false ->
  kClosedPromise p = None ->
  kClosedPromise (snd (close cb p)) = Some (S (length (promises p)))
  /\ kDestroyed (snd (close cb p)) = false
  /\ (cb = None -> fst (close cb p) = Normal (Some (S (length (promises p))))).
Proof.
  intros Hd Hc. unfold close, close_try, close_catch, close_all. eff. cbn.
  rewrite Hd. cbn. rewrite Hc. cbn.
  destruct (kQueue p); cbn; rewrite ?length_app, ?Nat.add_1_r;
    destruct cb; cbn; rewrite ?Hd; auto; repeat split; auto; discriminate.
Qed.

Lemma after_kClosedPromise (a : Action) p r :
  kClosedPromise p = Some r -> kClosedPromise (after a p) = Some r.
Proof.
  intros Hc. destruct (is_close a) eqn:Ha.
  - destruct a; try discriminate. unfold after. cbn [perform].
    unfold forget. destruct (kDestroyed p) eqn:Hd.
    + destruct (close_destroyed p Hd) as [Hn Hs].
      destruct cb as [f|]; [rewrite Hs | rewrite Hn]; exact Hc.
    + destruct (close_again p r Hd Hc) as [Hn Hs].
      destruct cb as [f|]; [rewrite Hs | rewrite Hn]; exact Hc.
  - rewrite <- Hc. apply (perform_keeps_kClosedPromise a Ha).
Qed.

Lemma run_kClosedPromise acts : forall p r,
  kClosedPromise p = Some r -> kClosedPromise (run acts p) = Some r.
Proof.
  induction acts as [|a acts IH]; intros p r Hc; cbn; [exact Hc|].
  apply IH. destruct (enabled a p); [apply after_kClosedPromise|]; exact Hc.
Qed.

Lemma after_closed (a : Action) p :
  closed (after a p) = closed p || (is_close a && negb (kDestroyed p)).
Proof.
  destruct (is_close a) eqn:Ha; cbn.
  - destruct a; try discriminate. unfold after. cbn [perform]. unfold forget.
    destruct (kDestroyed p) eqn:Hd; cbn.
    + rewrite orb_false_r. destruct (close_destroyed p Hd) as [Hn Hs].
      destruct cb as [f|]; [rewrite Hs | rewrite Hn]; reflexivity.
    + unfold closed at 2. destruct (kClosedPromise p) as [r|] eqn:Hc; cbn.
      * destruct (close_again p r Hd Hc) as [Hn Hs].
        destruct cb as [f|]; [rewrite Hs | rewrite Hn]; cbn;
          unfold closed; cbn; rewrite Hc; reflexivity.
      * destruct (close_first p cb Hd Hc) as (Hc' & _).
        destruct (close cb p) as [[x|e] p']; cbn in *;
          unfold closed; rewrite Hc'; reflexivity.
  - rewrite orb_false_r. unfold closed, after.
    pose proof (perform_keeps_kClosedPromise a Ha p) as Hk.
    unfold same in Hk. rewrite Hk. reflexivity.
Qed.

Lemma run_closed acts : forall p,
  closed (run acts p) = closed p || close_called_alive acts p.
Proof.
  induction acts as [|a acts IH]; intros p; cbn [run close_called_alive].
  - rewrite orb_false_r. reflexivity.
  - rewrite IH. destruct (enabled a p) eqn:Hen.
    + rewrite after_closed. rewrite orb_assoc. reflexivity.
    + destruct a; cbn in Hen; try discriminate; cbn; reflexivity.
Qed.

Lemma destroy_kDestroyed err cb p :
  kDestroyed (after (CallDestroy err cb) p) = true.
Proof.
  unfold after. cbn [perform]. unfold forget, destroy, bind at 1, modify at 1.
  match goal with
  | |- context [bind ?m ?k ?q] =>
      assert (Hk : keeps (upward (@kDestroyed C)) (bind m k))
        by keeps_go;
      specialize (Hk q eq_refl);
      destruct (bind m k q) as [[x|e] p']
  end; exact Hk.
Qed.

Lemma close_called_alive_destroyed acts : forall p,
  kDestroyed p = true -> close_called_alive acts p = false.
Proof.
  induction acts as [|a acts IH]; intros p Hd; cbn; [reflexivity|].
  rewrite Hd, andb_false_r. cbn. apply IH.
  destruct (enabled a p); [apply after_kDestroyed|]; exact Hd.
Qed.

(** C10: [closed] is true exactly when a close completion signal
    exists, and one exists exactly when [close] was called at a moment
    when it makes one, the pool being not destroyed; [destroy] leaves
    [closed] as it was, and after [destroy] on a pool that is not closed
    [destroyed] is true and [closed] stays false whatever is called. *)
Theorem closed_iff_close_called_alive p acts err cb :
  closed p = false ->
  (closed (run acts p) = true
   <-> exists r, kClosedPromise (run acts p) = Some r)
  /\ closed (run acts p) = close_called_alive acts p
  /\ closed (after (CallDestroy err cb) p) = false
  /\ destroyed (run acts (after (CallDestroy err cb) p)) = true
  /\ closed (run acts (after (CallDestroy err cb) p)) = false.
Proof.
  intros Hc.
  assert (Hd := destroy_kDestroyed err cb p).
  assert (Hc' : closed (after (CallDestroy err cb) p) = false).
  { rewrite after_closed, Hc. reflexivity. }
  split.
  { unfold closed. destruct (kClosedPromise (run acts p)) as [r|].
    - split; [eauto|reflexivity].
    - split; [discriminate|]. intros [r Hr]. discriminate. }
  split; [rewrite run_closed, Hc; reflexivity|].
  split; [exact Hc'|]. split.
  - unfold destroyed. apply run_kDestroyed. exact Hd.
  - rewrite run_closed, Hc'. cbn.
    apply close_called_alive_destroyed. exact Hd.
Qed.

(** C4, as the code has it: a session notification with a ticket that is
    truthy (any [Buffer], even an empty one) overwrites the cache with
    that ticket and changes nothing else; a [null] or [undefined] ticket
    changes nothing. *)
Theorem session_cache_overwritten_by_truthy_ticket c s p :
  after (NotifySession c s) p
  = if session_truthy s then set_kTLSSession s p else p.
Proof.
  unfold after. cbn [perform]. unfold cacheClientTLSSession.
  destruct (session_truthy s); reflexivity.
Qed.
End Closing.

Section Unbounded.
Context {C : Type} `{Client C}.
Variable parseOrigin : string -> Completion Url.
Implicit Types p q : Pool C.

Lemma find_not_busy_spec cs : forall from c,
  find_not_busy from cs = Some c ->
  exists s : Slot C,
    (from <= c)%nat
    /\ nth_error cs (c - from) = Some s
    /\ client_busy (conn s) = false.
Proof.
  induction cs as [|s cs IH]; intros from c; cbn; [discriminate|].
  destruct (client_busy (conn s)) eqn:Hb; cbn.
  - intros Hf. destruct (IH _ _ Hf) as (s' & Hle & Hn & Hb').
    exists s'. split; [lia|]. split; [|exact Hb'].
    replace (c - from)%nat with (S (c - S from)) by lia. exact Hn.
  - intros [= <-]. exists s. rewrite Nat.sub_diag. auto.
Qed.

Lemma create_client_spec p :
  match create_client p with
  | (Normal c, q) =>
      c = length (kClients p)
      /\ (exists st,
            kClients q
            = kClients p
              ++ [mkSlot st
                    ([EvDrain; EvConnect; EvDisconnect]
                     ++ (if caller_allows_session_events (kOptions p)
                            && negb (session_truthy (kTLSSession p))
                         then [EvSession] else []))])
      /\ trace q = trace p
      /\ kQueue q = kQueue p
      /\ kPending q = kPending p
  | (Throw e, q) => trace q = trace p /\ kClients q = kClients p
  end.
Proof.
  unfold create_client, addCachedSessionToTLSOptions,
    caller_allows_session_events, listens_to_session.
  eff. cbn.
  destruct (tls (kOptions p)) as [t|]; cbn.
  - destruct (reuse_disabled t) eqn:Hr; cbn.
    + destruct (newClient _ _); cbn; rewrite ?Hr; cbn; eauto 7.
    + destruct (session_truthy (session t)) eqn:Hs; cbn.
      * destruct (newClient _ _); cbn; rewrite ?Hr, ?Hs; cbn; eauto 7.
      * destruct (session_truthy (kTLSSession p)) eqn:Hk; cbn.
        -- destruct (newClient _ _); cbn; rewrite ?Hr, ?Hk, ?andb_false_r; cbn; eauto 7.
        -- destruct (newClient _ _); cbn; rewrite ?Hr, ?Hs; cbn; eauto 7.
  - destruct (session_truthy (kTLSSession p)) eqn:Hk; cbn.
    + destruct (newClient _ _); cbn; rewrite ?Hk; cbn; eauto 7.
    + destruct (newClient _ _); cbn; eauto 7.
Qed.

Lemma keeps_same_eq {X A} (f : Pool C -> X) (m : Eff C A) p r q :
  keeps (same f) m -> m p = (r, q) -> f q = f p.
Proof. intros Hm Hp. specialize (Hm p). rewrite Hp in Hm. exact Hm. Qed.

Lemma pick_client_unbounded p :
  kConnections p = None ->
  pick_client p
  = match find_not_busy 0 (kClients p) with
    | Some c => (Normal (Some c), p)
    | None => bind create_client (fun c => ret (Some c)) p
    end.
Proof.
  intros Hk. unfold pick_client. eff. cbn. rewrite Hk. cbn.
  destruct (find_not_busy 0 (kClients p)); reflexivity.
Qed.

(** With no limit, [pick_client] yields a connection or fails to make
    one; the connection yielded is in the list. *)
Lemma pick_client_unbounded_result p :
  kConnections p = None ->
  match pick_client p with
  | (Normal None, _) => False
  | (Normal (Some c), q) =>
      trace q = trace p
      /\ (exists s, nth_error (kClients q) c = Some s)
  | (Throw _, q) =>
      trace q = trace p /\ find_not_busy 0 (kClients p) = None
  end.
Proof.
  intros Hk. rewrite (pick_client_unbounded p Hk).
  destruct (find_not_busy 0 (kClients p)) as [c|] eqn:Hf.
  - destruct (find_not_busy_spec _ _ _ Hf) as (s & _ & Hn & _).
    rewrite Nat.sub_0_r in Hn. eauto.
  - unfold bind. pose proof (create_client_spec p) as Hc.
    destruct (create_client p) as [[c|e] q]; cbn.
    + destruct Hc as (-> & (st & Hcs) & Ht & _). split; [exact Ht|].
      rewrite Hcs, nth_error_app2, Nat.sub_diag by lia. cbn. eauto.
    + destruct Hc as (Ht & _). auto.
Qed.

Lemma hand_over_trace c it p s :
  nth_error (kClients p) c = Some s ->
  handed_over (trace (snd (hand_over c it p)))
  = handed_over (trace p) ++ [it].
Proof.
  intros Hs. unfold hand_over, dispatch_to. eff. rewrite Hs.
  destruct (client_dispatch (opts it) (handler it) (conn s)) as [[[]|e] st];
    cbn.
  - destruct (this_busy c _ && busy _); cbn;
      rewrite handed_over_app; reflexivity.
  - rewrite handed_over_app; reflexivity.
Qed.

Lemma dispatch_catch_frame h e p :
  kQueue (snd (dispatch_catch h e p)) = kQueue p
  /\ kPending (snd (dispatch_catch h e p)) = kPending p
  /\ handed_over (trace (snd (dispatch_catch h e p))) = handed_over (trace p).
Proof.
  destruct h as [|hid [|]|hid thrown]; cbn; rewrite ?handed_over_app, ?app_nil_r; auto.
Qed.

Lemma dispatch_unbounded p o h :
  kConnections p = None ->
  queue_and_count (snd (dispatch o h p)) = queue_and_count p
  /\ (accepting p = true ->
      is_throw (fst (pick_client p)) = false ->
      handed_over (trace (snd (dispatch o h p)))
      = handed_over (trace p) ++ [mkItem o h]).
Proof.
  intros Hk.
  assert (Hopen : keeps (same queue_and_count) (@check_open C)) by keeps_go.
  assert (Hpick : keeps (same queue_and_count) pick_client) by keeps_go.
  assert (Hhand : forall c it, keeps (same queue_and_count) (hand_over c it))
    by (intros; keeps_go).
  assert (Hconn : keeps (same (@kConnections C)) check_open) by keeps_go.
  split.
  - unfold dispatch, try_catch, dispatch_try, bind.
    destruct (check_open p) as [[[]|e] p1] eqn:E1.
    + pose proof (keeps_same_eq _ _ _ _ _ Hopen E1) as Hq1.
      pose proof (keeps_same_eq _ _ _ _ _ Hconn E1) as Hk1.
      rewrite Hk in Hk1.
      pose proof (pick_client_unbounded_result p1 Hk1) as Hres.
      destruct (pick_client p1) as [[[c|]|e] p2] eqn:E2; [| contradiction |].
      * pose proof (keeps_same_eq _ _ _ _ _ Hpick E2) as Hq2.
        pose proof (Hhand c (mkItem o h) p2) as Hq3.
        destruct (hand_over c (mkItem o h) p2) as [[[]|e] p3]; cbn in *.
        -- congruence.
        -- unfold queue_and_count in *.
           destruct (dispatch_catch_frame h e p3) as (-> & -> & _).
           congruence.
      * pose proof (keeps_same_eq _ _ _ _ _ Hpick E2) as Hq2.
        unfold queue_and_count in *.
        destruct (dispatch_catch_frame h e p2) as (-> & -> & _).
        congruence.
    + pose proof (keeps_same_eq _ _ _ _ _ Hopen E1) as Hq1.
      unfold queue_and_count in *.
      destruct (dispatch_catch_frame h e p1) as (-> & -> & _).
      congruence.
  - unfold accepting. intros Hacc Hpc.
    apply andb_true_iff in Hacc as [Hd Hc].
    apply negb_true_iff in Hd.
    destruct (kClosedPromise p) eqn:Hcp; [discriminate|].
    assert (Hco : check_open p = (Normal tt, p)).
    { unfold check_open. eff. cbn. rewrite Hd. cbn. rewrite Hcp. reflexivity. }
    unfold dispatch, try_catch, dispatch_try, bind. rewrite Hco.
    pose proof (pick_client_unbounded_result p Hk) as Hres.
    destruct (pick_client p) as [[[c|]|e] p2]; cbn in Hpc;
      [| contradiction | discriminate].
    destruct Hres as (Ht & s & Hs).
    pose proof (hand_over_trace c (mkItem o h) p2 s Hs) as Hho.
    destruct (hand_over c (mkItem o h) p2) as [[[]|e] p3]; cbn in *.
    + rewrite Hho, Ht. reflexivity.
    + destruct (dispatch_catch_frame h e p3) as (_ & _ & ->).
      rewrite Hho, Ht. reflexivity.
Qed.
End Unbounded.

Section Destroy.
Context {C : Type} `{Client C}.
Implicit Types p q : Pool C.

(** [destroy] when every queued handler can take the error. *)
Lemma destroy_all_failable err cb p :
  failable (kQueue p) = length (kQueue p) ->
  let e := destroy_error err in
  let all := length (promises p) in
  destroy err cb p
  = (Normal (match destroy_callback err cb with
             | Some _ => None
             | None => Some all
             end),
     set_promises
       (promises p
        ++ PromiseAll (length (kClients p))
           :: match destroy_callback err cb with
              | Some f => [PromiseThen all (CallCallback f)]
              | None => []
              end)
       (set_trace
          (trace p ++ fail_each e (kQueue p)
           ++ call_each (fun c => ClientDestroy c e) 0 (kClients p))
          (set_kClients (map_conn (client_destroy e) (kClients p))
             (set_kQueue [] (set_kDestroyed true p))))).
Proof.
  intros Hall e all. unfold destroy, destroy_all.
  fold (destroy_error err). fold (destroy_callback err cb). fold e.
  unfold bind at 1, modify at 1. unfold bind at 1.
  rewrite destroy_loop_spec by reflexivity.
  cbn [kQueue set_kDestroyed]. rewrite Hall, Nat.eqb_refl.
  rewrite firstn_all2, skipn_all2 by lia.
  eff. cbn.
  destruct (destroy_callback err cb) as [f|]; cbn; f_equal; pool_ext;
    rewrite <- ?app_assoc; cbn; reflexivity.
Qed.

(** [destroy] when some queued handler cannot: it throws at the first
    such entry, which is taken off the queue as the ones before it; that
    entry's [onError] was called if it has one. *)
Lemma destroy_throws err cb p :
  failable (kQueue p) <> length (kQueue p) ->
  destroy err cb p
  = (Throw (stopping_error (kQueue p)),
     set_trace
       (trace p
        ++ fail_each (destroy_error err)
             (firstn (S (failable (kQueue p))) (kQueue p)))
       (set_kQueue (skipn (S (failable (kQueue p))) (kQueue p))
          (set_kDestroyed true p))).
Proof.
  intros Hsome. unfold destroy.
  fold (destroy_error err). fold (destroy_callback err cb).
  unfold bind at 1, modify at 1. unfold bind at 1.
  rewrite destroy_loop_spec by reflexivity.
  cbn [kQueue set_kDestroyed].
  apply Nat.eqb_neq in Hsome. rewrite Hsome. reflexivity.
Qed.

Lemma destroy_queue err cb p :
  kQueue (snd (destroy err cb p))
  = skipn (S (failable (kQueue p))) (kQueue p)
  /\ kPending (snd (destroy err cb p)) = kPending p.
Proof.
  destruct (Nat.eq_dec (failable (kQueue p)) (length (kQueue p))) as [He|Hn].
  - rewrite (destroy_all_failable err cb p He).
    rewrite skipn_all2 by lia. cbn. auto.
  - rewrite (destroy_throws err cb p Hn). cbn -[skipn]. auto.
Qed.

(** A whole number up to [2^53] in size is a double. *)
Lemma round_to_double_exact z : Z.abs z <= 2 ^ 53 -> round_to_double z = z.
Proof.
  intros Hz. unfold round_to_double. cbn zeta.
  destruct (Z.leb_spec (Z.abs z) (2 ^ 53)); [reflexivity|lia].
Qed.

Lemma sum_clients_nonneg f (cs : list (Slot C)) :
  counts_up f cs -> 0 <= sum_clients f cs.
Proof.
  unfold counts_up, sum_clients.
  induction cs as [|s cs IH]; intros Hf; cbn [fold_right]; [lia|].
  assert (0 <= f (conn s)) by (apply Hf; left; reflexivity).
  assert (0 <= fold_right (fun s acc => f (conn s) + acc) 0 cs)
    by (apply IH; intros s' Hs'; apply Hf; right; exact Hs').
  lia.
Qed.

(** The loop of a getter adds exactly as long as the sum is a whole
    number that a double holds. *)
Lemma add_each_exact f (cs : list (Slot C)) : forall z,
  0 <= z ->
  counts_up f cs ->
  z + sum_clients f cs <= 2 ^ 53 ->
  add_each f cs z = z + sum_clients f cs.
Proof.
  induction cs as [|s cs IH]; intros z Hz Hf Hsum;
    cbn [add_each sum_clients fold_right] in *; [lia|].
  fold (sum_clients f cs) in *.
  assert (Hs : 0 <= f (conn s)) by (apply Hf; left; reflexivity).
  assert (Hcs : counts_up f cs)
    by (intros s' Hs'; apply Hf; right; exact Hs').
  pose proof (sum_clients_nonneg f cs Hcs) as Hrest.
  unfold js_add. rewrite round_to_double_exact by lia.
  rewrite IH by (auto; lia). lia.
Qed.

(** [pool.pending] less what the connections hold is [pendingCount],
    within the whole numbers that doubles hold. *)
Lemma queued_pending_is_kPending p :
  0 <= kPending p ->
  counts_up client_pending (kClients p) ->
  kPending p + sum_clients client_pending (kClients p) <= 2 ^ 53 ->
  queued_pending p = kPending p.
Proof.
  intros Hp Hf Hsum. unfold queued_pending, pending.
  pose proof (sum_clients_nonneg _ _ Hf) as Hrest.
  rewrite !add_each_exact by (auto; lia). lia.
Qed.

(** [destroy] leaves the queued part of [pool.pending] at what
    [pendingCount] was. *)
Lemma destroy_queued_pending err cb p :
  let q := snd (destroy err cb p) in
  0 <= kPending p ->
  counts_up client_pending (kClients q) ->
  kPending p + sum_clients client_pending (kClients q) <= 2 ^ 53 ->
  queued_pending q = kPending p.
Proof.
  intros q Hp Hf Hsum. destruct (destroy_queue err cb p) as [_ Hk].
  fold q in Hk. rewrite queued_pending_is_kPending; rewrite ?Hk; auto.
Qed.
End Destroy.

Section NoLimit.
Context {C : Type} `{Client C}.
Variable parseOrigin : string -> Completion Url.
Implicit Types p q : Pool C.

Lemma after_unbounded_empty (a : Action) p :
  kConnections p = None ->
  queue_and_count p = ([], 0) ->
  queue_and_count (after a p) = ([], 0).
Proof.
  intros Hk Hq. destruct (serves_only a) eqn:Ha.
  - destruct (perform_keeps_drained a Ha p) as (n & Hn & Hq' & Hp' & _).
    unfold queue_and_count in *. injection Hq as Hq Hp.
    fold (after a p) in Hq', Hp'. rewrite Hq', Hp', Hq, Hp in *.
    cbn in Hn. assert (n = 0%nat) as -> by lia. reflexivity.
  - destruct a; try discriminate; unfold after; cbn [perform].
    + rewrite <- Hq. apply dispatch_unbounded. exact Hk.
    + unfold forget. destruct (destroy_queue err cb p) as [Hq' Hp'].
      unfold queue_and_count in *. injection Hq as Hq Hp.
      destruct (destroy err cb p) as [[x|e] p']; cbn in *;
        rewrite Hq', Hp', Hq, Hp; reflexivity.
Qed.

Lemma run_unbounded_empty acts : forall p,
  kConnections p = None ->
  queue_and_count p = ([], 0) ->
  queue_and_count (run acts p) = ([], 0).
Proof.
  induction acts as [|a acts IH]; intros p Hk Hq; cbn; [exact Hq|].
  destruct (enabled a p); [|auto].
  apply IH; [rewrite after_kConnections; exact Hk|].
  apply after_unbounded_empty; assumption.
Qed.
End NoLimit.

Section Count.
Context {C : Type} `{Client C}.
Implicit Types p q : Pool C.

Lemma keeps_count_enqueue it :
  keeps (steady (@pending_is_queue_length C)) (enqueue it).
Proof.
  intros p. unfold steady, pending_is_queue_length. cbn.
  rewrite length_app. cbn. lia.
Qed.

Lemma keeps_count_onDrain_loop this :
  keeps (steady (@pending_is_queue_length C))
    (fun p => onDrain_loop this (kQueue p) p).
Proof.
  intros p.
  destruct (onDrain_loop_spec this (kQueue p) p eq_refl)
    as (n & cs' & Hn & _ & Hs & _).
  rewrite Hs. unfold steady, pending_is_queue_length. cbn.
  rewrite length_skipn. lia.
Qed.
End Count.

Ltac count_leaf :=
  idtac;
  match goal with
  | |- keeps _ (enqueue _) => apply keeps_count_enqueue
  | |- keeps _ (fun p => onDrain_loop _ (kQueue p) p) =>
      apply keeps_count_onDrain_loop
  | |- keeps _ (modify _) =>
      apply keeps_modify; class_goal; intros;
      repeat match goal with
        | |- context [match ?x with _ => _ end] => destruct x
        end;
      unfold steady, pending_is_queue_length; cbn; auto
  | |- keeps _ (new_promise _) =>
      intros ?; unfold steady, pending_is_queue_length; cbn; auto
  | |- keeps _ (dispatch_to _ _) =>
      apply keeps_dispatch_to; class_goal; intros;
      unfold steady, pending_is_queue_length; cbn; auto
  end.

Ltac count_go := repeat keeps_step count_leaf.

Section CountHistories.
Context {C : Type} `{Client C}.
Implicit Types p q : Pool C.

(** Every action but [destroy] keeps [pendingCount == queue.length]. *)
Lemma perform_keeps_pending_count (a : Action) :
  is_destroy a = false ->
  keeps (steady (@pending_is_queue_length C)) (perform a).
Proof.
  destruct a; cbn [perform is_destroy]; intros Ha; try discriminate;
    count_go.
Qed.

(** [destroy] keeps it exactly when the queue was empty. *)
Lemma destroy_pending_count err cb p :
  pending_is_queue_length p ->
  pending_is_queue_length (after (CallDestroy err cb) p)
  <-> kQueue p = [].
Proof.
  unfold pending_is_queue_length, after. cbn [perform]. unfold forget.
  destruct (destroy_queue err cb p) as [Hq Hp]. intros Hcount.
  destruct (destroy err cb p) as [[x|e] p']; cbn [snd] in *;
    rewrite Hq, Hp, length_skipn;
    destruct (kQueue p); cbn [length] in *;
    (split; intros; [try reflexivity; lia | try discriminate; lia]).
Qed.

(** So it holds in every state reached without [destroy]. *)
Lemma run_keeps_pending_count acts : forall p,
  forallb (fun a => negb (is_destroy a)) acts = true ->
  pending_is_queue_length p ->
  pending_is_queue_length (run acts p).
Proof.
  induction acts as [|a acts IH]; intros p Hacts Hp; cbn in *; [exact Hp|].
  apply andb_true_iff in Hacts as [Ha Hacts].
  apply negb_true_iff in Ha.
  apply IH; [exact Hacts|].
  destruct (enabled a p); [|exact Hp].
  apply (perform_keeps_pending_count a Ha p Hp).
Qed.
End CountHistories.

(** ** The promise store stays in order *)

Section StoreFacts.
Context {C : Type} `{Client C}.
Implicit Types p q : Pool C.

Lemma cell_stable p q extra i c :
  promises q = promises p ++ extra ->
  cell p i = Some c -> cell q i = Some c.
Proof.
  unfold cell. intros -> Hc.
  rewrite nth_error_app1; [exact Hc|].
  apply nth_error_Some. congruence.
Qed.

Lemma store_ok_extend p q extra :
  store_ok p ->
  promises q = promises p ++ extra ->
  fulfilled q = fulfilled p ->
  (kDestroyed p = true -> kDestroyed q = true) ->
  (forall i src a,
      nth_error extra i = Some (PromiseThen src (ResolveClosed a)) ->
      cell q a = Some PromiseNew) ->
  (forall a,
      kClosedResolve q = Some a ->
      kClosedResolve p = Some a \/ cell q a = Some PromiseNew) ->
  (forall r,
      kClosedPromise q = Some r ->
      kClosedPromise p = Some r
      \/ ((length (promises p) <= r)%nat
          /\ exists src, cell q r = Some (PromiseThen src SetDestroyed))) ->
  store_ok q.
Proof.
  intros (Ha & Hb & Hc & Hd) Hp Hf Hdes Hnew Hres Hcl.
  split; [|split; [|split]].
  - intros x Hx. rewrite Hf in Hx. apply Ha in Hx.
    rewrite Hp, length_app. lia.
  - intros i src a Hi.
    destruct (Nat.lt_ge_cases i (length (promises p))) as [Hlt|Hge].
    + unfold cell in Hi. rewrite Hp, nth_error_app1 in Hi by exact Hlt.
      eapply cell_stable; [exact Hp|]. eapply Hb. exact Hi.
    + unfold cell in Hi. rewrite Hp, nth_error_app2 in Hi by exact Hge.
      eapply Hnew. exact Hi.
  - intros a Hq. destruct (Hres a Hq) as [Hold|Hnw]; [|exact Hnw].
    eapply cell_stable; [exact Hp|]. apply Hc. exact Hold.
  - intros r Hq. destruct (Hcl r Hq) as [Hold|(Hge & src & Hsrc)].
    + destruct (Hd r Hold) as ((src & Hsrc) & Hful). split.
      * exists src. eapply cell_stable; [exact Hp | exact Hsrc].
      * rewrite Hf. auto.
    + split; [eauto|]. rewrite Hf. intros Hin. apply Ha in Hin. lia.
Qed.

Lemma store_ok_view p q :
  store_view q = store_view p -> store_ok p -> store_ok q.
Proof.
  unfold store_view. intros [= Hp Hf Hcp Hcr Hd] Hok.
  apply (store_ok_extend p q [] Hok).
  - rewrite app_nil_r. exact Hp.
  - exact Hf.
  - congruence.
  - intros i src a Hi. destruct i; discriminate.
  - intros a Ha. left. congruence.
  - intros r Hr. left. congruence.
Qed.

Lemma keeps_store_of_view {A} (m : Eff C A) :
  keeps (same (@store_view C)) m -> keeps (steady (@store_ok C)) m.
Proof. intros Hm p Hok. eapply store_ok_view; [apply Hm | exact Hok]. Qed.

Lemma store_ok_destroyed p : store_ok p -> store_ok (set_kDestroyed true p).
Proof.
  intros Hok. apply (store_ok_extend p _ [] Hok); cbn; auto.
  - rewrite app_nil_r. reflexivity.
  - intros i src a Hi. destruct i; discriminate.
Qed.

Lemma keeps_store_new_promise c :
  resolves_nothing c = true ->
  keeps (steady (@store_ok C)) (new_promise c).
Proof.
  intros Hc p Hok. apply (store_ok_extend p _ [c] Hok); cbn; auto.
  intros [|[|i]] src a Hi; cbn in Hi; try discriminate.
  injection Hi as ->. discriminate.
Qed.
End StoreFacts.

Ltac store_leaf :=
  idtac;
  match goal with
  | |- keeps _ (modify (set_kDestroyed true)) =>
      apply keeps_modify; class_goal; intros ?; unfold steady;
      apply store_ok_destroyed
  | |- keeps _ (new_promise _) => apply keeps_store_new_promise; reflexivity
  | |- keeps _ (modify _) => apply keeps_store_of_view; keeps_go
  | |- keeps _ (dispatch_to _ _) => apply keeps_store_of_view; keeps_go
  | |- keeps _ (fun p => onDrain_loop _ (kQueue p) p) =>
      apply keeps_store_of_view; keeps_go
  | |- keeps _ (fun p => destroy_loop (kQueue p) _ p) =>
      apply keeps_store_of_view; keeps_go
  end.

Ltac store_go := repeat keeps_step store_leaf.

Section StoreHistories.
Context {C : Type} `{Client C}.
Variable parseOrigin : string -> Completion Url.
Implicit Types p q : Pool C.

Lemma keeps_store_close_all : keeps (steady (@store_ok C)) close_all.
Proof. store_go. Qed.

Lemma nth_error_after {A} (l extra : list A) i :
  nth_error (l ++ extra) (length l + i) = nth_error extra i.
Proof.
  rewrite nth_error_app2 by lia. f_equal. lia.
Qed.

Lemma nth_error_after0 {A} (l extra : list A) :
  nth_error (l ++ extra) (length l) = nth_error extra 0.
Proof. rewrite <- (nth_error_after l extra 0). f_equal. lia. Qed.

Ltac no_resolver :=
  let Hi := fresh in
  intros [|[|[|[|?]]]] ? ? Hi; cbn in Hi; discriminate.

Ltac new_cell :=
  unfold cell; cbn; rewrite <- ?app_assoc, ?length_app; cbn;
  first [ rewrite nth_error_after; reflexivity
        | rewrite nth_error_after0; reflexivity ].

Lemma keeps_store_close_try cb : keeps (steady (@store_ok C)) (close_try cb).
Proof.
  intros p Hok. unfold close_try, close_all. eff. cbn.
  destruct (kDestroyed p) eqn:Hd; cbn; [exact Hok|].
  destruct (kClosedPromise p) as [r|] eqn:Hc; cbn.
  - rewrite Hc. destruct cb as [f|]; cbn; [|exact Hok].
    apply (store_ok_extend p _ [PromiseThen r (CallCallback f)] Hok);
      cbn; auto.
    no_resolver.
  - destruct (kQueue p) as [|item rest]; cbn.
    + set (all := PromiseAll (length (kClients p))).
      set (thn := PromiseThen (length (promises p)) SetDestroyed).
      destruct cb as [f|]; cbn.
      * apply (store_ok_extend p _
                 [all; thn;
                  PromiseThen (length (promises p ++ [all])) (CallCallback f)]
                 Hok); cbn; rewrite <- ?app_assoc; auto.
        -- no_resolver.
        -- intros r [= <-]. right. rewrite length_app. cbn.
           split; [lia|]. exists (length (promises p)). new_cell.
      * apply (store_ok_extend p _ [all; thn] Hok);
          cbn; rewrite <- ?app_assoc; auto.
        -- no_resolver.
        -- intros r [= <-]. right. rewrite length_app. cbn.
           split; [lia|]. exists (length (promises p)). new_cell.
    + set (thn := PromiseThen (length (promises p)) SetDestroyed).
      destruct cb as [f|]; cbn.
      * apply (store_ok_extend p _
                 [PromiseNew; thn;
                  PromiseThen (length (promises p ++ [PromiseNew]))
                    (CallCallback f)] Hok); cbn; rewrite <- ?app_assoc; auto.
        -- no_resolver.
        -- intros a [= <-]. right. new_cell.
        -- intros r [= <-]. right. rewrite length_app. cbn.
           split; [lia|]. exists (length (promises p)). new_cell.
      * apply (store_ok_extend p _ [PromiseNew; thn] Hok);
          cbn; rewrite <- ?app_assoc; auto.
        -- no_resolver.
        -- intros a [= <-]. right. new_cell.
        -- intros r [= <-]. right. rewrite length_app. cbn.
           split; [lia|]. exists (length (promises p)). new_cell.
Qed.

Lemma keeps_store_resolve_closed :
  keeps (steady (@store_ok C)) resolve_closed.
Proof.
  intros p Hok. unfold resolve_closed, close_all. eff. cbn.
  destruct (kClosedResolve p) as [a|] eqn:Hr; cbn; [|exact Hok].
  destruct (kQueue p); cbn; [|exact Hok].
  apply (store_ok_extend p _
           [PromiseAll (length (kClients p));
            PromiseThen (length (promises p)) (ResolveClosed a)] Hok);
    cbn; rewrite <- ?app_assoc; auto.
  intros [|[|[|i]]] src a' Hi; cbn in Hi; try discriminate.
  injection Hi as _ <-.
  eapply cell_stable; [cbn; reflexivity|].
  destruct Hok as (_ & _ & Hres & _). apply Hres. exact Hr.
Qed.

Lemma store_ok_fulfil p r c :
  store_ok p ->
  cell p r = Some c ->
  (forall src, c = PromiseThen src SetDestroyed -> kDestroyed p = true) ->
  store_ok (set_fulfilled (r :: fulfilled p) p).
Proof.
  intros (Ha & Hb & Hc & Hd) Hr Hset.
  split; [|split; [|split]]; cbn; auto.
  - intros x [<-|Hx]; [|auto].
    apply nth_error_Some. unfold cell in Hr. congruence.
  - intros r' Hr'. destruct (Hd r' Hr') as ((src & Hsrc) & Hful).
    split; [eauto|]. intros [->|Hin]; [|auto].
    apply (Hset src). congruence.
Qed.

Lemma keeps_store_settle_all r : keeps (steady (@store_ok C)) (settle_all r).
Proof.
  intros p Hok. unfold settle_all, fulfil. eff. cbn.
  destruct (nth_error (promises p) r) as [[n| |src k|e]|] eqn:Hr; cbn;
    try exact Hok.
  apply (store_ok_fulfil p r (PromiseAll n) Hok Hr).
  intros src. discriminate.
Qed.

Lemma keeps_store_run_reaction r :
  keeps (steady (@store_ok C)) (run_reaction r).
Proof.
  intros p Hok. unfold run_reaction, react, fulfil. eff. cbn.
  destruct (nth_error (promises p) r) as [[n| |src k|e]|] eqn:Hr; cbn;
    try exact Hok.
  destruct (is_fulfilled src p && negb (is_fulfilled r p)); cbn;
    [|exact Hok].
  destruct k as [|f|a]; cbn.
  - apply (store_ok_fulfil (set_kDestroyed true p) r
             (PromiseThen src SetDestroyed));
      [apply store_ok_destroyed; exact Hok | exact Hr | reflexivity].
  - apply (store_ok_fulfil
             (set_trace (trace p ++ [Callback f None]) p) r
             (PromiseThen src (CallCallback f)));
      [|exact Hr | discriminate].
    apply (store_ok_view p); [reflexivity | exact Hok].
  - assert (Ha : cell p a = Some PromiseNew).
    { destruct Hok as (_ & Hb & _). eapply Hb. exact Hr. }
    apply (store_ok_fulfil (set_fulfilled (a :: fulfilled p) p) r
             (PromiseThen src (ResolveClosed a)));
      [|exact Hr | discriminate].
    apply (store_ok_fulfil p a PromiseNew Hok Ha). discriminate.
Qed.
End StoreHistories.

Ltac store_code_leaf :=
  idtac;
  match goal with
  | |- keeps _ (close_try _) => apply keeps_store_close_try
  | |- keeps _ resolve_closed => apply keeps_store_resolve_closed
  | |- keeps _ (settle_all _) => apply keeps_store_settle_all
  | |- keeps _ (run_reaction _) => apply keeps_store_run_reaction
  | |- _ => store_leaf
  end.

Section StoreReach.
Context {C : Type} `{Client C}.
Variable parseOrigin : string -> Completion Url.
Implicit Types p q : Pool C.

Lemma perform_keeps_store (a : Action) :
  keeps (steady (@store_ok C)) (perform a).
Proof. destruct a; cbn [perform]; repeat keeps_step store_code_leaf. Qed.

Lemma reachable_store_ok p : reachable parseOrigin p -> store_ok p.
Proof.
  induction 1 as [origin connections options p Hnew | a p _ IH _].
  - unfold constructor in Hnew.
    destruct (invalid_connections connections); [discriminate|].
    destruct (parseOrigin origin); [|discriminate].
    injection Hnew as <-.
    split; [|split; [|split]]; cbn; try discriminate; try contradiction.
    intros [|i] src x Hi; discriminate.
  - apply perform_keeps_store. exact IH.
Qed.

(** The promise kept in [kClosedPromise] is not fulfilled as long as the
    pool is not destroyed. *)
Lemma closed_promise_pending p r :
  reachable parseOrigin p ->
  kClosedPromise p = Some r ->
  kDestroyed p = false ->
  is_fulfilled r p = false.
Proof.
  intros Hreach Hc Hd.
  destruct (reachable_store_ok p Hreach) as (_ & _ & _ & Hcl).
  destruct (Hcl r Hc) as [_ Hful].
  unfold is_fulfilled. destruct (existsb _ _) eqn:He; [|reflexivity].
  apply existsb_exists in He as (x & Hin & Hx).
  apply Nat.eqb_eq in Hx. subst x.
  rewrite (Hful Hin) in Hd. discriminate.
Qed.
End StoreReach.

Section CloseTwice.
Context {C : Type} `{Client C}.
Variable parseOrigin : string -> Completion Url.
Implicit Types p q : Pool C.

Lemma snd_forget {A} (m : Eff C A) p : snd (forget m p) = snd (m p).
Proof. unfold forget. destruct (m p) as [[a|e] q]; reflexivity. Qed.

Lemma close_returns_kept_promise p cb :
  kDestroyed p = false ->
  exists r,
    kClosedPromise (snd (close cb p)) = Some r
    /\ (cb = None -> fst (close cb p) = Normal (Some r)).
Proof.
  intros Hd. destruct (kClosedPromise p) as [r|] eqn:Hc.
  - exists r. destruct (close_again p r Hd Hc) as [Hn Hs].
    destruct cb as [f|]; [rewrite Hs | rewrite Hn]; cbn; split; auto.
    discriminate.
  - exists (S (length (promises p))).
    destruct (close_first p cb Hd Hc) as (Hc' & _ & Hr). auto.
Qed.

(** C8: on a pool that is not destroyed, [close] keeps one promise; a
    later [close], for as long as the pool is not destroyed, returns that
    very promise, not yet fulfilled, and changes nothing (with a callback
    it only adds the callback to that promise); after [destroy], [close]
    fails with [ClientDestroyedError], through the callback or through a
    rejected promise. *)
Theorem second_close_returns_same_promise p cb acts f err cb' :
  reachable parseOrigin p ->
  (kDestroyed p = false ->
   exists r,
     kClosedPromise (after (CallClose cb) p) = Some r
     /\ (cb = None -> fst (close cb p) = Normal (Some r))
     /\ let p2 := run acts (after (CallClose cb) p) in
        (kDestroyed p2 = false ->
         is_fulfilled r p2 = false
         /\ close None p2 = (Normal (Some r), p2)
         /\ close (Some f) p2
            = (Normal None,
               set_promises
                 (promises p2 ++ [PromiseThen r (CallCallback f)]) p2)))
  /\ (let p3 := run acts (after (CallDestroy err cb') p) in
      close None p3
      = (Normal (Some (length (promises p3))),
         set_promises (promises p3 ++ [PromiseReject ClientDestroyedError])
           p3)
      /\ close (Some f) p3
         = (Normal None,
            set_trace
              (trace p3 ++ [Callback f (Some ClientDestroyedError)]) p3)).
Proof.
  intros Hreach. split.
  - intros Hd. destruct (close_returns_kept_promise p cb Hd) as (r & Hr & Hret).
    assert (Hafter : after (CallClose cb) p = snd (close cb p))
      by apply snd_forget.
    exists r. rewrite <- Hafter in Hr.
    split; [exact Hr|]. split; [exact Hret|].
    intros p2 Hd2.
    assert (Hc2 : kClosedPromise p2 = Some r)
      by (apply run_kClosedPromise; exact Hr).
    assert (Hreach2 : reachable parseOrigin p2).
    { apply reachable_run. apply reachable_step; [exact Hreach | reflexivity]. }
    split; [exact (closed_promise_pending parseOrigin p2 r Hreach2 Hc2 Hd2)|].
    destruct (close_again p2 r Hd2 Hc2) as [Hn Hs]. auto.
  - intros p3.
    assert (Hd3 : kDestroyed p3 = true).
    { apply run_kDestroyed. apply destroy_kDestroyed. }
    destruct (close_destroyed p3 Hd3) as [Hn Hs]. auto.
Qed.
End CloseTwice.

(** ** The pool at work on [SerialClient]s *)

Lemma newPool_made connections options :
  invalid_connections connections = false ->
  constructor anyOrigin "http://localhost:3000" connections options
  = Normal (newPool connections options).
Proof.
  intros Hc. unfold newPool, constructor. rewrite Hc. reflexivity.
Qed.

Lemma newPool_reachable connections options acts :
  invalid_connections connections = false ->
  reachable anyOrigin (run acts (newPool connections options)).
Proof.
  intros Hc. apply reachable_run.
  eapply reachable_new. apply newPool_made. exact Hc.
Qed.

Lemma poolWithQueue_reachable : reachable anyOrigin poolWithQueue.
Proof. apply newPool_reachable. reflexivity. Qed.

Lemma poolWithSession_reachable : reachable anyOrigin poolWithSession.
Proof. apply newPool_reachable. reflexivity. Qed.

(** C1 (the code differs): [destroy(err)] on a pool with two queued requests
    empties the queue and gives [err] to both handlers, but leaves
    [pendingCount] at 2, so [pool.pending] less the connections' [pending]
    is 2 and not 0. *)
Theorem destroy_leaves_pending_count :
  let err := OtherError 9 in
  let q := snd (destroy (ArgError err) None poolWithQueue) in
  kQueue poolWithQueue = [requestB; requestC]
  /\ fst (destroy (ArgError err) None poolWithQueue) = Normal (Some 0%nat)
  /\ kQueue q = []
  /\ trace q
     = trace poolWithQueue
       ++ [OnError 2 err; OnError 3 err; ClientDestroy 0 err]
  /\ queued_pending q = 2.
Proof. vm_compute. repeat split. Qed.

(** C2 (the code differs): after [destroy()] on a pool with two queued
    requests, a state any caller can observe, [pendingCount] is 2 and the
    queue is empty. *)
Theorem pending_count_differs_after_destroy :
  let q := after (CallDestroy ArgAbsent None) poolWithQueue in
  reachable anyOrigin q
  /\ kPending q = 2
  /\ length (kQueue q) = 0%nat
  /\ (kPending q =? Z.of_nat (length (kQueue q))) = false.
Proof.
  intros q. split; [|split; [|split]].
  - apply reachable_step; [apply poolWithQueue_reachable | reflexivity].
  - reflexivity.
  - reflexivity.
  - reflexivity.
Qed.

(** C3 (the code differs): the caller set no TLS options; the first
    connection is subscribed to session events and reports a session; the
    connection made next gets that session from the cache and is not
    subscribed. *)
Theorem cached_session_blocks_subscription :
  let p := poolWithSession in
  let q := after (dispatchItem requestB) p in
  kOptions p = noOptions
  /\ caller_allows_session_events (kOptions p) = true
  /\ kTLSSession p = SessionBuffer [7%nat]
  /\ length (kClients p) = 1%nat
  /\ length (kClients q) = 2%nat
  /\ listens 0 EvSession q = true
  /\ listens 1 EvSession q = false.
Proof. vm_compute. repeat split. Qed.

(** The same with TLS options that set neither [reuseSessions] nor
    [session]: the cached session is also written into the options the pool
    keeps, where it then stands as if the caller had set it. *)
Lemma cached_session_written_to_kept_options :
  let options := mkOptions (Some (mkTls None SessionUndefined)) EmptyString in
  let p := run [dispatchItem requestA; NotifySession 0 (SessionBuffer [7%nat])]
               (newPool ConnUndefined options) in
  let q := after (dispatchItem requestB) p in
  kOptions p = options
  /\ kOptions q
     = mkOptions (Some (mkTls None (SessionBuffer [7%nat]))) EmptyString
  /\ listens 1 EvSession q = false.
Proof. vm_compute. repeat split. Qed.

(** C4 as stated fails: a [null] ticket from a subscribed connection leaves
    the cached session in place. *)
Lemma null_ticket_keeps_cached_session :
  enabled (NotifySession 0 SessionNull) poolWithSession = true
  /\ kTLSSession (after (NotifySession 0 SessionNull) poolWithSession)
     = SessionBuffer [7%nat]
  /\ kTLSSession (after (NotifySession 0 SessionNull) poolWithSession)
     <> SessionNull.
Proof. vm_compute. repeat split. discriminate. Qed.

(** An empty [Buffer] is truthy and does overwrite the cache. *)
Lemma empty_ticket_overwrites_cached_session :
  kTLSSession (after (NotifySession 0 (SessionBuffer [])) poolWithSession)
  = SessionBuffer [].
Proof. reflexivity. Qed.

(** A [close] call on a destroyed pool fails and makes no completion
    signal: it leaves [closed] false, so [closed] does not tell whether
    [close] was ever called, only whether a completion signal exists. *)
Lemma closed_false_though_close_called :
  let acts := [CallDestroy ArgAbsent None; CallClose None] in
  let p := run acts (newPool ConnUndefined noOptions) in
  ~ (closed p = true <-> close_called acts = true).
Proof.
  intros acts p [_ Hclosed].
  assert (Hcalled : close_called acts = true) by reflexivity.
  apply Hclosed in Hcalled. vm_compute in Hcalled. discriminate.
Qed.

(** C5 as stated fails: the handler has an [onError] function, the pool is
    destroyed, [dispatch] calls [onError] with the error, and what
    [onError] throws leaves [dispatch]. *)
Lemma dispatch_throws_what_onError_throws :
  let p := after (CallDestroy ArgAbsent None) poolWithQueue in
  let h := HandlerThrowing 4 (OtherError 7) in
  has_onError h = true
  /\ kDestroyed p = true
  /\ dispatch "/d"%string h p
     = (Throw (OtherError 7),
        set_trace (trace p ++ [OnError 4 ClientDestroyedError]) p).
Proof. vm_compute. repeat split. Qed.

Lemma strictPoolWithQueue_reachable :
  reachable anyOrigin strictPoolWithQueue.
Proof.
  unfold strictPoolWithQueue.
  destruct (constructor anyOrigin "http://localhost:3000" (ConnFinite 1)
              noOptions) as [p|e] eqn:Hp; [|discriminate].
  apply reachable_run. eapply reachable_new. exact Hp.
Qed.


(** ** The theorems at work *)

Lemma dispatch_throws_only_for_handler_fault_witness :
  let p := after (CallDestroy ArgAbsent None) poolWithQueue in
  kDestroyed p = true
  /\ snd (dispatch "/d"%string (handlerOf 4) p)
     = set_trace (trace p ++ [OnError 4 ClientDestroyedError]) p.
Proof.
  intros p. split; [reflexivity|].
  destruct (dispatch_throws_only_for_handler_fault p "/d"%string (handlerOf 4))
    as (_ & _ & Hreport & _).
  destruct (Hreport 4%nat eq_refl) as (_ & _ & Hdestroyed & _).
  apply Hdestroyed. reflexivity.
Defined.

Lemma busy_matches_spec_witness :
  busy poolWithQueue = busy_spec poolWithQueue
  /\ busy poolWithQueue = true.
Proof.
  split; [|reflexivity].
  apply (busy_matches_spec anyOrigin).
  apply newPool_reachable. reflexivity.
Defined.


Lemma second_close_returns_same_promise_witness :
  let p := poolWithQueue in
  let acts : list (@Action SerialClient) :=
    [ClientProgress 0 []; NotifyDrain 0] in
  kDestroyed p = false
  /\ exists r,
      fst (close None p) = Normal (Some r)
      /\ close None (run acts (after (CallClose None) p))
         = (Normal (Some r), run acts (after (CallClose None) p)).
Proof.
  intros p acts. split; [reflexivity|].
  destruct (second_close_returns_same_promise anyOrigin p None acts 0%nat
              ArgAbsent None poolWithQueue_reachable) as [Hclose _].
  destruct (Hclose eq_refl) as (r & _ & Hret & Hagain).
  exists r. split; [apply Hret; reflexivity|].
  destruct (Hagain eq_refl) as (_ & Hsame & _). exact Hsame.
Defined.

Lemma closed_iff_close_called_alive_witness :
  let p := newPool ConnUndefined noOptions in
  let acts : list (@Action SerialClient) :=
    [CallDestroy ArgAbsent None; CallClose None] in
  closed p = false
  /\ closed (run acts p) = close_called_alive acts p
  /\ closed (run [CallClose None] (after (CallDestroy ArgAbsent None) p))
     = false.
Proof.
  intros p acts. split; [reflexivity|].
  destruct (closed_iff_close_called_alive p acts ArgAbsent None eq_refl)
    as (_ & Hiff & _).
  split; [exact Hiff|].
  destruct (closed_iff_close_called_alive p [CallClose None] ArgAbsent None
              eq_refl) as (_ & _ & _ & _ & Hstays).
  exact Hstays.
Defined.

(** * Further properties *)

(** ** The list of connections *)

Section Subscriptions.
Context {C : Type} `{Client C}.
Implicit Types p q : Pool C.

Lemma map_conn_listeners (f : C -> C) cs :
  map (@listeners C) (map_conn f cs) = map (@listeners C) cs.
Proof. unfold map_conn. rewrite map_map. reflexivity. Qed.

Lemma keeps_subs_dispatch_to c it :
  keeps (same (@limit_and_subscriptions C)) (dispatch_to c it).
Proof.
  intros p. unfold dispatch_to.
  destruct (nth_error (kClients p) c) as [s|] eqn:Hs; [|reflexivity].
  destruct (client_dispatch (opts it) (handler it) (conn s)) as [r st].
  unfold same, limit_and_subscriptions, subscriptions. cbn.
  rewrite (replace_nth_listeners c s st _ Hs). reflexivity.
Qed.

Lemma keeps_subs_onDrain_loop this :
  keeps (same (@limit_and_subscriptions C))
    (fun p => onDrain_loop this (kQueue p) p).
Proof.
  intros p.
  destruct (onDrain_loop_spec this (kQueue p) p eq_refl)
    as (n & cs' & _ & Hl & Hs & _).
  rewrite Hs. unfold same, limit_and_subscriptions, subscriptions. cbn.
  rewrite Hl. reflexivity.
Qed.

Lemma keeps_subs_close_all :
  keeps (same (@limit_and_subscriptions C)) close_all.
Proof.
  intros p. unfold same, limit_and_subscriptions, subscriptions. cbn.
  rewrite map_conn_listeners. reflexivity.
Qed.

Lemma keeps_subs_destroy_all err :
  keeps (same (@limit_and_subscriptions C)) (destroy_all err).
Proof.
  intros p. unfold same, limit_and_subscriptions, subscriptions. cbn.
  rewrite map_conn_listeners. reflexivity.
Qed.

Lemma keeps_subs_progress c st :
  keeps (same (@limit_and_subscriptions C)) (perform (ClientProgress c st)).
Proof.
  intros p. cbn. unfold same, limit_and_subscriptions, subscriptions.
  destruct (nth_error (kClients p) c) as [s|] eqn:Hs; [|reflexivity].
  cbn. rewrite (replace_nth_listeners c s st _ Hs). reflexivity.
Qed.
End Subscriptions.

Ltac subs_leaf :=
  idtac;
  match goal with
  | |- keeps _ (dispatch_to _ _) => apply keeps_subs_dispatch_to
  | |- keeps _ (fun p => onDrain_loop _ (kQueue p) p) =>
      apply keeps_subs_onDrain_loop
  | |- keeps _ close_all => apply keeps_subs_close_all
  | |- keeps _ (destroy_all _) => apply keeps_subs_destroy_all
  | |- keeps _ (perform (ClientProgress _ _)) => apply keeps_subs_progress
  | |- _ => frame_leaf
  end.

Ltac subs_go := repeat keeps_step subs_leaf.

Section Growth.
Context {C : Type} `{Client C}.
Variable parseOrigin : string -> Completion Url.
Implicit Types p q : Pool C.

Lemma perform_keeps_subscriptions (a : Action) :
  is_dispatch a = false ->
  keeps (same (@limit_and_subscriptions C)) (perform a).
Proof.
  destruct a; cbn [is_dispatch]; intros Ha; try discriminate;
    try (cbn [perform]; subs_go).
  apply keeps_subs_progress.
Qed.

Lemma pick_client_eq p :
  pick_client p
  = match find_not_busy 0 (kClients p) with
    | Some c => (Normal (Some c), p)
    | None =>
        if may_grow p
        then bind create_client (fun c => ret (Some c)) p
        else (Normal None, p)
    end.
Proof.
  unfold pick_client, may_grow. eff. cbn.
  destruct (find_not_busy 0 (kClients p)); [reflexivity|].
  destruct (negb (limit_truthy (kConnections p))
            || length_below_limit (length (kClients p)) (kConnections p));
    reflexivity.
Qed.

Lemma pick_client_subscriptions p :
  kConnections (snd (pick_client p)) = kConnections p
  /\ (subscriptions (snd (pick_client p)) = subscriptions p
      \/ (may_grow p = true
          /\ exists ls,
              well_subscribed ls
              /\ subscriptions (snd (pick_client p))
                 = subscriptions p ++ [ls])).
Proof.
  assert (Hk : keeps (same (@kConnections C)) pick_client) by keeps_go.
  split; [apply Hk|].
  rewrite pick_client_eq.
  destruct (find_not_busy 0 (kClients p)); [left; reflexivity|].
  destruct (may_grow p); [|left; reflexivity].
  unfold bind, ret. pose proof (create_client_spec p) as Hc.
  destruct (create_client p) as [[c|e] q]; cbn [snd].
  - destruct Hc as (_ & (st & Hcs) & _).
    right. split; [reflexivity|].
    eexists. split; [|unfold subscriptions; rewrite Hcs, map_app; reflexivity].
    cbn. unfold well_subscribed, base_events.
    destruct (_ && _); cbn; auto.
  - destruct Hc as (_ & Hcs). left. unfold subscriptions. rewrite Hcs.
    reflexivity.
Qed.

Lemma dispatch_subscriptions o h p :
  kConnections (snd (dispatch o h p)) = kConnections p
  /\ (subscriptions (snd (dispatch o h p)) = subscriptions p
      \/ (may_grow p = true
          /\ exists ls,
              well_subscribed ls
              /\ subscriptions (snd (dispatch o h p))
                 = subscriptions p ++ [ls])).
Proof.
  split; [apply (perform_keeps_kConnections (CallDispatch o h))|].
  assert (Hopen : keeps (same (@limit_and_subscriptions C)) (@check_open C))
    by subs_go.
  assert (Hrest : forall client,
             keeps (same (@limit_and_subscriptions C))
               (match client with
                | None => enqueue (mkItem o h)
                | Some c => hand_over c (mkItem o h)
                end)) by (intros; subs_go).
  assert (Hcatch : forall e,
             keeps (same (@limit_and_subscriptions C)) (dispatch_catch h e))
    by (intros; subs_go).
  assert (Hsubs : forall q q' : Pool C,
             same (@limit_and_subscriptions C) q q' ->
             subscriptions q' = subscriptions q).
  { intros q q' Hq. unfold same, limit_and_subscriptions in Hq. congruence. }
  assert (Hopen_p : forall r p1, check_open p = (r, p1) -> p1 = p).
  { unfold check_open. eff. cbn.
    destruct (kDestroyed p); cbn; [intros r p1 [= _ <-]; reflexivity|].
    destruct (kClosedPromise p); cbn; intros r p1 [= _ <-]; reflexivity. }
  unfold dispatch, try_catch, dispatch_try, bind.
  destruct (check_open p) as [[[]|e] p1] eqn:E1;
    rewrite (Hopen_p _ _ eq_refl) in *; clear E1.
  - pose proof (pick_client_subscriptions p) as [_ Hpick].
    destruct (pick_client p) as [[client|e] p2]; cbn [snd] in Hpick.
    + pose proof (Hrest client p2) as Hr.
      destruct (match client with
                | Some c => hand_over c (mkItem o h)
                | None => enqueue (mkItem o h)
                end p2) as [[[]|e] p3]; cbn [snd] in *.
      * rewrite (Hsubs _ _ Hr). exact Hpick.
      * rewrite (Hsubs _ _ (Hcatch e p3)), (Hsubs _ _ Hr). exact Hpick.
    + rewrite (Hsubs _ _ (Hcatch e p2)). exact Hpick.
  - left. apply Hsubs. apply Hcatch.
Qed.

Lemma after_subscriptions (a : Action) p :
  subscriptions (after a p) = subscriptions p
  \/ (is_dispatch a = true
      /\ may_grow p = true
      /\ exists ls,
          well_subscribed ls
          /\ subscriptions (after a p) = subscriptions p ++ [ls]).
Proof.
  destruct (is_dispatch a) eqn:Ha.
  - destruct a; try discriminate. unfold after. cbn [perform].
    destruct (dispatch_subscriptions o h p) as [_ [Hsame|Hgrow]]; auto.
  - left. pose proof (perform_keeps_subscriptions a Ha p) as Hk.
    unfold same, limit_and_subscriptions in Hk. unfold after. congruence.
Qed.

(** X1: the pool never drops a connection and never changes what a
    connection is subscribed to: an action leaves the list of
    subscriptions as it was, or, when it is a [dispatch] that found no
    free connection and may grow, adds one connection at the end,
    subscribed to drain, connect and disconnect, and possibly session. *)
Theorem connections_only_added_by_dispatch (a : Action) p :
  subscriptions (after a p) = subscriptions p
  \/ (is_dispatch a = true
      /\ may_grow p = true
      /\ exists ls,
          well_subscribed ls
          /\ subscriptions (after a p) = subscriptions p ++ [ls]).
Proof. exact (after_subscriptions a p). Qed.

Lemma subscriptions_length p : length (subscriptions p) = length (kClients p).
Proof. unfold subscriptions. apply length_map. Qed.

Lemma after_within_limit (a : Action) p :
  limit_positive p -> within_limit p -> within_limit (after a p).
Proof.
  unfold limit_positive, within_limit. intros Hpos Hin.
  rewrite after_kConnections.
  destruct (kConnections p) as [q|] eqn:Hq; [|exact I].
  intros n Hn. rewrite <- subscriptions_length in Hn.
  destruct (after_subscriptions a p)
    as [Hsame|(_ & Hgrow & ls & _ & Happ)].
  - rewrite Hsame, subscriptions_length in Hn. auto.
  - rewrite Happ, length_app, subscriptions_length in Hn. cbn in Hn.
    assert (n = length (kClients p)) as -> by lia.
    unfold may_grow in Hgrow. rewrite Hq in Hgrow.
    destruct (find_not_busy 0 (kClients p)); [discriminate|].
    cbn in Hgrow.
    assert (Hz : Qeq_bool q 0 = false).
    { destruct (Qeq_bool q 0) eqn:Hz; [|reflexivity].
      apply Qeq_bool_eq in Hz. rewrite Hz in Hpos.
      exfalso. exact (Qlt_irrefl 0 Hpos). }
    rewrite Hz in Hgrow. cbn in Hgrow.
    apply negb_true_iff in Hgrow.
    apply Qnot_le_lt. intros Hle.
    apply Qle_bool_iff in Hle. congruence.
Qed.

Lemma reachable_within_limit p : reachable parseOrigin p -> within_limit p.
Proof.
  induction 1 as [origin connections options p Hnew | a p Hreach IH _].
  - unfold constructor in Hnew.
    destruct (invalid_connections connections); [discriminate|].
    destruct (parseOrigin origin); [|discriminate].
    injection Hnew as <-. unfold within_limit. cbn.
    destruct (connections_or_null connections); [|exact I].
    intros n Hn. discriminate.
  - apply after_within_limit; [|exact IH].
    apply (reachable_limit_positive parseOrigin). exact Hreach.
Qed.

(** X2: a pool never holds more connections than its limit allows.  A
    connection is made only while the number of connections is below the
    limit, so the number stays at most [n] under a limit that is the
    whole number [n], and under any limit [q] the number less one is
    below [q] (a limit of 5/2 lets a third connection in). *)
Theorem connections_within_limit p (q : Q) :
  reachable parseOrigin p ->
  kConnections p = Some q ->
  (forall m : nat,
      length (kClients p) = S m -> (inject_Z (Z.of_nat m) < q)%Q)
  /\ (forall n : nat,
         (q == inject_Z (Z.of_nat n))%Q -> (length (kClients p) <= n)%nat).
Proof.
  intros Hreach Hq.
  pose proof (reachable_within_limit p Hreach) as Hin.
  unfold within_limit in Hin. rewrite Hq in Hin.
  split; [exact Hin|].
  intros n Hn. destruct (length (kClients p)) as [|m] eqn:Hlen; [lia|].
  specialize (Hin m eq_refl). rewrite Hn in Hin.
  rewrite <- Zlt_Qlt in Hin. lia.
Qed.

Lemma after_well_subscribed (a : Action) p :
  Forall well_subscribed (subscriptions p) ->
  Forall well_subscribed (subscriptions (after a p)).
Proof.
  intros Hall.
  destruct (after_subscriptions a p)
    as [Hsame|(_ & _ & ls & Hls & Happ)].
  - rewrite Hsame. exact Hall.
  - rewrite Happ. apply Forall_app. split; [exact Hall|].
    constructor; [exact Hls | constructor].
Qed.

Lemma reachable_well_subscribed p :
  reachable parseOrigin p -> Forall well_subscribed (subscriptions p).
Proof.
  induction 1 as [origin connections options p Hnew | a p _ IH _].
  - unfold constructor in Hnew.
    destruct (invalid_connections connections); [discriminate|].
    destruct (parseOrigin origin); [|discriminate].
    injection Hnew as <-. constructor.
  - apply after_well_subscribed. exact IH.
Qed.

(** X3: every connection a pool holds is subscribed to drain, connect
    and disconnect, and to nothing else but possibly session. *)
Theorem every_connection_subscribed p c (s : Slot C) :
  reachable parseOrigin p ->
  nth_error (kClients p) c = Some s ->
  well_subscribed (listeners s)
  /\ listens c EvDrain p = true
  /\ listens c EvConnect p = true
  /\ listens c EvDisconnect p = true.
Proof.
  intros Hreach Hs.
  pose proof (reachable_well_subscribed p Hreach) as Hall.
  assert (Hwell : well_subscribed (listeners s)).
  { rewrite Forall_forall in Hall. apply Hall.
    unfold subscriptions. apply in_map. eapply nth_error_In. exact Hs. }
  split; [exact Hwell|].
  unfold listens. rewrite Hs.
  destruct Hwell as [-> | ->]; cbn; auto.
Qed.
End Growth.

(** ** Backpressure *)

Section DrainHandler.
Context {C : Type} `{Client C}.
Implicit Types p q : Pool C.

(** [onDrain] by the outcome of its loop. *)
Lemma onDrain_eq this p :
  onDrain this p
  = match onDrain_loop this (kQueue p) p with
    | (Throw e, p1) => (Throw e, p1)
    | (Normal _, p1) =>
        resolve_closed
          (if kNeedDrain p1 && negb (this_busy this p1)
           then set_trace (trace p1 ++ [EmitDrain]) (set_kNeedDrain false p1)
           else p1)
    end.
Proof.
  unfold onDrain, signal_drain. eff.
  destruct (onDrain_loop this (kQueue p) p) as [[[]|e] p1]; [|reflexivity].
  cbn. destruct (kNeedDrain p1 && negb (this_busy this p1)); reflexivity.
Qed.

(** What the loop of [onDrain] leaves behind. *)
Lemma onDrain_loop_result this p :
  exists n : nat,
    kQueue (snd (onDrain_loop this (kQueue p) p)) = skipn n (kQueue p)
    /\ kNeedDrain (snd (onDrain_loop this (kQueue p) p)) = kNeedDrain p
    /\ (fst (onDrain_loop this (kQueue p) p) = Normal tt ->
        this_busy this (snd (onDrain_loop this (kQueue p) p)) = false ->
        kQueue (snd (onDrain_loop this (kQueue p) p)) = []).
Proof.
  destruct (onDrain_loop_spec this (kQueue p) p eq_refl)
    as (n & cs' & _ & _ & Hs & Hstop & _).
  exists n. rewrite Hs in *. cbn. split; [reflexivity|].
  split; [reflexivity|].
  intros Hn Hb. destruct (Hstop Hn) as [Hbusy|Hempty]; [congruence|].
  exact Hempty.
Qed.

Lemma resolve_closed_frame p :
  kQueue (snd (resolve_closed p)) = kQueue p
  /\ kNeedDrain (snd (resolve_closed p)) = kNeedDrain p
  /\ drains_emitted (trace (snd (resolve_closed p)))
     = drains_emitted (trace p).
Proof.
  unfold resolve_closed, close_all. eff. cbn.
  destruct (kClosedResolve p); cbn; auto.
  destruct (kQueue p) eqn:Hq; cbn; auto.
  repeat split; auto.
  unfold drains_emitted, count_effects. rewrite filter_app, length_app.
  assert (Hnone : forall from (cs : list (Slot C)),
             filter is_emit_drain (call_each ClientClose from cs) = []).
  { intros from cs. revert from.
    induction cs as [|s cs IH]; intros from; cbn; auto. }
  rewrite Hnone. cbn. lia.
Qed.
End DrainHandler.

Section NeedDrain.
Context {C : Type} `{Client C}.
Implicit Types p q : Pool C.

Lemma keeps_waiting_of_view {A} (m : Eff C A) :
  keeps (same (@queue_and_flag C)) m ->
  keeps (steady (@waiting_needs_drain C)) m.
Proof.
  intros Hm p Hp. specialize (Hm p).
  unfold same, queue_and_flag in Hm. injection Hm as Hq Hn.
  unfold waiting_needs_drain in *. rewrite Hq, Hn. exact Hp.
Qed.

Lemma keeps_waiting_enqueue it :
  keeps (steady (@waiting_needs_drain C)) (enqueue it).
Proof. intros p _ _. reflexivity. Qed.

Lemma keeps_waiting_flag_up :
  keeps (steady (@waiting_needs_drain C)) (modify (set_kNeedDrain true)).
Proof. intros p _ _. reflexivity. Qed.

Lemma keeps_waiting_destroy_loop err :
  keeps (steady (@waiting_needs_drain C))
    (fun p => destroy_loop (kQueue p) err p).
Proof.
  intros p Hp. rewrite destroy_loop_spec by reflexivity.
  unfold waiting_needs_drain in *. cbn [snd kQueue kNeedDrain set_trace set_kQueue].
  intros Hq. apply Hp. intros Hnil. apply Hq. rewrite Hnil.
  destruct (failable []); reflexivity.
Qed.

Lemma keeps_waiting_onDrain this :
  keeps (steady (@waiting_needs_drain C)) (onDrain this).
Proof.
  intros p Hp. rewrite onDrain_eq.
  destruct (onDrain_loop_result this p) as (n & Hq & Hn & Hstop).
  assert (Hp1 : waiting_needs_drain (snd (onDrain_loop this (kQueue p) p))).
  { unfold waiting_needs_drain in *. rewrite Hq, Hn. intros Hne.
    apply Hp. intros Hnil. apply Hne. rewrite Hnil. apply skipn_nil. }
  destruct (onDrain_loop this (kQueue p) p) as [[[]|e] p1]; cbn [fst snd] in *;
    [|exact Hp1].
  match goal with
  | |- waiting_needs_drain (snd (resolve_closed ?q)) =>
      destruct (resolve_closed_frame q) as (Hrq & Hrn & _);
      assert (Hmid : waiting_needs_drain q)
  end.
  { destruct (kNeedDrain p1 && negb (this_busy this p1)) eqn:Hsig;
      [|exact Hp1].
    apply andb_true_iff in Hsig as [_ Hb]. apply negb_true_iff in Hb.
    intros Hne. exfalso. apply Hne. cbn. apply Hstop; auto. }
  unfold waiting_needs_drain in *. rewrite Hrq, Hrn. exact Hmid.
Qed.
End NeedDrain.

Ltac waiting_leaf :=
  idtac;
  match goal with
  | |- keeps _ (enqueue _) => apply keeps_waiting_enqueue
  | |- keeps _ (onDrain _) => apply keeps_waiting_onDrain
  | |- keeps _ (fun p => destroy_loop (kQueue p) _ p) =>
      apply keeps_waiting_destroy_loop
  | |- keeps _ (modify (set_kNeedDrain true)) => apply keeps_waiting_flag_up
  | |- keeps _ (modify _) => apply keeps_waiting_of_view; keeps_go
  | |- keeps _ (new_promise _) => apply keeps_waiting_of_view; keeps_go
  | |- keeps _ (dispatch_to _ _) => apply keeps_waiting_of_view; keeps_go
  end.

Ltac waiting_go := repeat keeps_step waiting_leaf.

Section NeedDrainReach.
Context {C : Type} `{Client C}.
Variable parseOrigin : string -> Completion Url.
Implicit Types p q : Pool C.

Lemma perform_keeps_waiting (a : Action) :
  keeps (steady (@waiting_needs_drain C)) (perform a).
Proof. destruct a; cbn [perform]; waiting_go. Qed.

(** X4: while a request waits in the queue the backpressure flag is up:
    a caller that was refused immediate service is owed a ['drain']. *)
Theorem waiting_request_keeps_flag_up p :
  reachable parseOrigin p -> kQueue p <> [] -> kNeedDrain p = true.
Proof.
  induction 1 as [origin connections options p Hnew | a p _ IH _].
  - unfold constructor in Hnew.
    destruct (invalid_connections connections); [discriminate|].
    destruct (parseOrigin origin); [|discriminate].
    injection Hnew as <-. cbn. congruence.
  - apply perform_keeps_waiting. exact IH.
Qed.
End NeedDrainReach.

(** ** What the pool emits and calls *)

Section Effects.
Context {C : Type} `{Client C}.
Variable kind : Effect -> bool.
Hypothesis not_dispatch : forall c it, kind (ClientDispatch c it) = false.
Hypothesis not_onError : forall hid e, kind (OnError hid e) = false.
Implicit Types p q : Pool C.

Lemma count_effects_app t1 t2 :
  count_effects kind (t1 ++ t2)
  = (count_effects kind t1 + count_effects kind t2)%nat.
Proof. unfold count_effects. rewrite filter_app, length_app. reflexivity. Qed.

Lemma count_effects_dispatches c items :
  count_effects kind (map (ClientDispatch c) items) = 0%nat.
Proof.
  unfold count_effects.
  induction items as [|it items IH]; cbn; [reflexivity|].
  rewrite not_dispatch. exact IH.
Qed.

Lemma count_effects_fail_each err queue :
  count_effects kind (fail_each err queue) = 0%nat.
Proof.
  unfold count_effects, fail_each.
  induction queue as [|it queue IH]; cbn; [reflexivity|].
  destruct (handler it) as [|hid [|]|hid thrown]; cbn; rewrite ?not_onError; exact IH.
Qed.

Lemma keeps_counted_dispatch_to c it :
  keeps (same (@counted C kind)) (dispatch_to c it).
Proof.
  intros p. unfold dispatch_to.
  destruct (nth_error (kClients p) c) as [s|]; [|reflexivity].
  destruct (client_dispatch (opts it) (handler it) (conn s)) as [r st].
  unfold same, counted, set_trace. cbn [trace snd]. rewrite count_effects_app.
  unfold count_effects at 2. cbn. rewrite not_dispatch. cbn. lia.
Qed.

Lemma keeps_counted_onDrain_loop this :
  keeps (same (@counted C kind)) (fun p => onDrain_loop this (kQueue p) p).
Proof.
  intros p.
  destruct (onDrain_loop_spec this (kQueue p) p eq_refl)
    as (n & cs' & _ & _ & Hs & _).
  rewrite Hs. unfold same, counted, set_trace. cbn [trace snd].
  rewrite count_effects_app, count_effects_dispatches. lia.
Qed.

Lemma keeps_counted_destroy_loop err :
  keeps (same (@counted C kind)) (fun p => destroy_loop (kQueue p) err p).
Proof.
  intros p. rewrite destroy_loop_spec by reflexivity.
  unfold same, counted, set_trace. cbn [trace snd].
  rewrite count_effects_app, count_effects_fail_each. lia.
Qed.
End Effects.

Section EffectCounts.
Context {C : Type} `{Client C}.
Implicit Types p q : Pool C.

Lemma count_effects_call_each_none kind (e : nat -> Effect) from
    (cs : list (Slot C)) :
  (forall c, kind (e c) = false) ->
  count_effects kind (call_each e from cs) = 0%nat.
Proof.
  intros He. unfold count_effects. revert from.
  induction cs as [|s cs IH]; intros from; cbn; [reflexivity|].
  rewrite He. apply IH.
Qed.

Lemma count_effects_call_each_all kind (e : nat -> Effect) from
    (cs : list (Slot C)) :
  (forall c, kind (e c) = true) ->
  count_effects kind (call_each e from cs) = length cs.
Proof.
  intros He. unfold count_effects. revert from.
  induction cs as [|s cs IH]; intros from; cbn; [reflexivity|].
  rewrite He. cbn. f_equal. apply IH.
Qed.
End EffectCounts.

Ltac effects_leaf :=
  idtac;
  match goal with
  | |- keeps _ (dispatch_to _ _) =>
      apply keeps_counted_dispatch_to; intros; reflexivity
  | |- keeps _ (fun p => onDrain_loop _ (kQueue p) p) =>
      apply keeps_counted_onDrain_loop; intros; reflexivity
  | |- keeps _ (fun p => destroy_loop (kQueue p) _ p) =>
      apply keeps_counted_destroy_loop; intros; reflexivity
  | |- keeps _ (new_promise _) => intros ?; reflexivity
  | |- keeps _ (modify _) =>
      apply keeps_modify; class_goal; intros;
      repeat match goal with
        | |- context [match ?x with _ => _ end] => destruct x
        end;
      unfold same, counted; cbn -[count_effects];
      rewrite ?count_effects_app;
      rewrite ?count_effects_call_each_none by (intros; reflexivity);
      try reflexivity; cbn; lia
  end.

Ltac effects_go := repeat keeps_step effects_leaf.

Section DrainEvent.
Context {C : Type} `{Client C}.
Implicit Types p q : Pool C.

Lemma perform_keeps_drains (a : Action) :
  is_drain a = false ->
  keeps (same (@counted C is_emit_drain)) (perform a).
Proof.
  destruct a; cbn [perform is_drain]; intros Ha; try discriminate;
    effects_go.
Qed.

(** X5: the pool emits ['drain'] only while it handles a drain
    notification of a connection, at most once per notification, and
    only if the backpressure flag was up; it then takes the flag down,
    and the queue is empty. *)
Theorem drain_emitted_only_when_queue_empty (a : Action) p :
  drains_emitted (trace (after a p)) = drains_emitted (trace p)
  \/ (is_drain a = true
      /\ drains_emitted (trace (after a p)) = S (drains_emitted (trace p))
      /\ kNeedDrain p = true
      /\ kNeedDrain (after a p) = false
      /\ kQueue (after a p) = []).
Proof.
  destruct (is_drain a) eqn:Ha;
    [|left; exact (perform_keeps_drains a Ha p)].
  destruct a; try discriminate. unfold after. cbn [perform].
  rewrite onDrain_eq.
  destruct (onDrain_loop_result c p) as (n & Hq & Hn & Hstop).
  pose proof (keeps_counted_onDrain_loop is_emit_drain
                (fun _ _ => eq_refl) c p) as Hloop.
  unfold same, counted in Hloop. fold (drains_emitted) in Hloop.
  destruct (onDrain_loop c (kQueue p) p) as [[[]|e] p1]; cbn [fst snd] in *;
    [|left; exact Hloop].
  match goal with
  | |- context [resolve_closed ?q] =>
      destruct (resolve_closed_frame q) as (Hrq & Hrn & Hrd)
  end.
  rewrite Hrq, Hrn, Hrd.
  destruct (kNeedDrain p1 && negb (this_busy c p1)) eqn:Hsig;
    [|left; exact Hloop].
  apply andb_true_iff in Hsig as [Hflag Hb]. apply negb_true_iff in Hb.
  right. split; [reflexivity|].
  split; [|split; [congruence | split; [reflexivity | cbn; auto]]].
  unfold drains_emitted, set_trace in *. cbn [trace].
  rewrite count_effects_app, Hloop. cbn. lia.
Qed.
End DrainEvent.

(** ** When connections are closed and destroyed *)

Section Closes.
Context {C : Type} `{Client C}.
Implicit Types p q : Pool C.

Lemma close_closes cb p :
  kQueue (snd (close cb p)) = kQueue p
  /\ closes_called (trace (snd (close cb p)))
     = (closes_called (trace p)
        + (if accepting p then
             match kQueue p with [] => length (kClients p) | _ => 0 end
           else 0))%nat.
Proof.
  unfold close, close_try, close_catch, close_all, accepting. eff.
  cbn -[closes_called].
  destruct (kDestroyed p) eqn:Hd; cbn -[closes_called].
  - destruct cb; cbn -[closes_called]; split; auto; unfold closes_called;
      rewrite ?count_effects_app; cbn; lia.
  - destruct (kClosedPromise p) eqn:Hc; cbn -[closes_called].
    + rewrite Hc. destruct cb; cbn -[closes_called]; split; auto; lia.
    + destruct (kQueue p) eqn:Hq; cbn -[closes_called];
        destruct cb; cbn -[closes_called];
        (split; [auto|]); unfold closes_called;
        rewrite ?count_effects_app;
        rewrite ?count_effects_call_each_all by (intros; reflexivity);
        lia.
Qed.

Lemma resolve_closed_closes p :
  closes_called (trace (snd (resolve_closed p)))
  = (closes_called (trace p)
     + match kClosedResolve p, kQueue p with
       | Some _, [] => length (kClients p)
       | _, _ => 0
       end)%nat.
Proof.
  unfold resolve_closed, close_all. eff. cbn -[closes_called].
  destruct (kClosedResolve p); cbn -[closes_called]; [|lia].
  destruct (kQueue p); cbn -[closes_called]; [|lia].
  unfold closes_called. rewrite count_effects_app.
  rewrite count_effects_call_each_all by (intros; reflexivity). lia.
Qed.

Lemma perform_keeps_closes (a : Action) :
  is_close a = false ->
  is_drain a = false ->
  keeps (same (@counted C is_client_close)) (perform a).
Proof.
  destruct a; cbn [perform is_drain is_close]; intros Hc Hd;
    try discriminate; effects_go.
Qed.

Lemma after_closes (a : Action) p :
  is_close a = false ->
  is_drain a = false ->
  closes_called (trace (after a p)) = closes_called (trace p).
Proof. intros Hc Hd. exact (perform_keeps_closes a Hc Hd p). Qed.

(** X6: the pool calls [close()] on its connections only in [close] and
    while it handles a drain notification, only at a moment when the
    queue is empty, and then on every connection; [close] on a pool with
    waiting requests closes no connection. *)
Theorem connections_closed_only_with_empty_queue (a : Action) p :
  (closes_called (trace (after a p)) = closes_called (trace p)
   \/ ((is_close a = true \/ is_drain a = true)
       /\ kQueue (after a p) = []
       /\ closes_called (trace (after a p))
          = (closes_called (trace p) + length (kClients p))%nat))
  /\ (is_close a = true ->
      kQueue p <> [] ->
      closes_called (trace (after a p)) = closes_called (trace p)).
Proof.
  destruct a;
    try (split; [left; apply after_closes; reflexivity
                | cbn; intros; discriminate]).
  - (* close *)
    unfold after. cbn [perform]. rewrite snd_forget.
    destruct (close_closes cb p) as [Hq Hc]. rewrite Hc, Hq.
    split.
    + destruct (accepting p); [|left; lia].
      destruct (kQueue p); [right; auto | left; lia].
    + intros _ Hne. destruct (accepting p); [|lia].
      destruct (kQueue p); [congruence | lia].
  - (* drain *)
    split; [|cbn; intros; discriminate].
    unfold after. cbn [perform]. rewrite onDrain_eq.
    pose proof (keeps_counted_onDrain_loop is_client_close
                  (fun _ _ => eq_refl) c p) as Hloop.
    pose proof (keeps_subs_onDrain_loop c p) as Hsubs.
    unfold same, counted in Hloop.
    unfold same, limit_and_subscriptions in Hsubs.
    injection Hsubs as _ Hsubs.
    apply (f_equal (@length _)) in Hsubs.
    rewrite !subscriptions_length in Hsubs.
    destruct (onDrain_loop c (kQueue p) p) as [[[]|e] p1]; cbn [fst snd] in *;
      [|left; exact Hloop].
    match goal with
    | |- context [resolve_closed ?q] =>
        set (mid := q);
        destruct (resolve_closed_frame mid) as (Hrq & _ & _);
        pose proof (resolve_closed_closes mid) as Hrc
    end.
    assert (Hmid : closes_called (trace mid) = closes_called (trace p)
                   /\ kClients mid = kClients p1
                   /\ kClosedResolve mid = kClosedResolve p1).
    { subst mid.
      destruct (kNeedDrain p1 && negb (this_busy c p1));
        cbn -[closes_called]; [|auto].
      split; [|auto]. unfold closes_called in *.
      rewrite count_effects_app, Hloop. cbn. lia. }
    destruct Hmid as (Hmc & Hmk & _).
    rewrite Hrc, Hrq, Hmc, Hmk, Hsubs.
    destruct (kClosedResolve mid); [|left; lia].
    destruct (kQueue mid); [right; auto | left; lia].
Qed.
End Closes.

Section Destroys.
Context {C : Type} `{Client C}.
Implicit Types p q : Pool C.

Lemma fail_each_length err queue :
  failable queue = length queue ->
  length (fail_each err queue) = length queue.
Proof.
  unfold fail_each.
  induction queue as [|it queue IH]; cbn; [reflexivity|].
  destruct (handler it) as [|hid [|]|hid thrown]; cbn; try discriminate.
  intros [= Hq]. f_equal. apply IH. exact Hq.
Qed.

Lemma failable_le queue : (failable queue <= length queue)%nat.
Proof.
  induction queue as [|it queue IH]; cbn; [lia|].
  destruct (onError_returns (handler it)); lia.
Qed.

Lemma firstn_step_without_onError err queue n it :
  nth_error queue n = Some it ->
  has_onError (handler it) = false ->
  fail_each err (firstn (S n) queue) = fail_each err (firstn n queue).
Proof.
  revert n. induction queue as [|x queue IH]; intros [|n] Hit Hno;
    cbn in Hit; try discriminate.
  - injection Hit as ->. cbn.
    destruct (handler it) as [|hid [|]|hid thrown];
      try discriminate; reflexivity.
  - change (firstn (S (S n)) (x :: queue)) with (x :: firstn (S n) queue).
    change (firstn (S n) (x :: queue)) with (x :: firstn n queue).
    unfold fail_each in *. cbn [flat_map]. f_equal. apply IH; assumption.
Qed.

(** X7: when every waiting handler can take an error, [destroy] marks
    the pool destroyed, gives the error (the caller's, or
    [ClientDestroyedError]) to each waiting handler once, in the order
    of the queue, then calls [destroy] with that error on each
    connection in the order they were made; the queue is empty
    afterwards; the result is the promise over the connections, or
    nothing when a callback was given, which is then added to it. *)
Theorem destroy_fails_queue_then_destroys_connections err cb p :
  failable (kQueue p) = length (kQueue p) ->
  let e := destroy_error err in
  let q := snd (destroy err cb p) in
  trace q
  = trace p ++ fail_each e (kQueue p)
    ++ call_each (fun c => ClientDestroy c e) 0 (kClients p)
  /\ length (fail_each e (kQueue p)) = length (kQueue p)
  /\ kQueue q = []
  /\ kDestroyed q = true
  /\ kClients q = map_conn (client_destroy e) (kClients p)
  /\ fst (destroy err cb p)
     = Normal (match destroy_callback err cb with
               | Some _ => None
               | None => Some (length (promises p))
               end)
  /\ promises q
     = promises p
       ++ PromiseAll (length (kClients p))
          :: match destroy_callback err cb with
             | Some f => [PromiseThen (length (promises p)) (CallCallback f)]
             | None => []
             end.
Proof.
  intros Hall e q. subst q.
  rewrite (destroy_all_failable err cb p Hall). cbn.
  repeat split. apply fail_each_length. exact Hall.
Qed.

(** X8: when a waiting handler cannot take an error, [destroy] throws at
    the first such entry, a [TypeError] when the entry has no [onError]
    function, else what its [onError] threw: the pool is destroyed, the
    entries before it got the error, that entry and the ones before it
    are off the queue, the ones after it stay in the queue, and
    [destroy] is called on no connection. *)
Theorem destroy_stops_at_handler_without_onError err cb p :
  (failable (kQueue p) < length (kQueue p))%nat ->
  let q := snd (destroy err cb p) in
  fst (destroy err cb p) = Throw (stopping_error (kQueue p))
  /\ (forall it,
        nth_error (kQueue p) (failable (kQueue p)) = Some it ->
        has_onError (handler it) = false ->
        fst (destroy err cb p) = Throw TypeError
        /\ trace q
           = trace p
             ++ fail_each (destroy_error err)
                  (firstn (failable (kQueue p)) (kQueue p)))
  /\ kDestroyed q = true
  /\ trace q
     = trace p
       ++ fail_each (destroy_error err)
            (firstn (S (failable (kQueue p))) (kQueue p))
  /\ kQueue q = skipn (S (failable (kQueue p))) (kQueue p)
  /\ kClients q = kClients p
  /\ promises q = promises p.
Proof.
  intros Hbad q. subst q.
  rewrite (destroy_throws err cb p) by lia.
  cbn -[skipn firstn]. split; [reflexivity|]. split; [|repeat split].
  intros it Hit Hno. unfold stopping_error. rewrite Hit.
  split; [destruct (handler it) as [|hid [|]|hid thrown];
          try discriminate; reflexivity|].
  f_equal. apply (firstn_step_without_onError _ _ _ it); assumption.
Qed.

Lemma perform_keeps_destroys (a : Action) :
  is_destroy a = false ->
  keeps (same (@counted C is_client_destroy)) (perform a).
Proof.
  destruct a; cbn [perform is_destroy]; intros Ha; try discriminate;
    effects_go.
Qed.

(** X9: the pool calls [destroy] on its connections only in [destroy],
    and there on all of them or, when a waiting handler cannot take the
    error, on none. *)
Theorem connections_destroyed_only_by_destroy (a : Action) p :
  destroys_called (trace (after a p)) = destroys_called (trace p)
  \/ (is_destroy a = true
      /\ failable (kQueue p) = length (kQueue p)
      /\ destroys_called (trace (after a p))
         = (destroys_called (trace p) + length (kClients p))%nat).
Proof.
  destruct (is_destroy a) eqn:Ha;
    [|left; exact (perform_keeps_destroys a Ha p)].
  destruct a; try discriminate. unfold after. cbn [perform].
  rewrite snd_forget.
  destruct (Nat.eq_dec (failable (kQueue p)) (length (kQueue p))) as [He|Hn].
  - right. split; [reflexivity|]. split; [exact He|].
    rewrite (destroy_all_failable err cb p He).
    cbn -[destroys_called]. unfold destroys_called.
    rewrite !count_effects_app.
    rewrite count_effects_fail_each by (intros; reflexivity).
    rewrite count_effects_call_each_all by (intros; reflexivity). lia.
  - left. rewrite (destroy_throws err cb p Hn).
    cbn -[destroys_called firstn skipn fail_each]. unfold destroys_called.
    rewrite count_effects_app.
    rewrite count_effects_fail_each by (intros; reflexivity). lia.
Qed.
End Destroys.

(** ** Where [dispatch] sends a request *)

Section Routing.
Context {C : Type} `{Client C}.
Implicit Types p q : Pool C.

Lemma accepting_fields p :
  accepting p = true -> kDestroyed p = false /\ kClosedPromise p = None.
Proof.
  unfold accepting. destruct (kDestroyed p), (kClosedPromise p);
    cbn; intros; try discriminate; split; reflexivity.
Qed.

Lemma check_open_accepting p :
  accepting p = true -> check_open p = (Normal tt, p).
Proof.
  intros Ha. destruct (accepting_fields p Ha) as [Hd Hc].
  unfold check_open. eff. cbn. rewrite Hd. cbn. rewrite Hc. reflexivity.
Qed.

Lemma dispatch_try_accepting o h p :
  accepting p = true ->
  dispatch_try o h p
  = bind pick_client
      (fun client =>
         match client with
         | None => enqueue (mkItem o h)
         | Some c => hand_over c (mkItem o h)
         end) p.
Proof.
  intros Ha. unfold dispatch_try. unfold bind at 1.
  rewrite (check_open_accepting p Ha). reflexivity.
Qed.

Lemma find_not_busy_first (cs : list (Slot C)) : forall from c s,
  nth_error cs c = Some s ->
  client_busy (conn s) = false ->
  (forall i s',
      (i < c)%nat -> nth_error cs i = Some s' ->
      client_busy (conn s') = true) ->
  find_not_busy from cs = Some (from + c)%nat.
Proof.
  induction cs as [|s0 cs IH]; intros from c s Hc Hfree Hbusy.
  - destruct c; discriminate.
  - destruct c as [|c]; cbn in *.
    + injection Hc as ->. rewrite Hfree. cbn. f_equal. lia.
    + rewrite (Hbusy 0%nat s0) by (lia || reflexivity). cbn.
      rewrite (IH (S from) c s Hc Hfree); [f_equal; lia|].
      intros i s' Hi Hs'. apply (Hbusy (S i) s'); [lia|exact Hs'].
Qed.

(** What [hand_over] leaves: the connection after its own [dispatch], the
    call in the trace, and the flag raised when the connection and the
    pool are busy afterwards. *)
Lemma hand_over_eq c it p s :
  nth_error (kClients p) c = Some s ->
  let r := fst (client_dispatch (opts it) (handler it) (conn s)) in
  let st := snd (client_dispatch (opts it) (handler it) (conn s)) in
  let p1 :=
    set_trace (trace p ++ [ClientDispatch c it])
      (set_kClients (replace_nth c (mkSlot st (listeners s)) (kClients p)) p) in
  hand_over c it p
  = match r with
    | Normal _ =>
        (Normal tt,
         if client_busy st && busy p1 then set_kNeedDrain true p1 else p1)
    | Throw e => (Throw e, p1)
    end.
Proof.
  intros Hc. cbn zeta. unfold hand_over, bind at 1, dispatch_to.
  rewrite Hc.
  destruct (client_dispatch (opts it) (handler it) (conn s)) as [[[]|e] st];
    cbn [fst snd]; [|reflexivity].
  eff. cbn [fst snd].
  assert (Hb : this_busy c
                 (set_trace (trace p ++ [ClientDispatch c it])
                    (set_kClients
                       (replace_nth c (mkSlot st (listeners s)) (kClients p))
                       p))
               = client_busy st).
  { unfold this_busy. cbn.
    assert (Hn : forall (l : list (Slot C)) i x y,
               nth_error l i = Some y ->
               nth_error (replace_nth i x l) i = Some x).
    { induction l as [|z l IHl]; intros [|i] x y Hy; cbn in *;
        try discriminate; [reflexivity|eauto]. }
    rewrite (Hn _ _ _ _ Hc). reflexivity. }
  rewrite Hb.
  destruct (client_busy st && busy _); reflexivity.
Qed.

(** X10: on a pool that is destroyed or closed, [dispatch] changes
    nothing in the pool: it tells the handler [ClientDestroyedError] when
    the pool is destroyed, [ClientClosedError] otherwise, and it throws
    [InvalidArgumentError] when the handler has no [onError] function (a
    [TypeError] when there is no handler at all), and what [onError]
    throws when it throws. *)
Theorem rejected_dispatch_only_reports o h p :
  accepting p = false ->
  let e := if kDestroyed p then ClientDestroyedError else ClientClosedError in
  dispatch o h p
  = match h with
    | HandlerObject hid true =>
        (Normal tt, set_trace (trace p ++ [OnError hid e]) p)
    | HandlerObject _ false =>
        (Throw (InvalidArgumentError "invalid onError method"), p)
    | HandlerMissing => (Throw TypeError, p)
    | HandlerThrowing hid thrown =>
        (Throw thrown, set_trace (trace p ++ [OnError hid e]) p)
    end.
Proof.
  intros Ha. cbn zeta. unfold dispatch, try_catch.
  destruct (kDestroyed p) eqn:Hd.
  - rewrite (dispatch_try_destroyed p o h Hd).
    destruct h as [|hid [|]|hid thrown]; reflexivity.
  - assert (Hc : closed p = true).
    { unfold accepting in Ha. rewrite Hd in Ha. unfold closed.
      destruct (kClosedPromise p); [reflexivity|discriminate]. }
    rewrite (dispatch_try_closed p o h Hd Hc).
    destruct h as [|hid [|]|hid thrown]; reflexivity.
Qed.

Lemma dispatch_found o h p c s :
  accepting p = true ->
  find_not_busy 0 (kClients p) = Some c ->
  nth_error (kClients p) c = Some s ->
  let r := fst (client_dispatch o h (conn s)) in
  let st := snd (client_dispatch o h (conn s)) in
  let p1 :=
    set_trace (trace p ++ [ClientDispatch c (mkItem o h)])
      (set_kClients (replace_nth c (mkSlot st (listeners s)) (kClients p)) p) in
  dispatch o h p
  = match r with
    | Normal _ =>
        (Normal tt,
         if client_busy st && busy p1 then set_kNeedDrain true p1 else p1)
    | Throw e => dispatch_catch h e p1
    end.
Proof.
  intros Ha Hf Hc. cbn zeta.
  unfold dispatch, try_catch.
  rewrite (dispatch_try_accepting o h p Ha). unfold bind at 1.
  rewrite pick_client_eq, Hf.
  rewrite (hand_over_eq c (mkItem o h) p s Hc). cbn [opts handler].
  destruct (client_dispatch o h (conn s)) as [[[]|e] st]; reflexivity.
Qed.

Lemma dispatch_first_free o h p c s :
  accepting p = true ->
  nth_error (kClients p) c = Some s ->
  client_busy (conn s) = false ->
  (forall i s',
      (i < c)%nat -> nth_error (kClients p) i = Some s' ->
      client_busy (conn s') = true) ->
  let r := fst (client_dispatch o h (conn s)) in
  let st := snd (client_dispatch o h (conn s)) in
  let p1 :=
    set_trace (trace p ++ [ClientDispatch c (mkItem o h)])
      (set_kClients (replace_nth c (mkSlot st (listeners s)) (kClients p)) p) in
  dispatch o h p
  = match r with
    | Normal _ =>
        (Normal tt,
         if client_busy st && busy p1 then set_kNeedDrain true p1 else p1)
    | Throw e => dispatch_catch h e p1
    end.
Proof.
  intros Ha Hc Hfree Hbusy.
  apply (dispatch_found o h p c s Ha); [|exact Hc].
  exact (find_not_busy_first (kClients p) 0 c s Hc Hfree Hbusy).
Qed.

(** X11: a request dispatched to a pool that is neither destroyed nor
    closed goes to the first connection, in the order they were made,
    that is not busy: that connection's [dispatch] is called once, no
    connection is made, nothing is queued; the backpressure flag goes
    up when the connection and the pool are busy afterwards; when the
    connection's [dispatch] throws, the handler is told. *)
Theorem dispatch_goes_to_first_free_connection o h p c s :
  accepting p = true ->
  nth_error (kClients p) c = Some s ->
  client_busy (conn s) = false ->
  (forall i s',
      (i < c)%nat -> nth_error (kClients p) i = Some s' ->
      client_busy (conn s') = true) ->
  let q := snd (dispatch o h p) in
  let r := fst (client_dispatch o h (conn s)) in
  let st := snd (client_dispatch o h (conn s)) in
  kClients q = replace_nth c (mkSlot st (listeners s)) (kClients p)
  /\ kQueue q = kQueue p
  /\ kPending q = kPending p
  /\ trace q
     = trace p
       ++ ClientDispatch c (mkItem o h)
          :: match r, h with
             | Throw e, HandlerObject hid true => [OnError hid e]
             | Throw e, HandlerThrowing hid _ => [OnError hid e]
             | _, _ => []
             end
  /\ kNeedDrain q
     = match r with
       | Normal _ => kNeedDrain p || (client_busy st && busy q)
       | Throw _ => kNeedDrain p
       end.
Proof.
  intros Ha Hc Hfree Hbusy. cbn zeta.
  rewrite (dispatch_first_free o h p c s Ha Hc Hfree Hbusy).
  destruct (client_dispatch o h (conn s)) as [[[]|e] st]; cbn [fst snd].
  - set (p1 := set_trace _ _).
    assert (Hp1 : busy (set_kNeedDrain true p1) = busy p1) by reflexivity.
    destruct (client_busy st && busy p1) eqn:Hb; cbn [snd].
    + rewrite Hp1, Hb. subst p1. cbn -[busy]. rewrite orb_true_r.
      repeat split.
    + rewrite Hb. subst p1. cbn -[busy]. rewrite orb_false_r.
      repeat split.
  - destruct h as [|hid [|]|hid thrown]; cbn; rewrite <- ?app_assoc; repeat split.
Qed.
End Routing.

Section Making.
Context {C : Type} `{Client C}.
Implicit Types p q : Pool C.

(** [create_client] in one step: the kept options take the assignment
    to the shared [tls] object, and the connection is made with the
    options of [tls_for_new_client]. *)
Lemma create_client_eq p :
  let options :=
    mkOptions (Some (tls_for_new_client p)) (clientOptions (kOptions p)) in
  let p0 := set_kOptions (kept_options_after_new_client p) p in
  create_client p
  = match newClient (kUrl p) options with
    | Normal client =>
        (Normal (length (kClients p)),
         set_kClients
           (kClients p
            ++ [mkSlot client
                  (base_events
                   ++ (if listens_to_session (Some (tls_for_new_client p))
                       then [EvSession] else []))])
           p0)
    | Throw e => (Throw e, p0)
    end.
Proof.
  cbn zeta.
  unfold create_client, addCachedSessionToTLSOptions,
    kept_options_after_new_client, tls_for_new_client, base_events.
  destruct p as [lim u [[[[[|]|] sess]|] co] qu cp cr d cs nd pe cn tl pr fu tr];
    eff; cbn;
    repeat match goal with
      | |- context [session_truthy ?x] =>
          destruct (session_truthy x) eqn:?; cbn
      end;
    destruct (newClient u _) as [client|e]; cbn; f_equal; pool_ext.
Qed.
Lemma replace_nth_last {A} (l : list A) x y :
  replace_nth (length l) x (l ++ [y]) = l ++ [x].
Proof.
  induction l as [|z l IH]; cbn; [reflexivity|]. rewrite IH. reflexivity.
Qed.

Lemma nth_error_last {A} (l : list A) y :
  nth_error (l ++ [y]) (length l) = Some y.
Proof.
  induction l as [|z l IH]; cbn; [reflexivity|exact IH].
Qed.

Lemma may_grow_none_free p :
  may_grow p = true -> find_not_busy 0 (kClients p) = None.
Proof.
  unfold may_grow. destruct (find_not_busy 0 (kClients p));
    [discriminate|reflexivity].
Qed.

Lemma dispatch_grow_eq o h p :
  accepting p = true ->
  may_grow p = true ->
  let options :=
    mkOptions (Some (tls_for_new_client p)) (clientOptions (kOptions p)) in
  let p0 := set_kOptions (kept_options_after_new_client p) p in
  dispatch o h p
  = match newClient (kUrl p) options with
    | Normal client =>
        let r := fst (client_dispatch o h client) in
        let st := snd (client_dispatch o h client) in
        let p1 :=
          set_trace
            (trace p ++ [ClientDispatch (length (kClients p)) (mkItem o h)])
            (set_kClients
               (kClients p
                ++ [mkSlot st
                      (base_events
                       ++ (if listens_to_session
                                (Some (tls_for_new_client p))
                           then [EvSession] else []))])
               p0) in
        match r with
        | Normal _ =>
            (Normal tt,
             if client_busy st && busy p1
             then set_kNeedDrain true p1 else p1)
        | Throw e => dispatch_catch h e p1
        end
    | Throw e => dispatch_catch h e p0
    end.
Proof.
  intros Ha Hg. cbn zeta.
  assert (Hd : dispatch o h p
               = try_catch
                   (bind (bind create_client (fun c => ret (Some c)))
                      (fun client =>
                         match client with
                         | None => enqueue (mkItem o h)
                         | Some c => hand_over c (mkItem o h)
                         end))
                   (dispatch_catch h) p).
  { unfold dispatch, try_catch.
    rewrite (dispatch_try_accepting o h p Ha). unfold bind at 1 3.
    rewrite pick_client_eq, (may_grow_none_free p Hg), Hg. reflexivity. }
  rewrite Hd. clear Hd. unfold try_catch, bind, ret.
  rewrite create_client_eq. cbn zeta.
  destruct (newClient (kUrl p) _) as [client|e]; [|reflexivity].
  match goal with
  | |- context [set_kClients (kClients p ++ [?sl]) ?p0] =>
      pose proof (hand_over_eq (length (kClients p)) (mkItem o h)
                    (set_kClients (kClients p ++ [sl]) p0) sl
                    (nth_error_last _ _)) as Hh
  end.
  cbn zeta in Hh. cbn [opts handler conn listeners] in Hh.
  rewrite Hh. clear Hh.
  match goal with
  | |- context [set_trace ?t (set_kClients (replace_nth ?n ?x ?l) ?pX)] =>
      assert (Hp : set_trace t (set_kClients (replace_nth n x l) pX)
                   = set_trace t
                       (set_kClients (kClients p ++ [x])
                          (set_kOptions (kept_options_after_new_client p) p)))
        by (pool_ext; apply replace_nth_last);
      rewrite Hp; clear Hp
  end.
  destruct (client_dispatch o h client) as [[[]|e] st]; reflexivity.
Qed.

(** X12: when no connection is free and the limit allows one more,
    [dispatch] on a pool neither destroyed nor closed makes a connection
    with the pool's URL and options, the cached session put into the
    TLS options unless the caller disabled reuse or set a session; the
    request goes to the new connection, the last in the list, and
    nothing is queued.  When making the connection throws, no connection
    is added, the request is not queued, and the error goes to the
    handler. *)
Theorem dispatch_makes_connection_when_none_free o h p :
  accepting p = true ->
  may_grow p = true ->
  let options :=
    mkOptions (Some (tls_for_new_client p)) (clientOptions (kOptions p)) in
  let q := snd (dispatch o h p) in
  kOptions q = kept_options_after_new_client p
  /\ kQueue q = kQueue p
  /\ kPending q = kPending p
  /\ match newClient (kUrl p) options with
     | Normal client =>
         let r := fst (client_dispatch o h client) in
         let st := snd (client_dispatch o h client) in
         kClients q
         = kClients p
           ++ [mkSlot st
                 (base_events
                  ++ (if listens_to_session (Some (tls_for_new_client p))
                      then [EvSession] else []))]
         /\ trace q
            = trace p
              ++ ClientDispatch (length (kClients p)) (mkItem o h)
                 :: match r, h with
                    | Throw e, HandlerObject hid true => [OnError hid e]
                    | Throw e, HandlerThrowing hid _ => [OnError hid e]
                    | _, _ => []
                    end
     | Throw e =>
         kClients q = kClients p
         /\ kNeedDrain q = kNeedDrain p
         /\ trace q
            = trace p
              ++ match h with
                 | HandlerObject hid true => [OnError hid e]
                 | HandlerThrowing hid _ => [OnError hid e]
                 | _ => []
                 end
         /\ fst (dispatch o h p)
            = match h with
              | HandlerObject _ true => Normal tt
              | HandlerObject _ false =>
                  Throw (InvalidArgumentError "invalid onError method")
              | HandlerMissing => Throw TypeError
              | HandlerThrowing _ thrown => Throw thrown
              end
     end.
Proof.
  intros Ha Hg. cbn zeta.
  rewrite (dispatch_grow_eq o h p Ha Hg). cbn zeta.
  destruct (newClient (kUrl p) _) as [client|e].
  - destruct (client_dispatch o h client) as [[[]|e] st]; cbn [fst snd].
    + match goal with
      | |- context [if ?b then _ else _] => destruct b
      end;
        cbn -[kept_options_after_new_client]; repeat split.
    + destruct h as [|hid [|]|hid thrown];
        cbn -[kept_options_after_new_client];
        rewrite <- ?app_assoc; repeat split.
  - destruct h as [|hid [|]|hid thrown]; cbn -[kept_options_after_new_client];
      rewrite ?app_nil_r; repeat split.
Qed.

(** X13: a pool that is destroyed or closed stays so, whatever happens
    to it afterwards. *)
Theorem closed_or_destroyed_pool_stays_so (acts : list (@Action C)) p :
  accepting p = false -> accepting (run acts p) = false.
Proof.
  unfold accepting. intros Ha.
  destruct (kDestroyed p) eqn:Hd.
  - rewrite (run_kDestroyed acts p Hd). reflexivity.
  - destruct (kClosedPromise p) as [r|] eqn:Hc; [|discriminate].
    rewrite (run_kClosedPromise acts p r Hc). apply andb_false_r.
Qed.
Lemma dispatch_rejected_eq o h p :
  accepting p = false ->
  dispatch o h p
  = dispatch_catch h
      (if kDestroyed p then ClientDestroyedError else ClientClosedError) p.
Proof.
  intros Ha. unfold dispatch, try_catch.
  destruct (kDestroyed p) eqn:Hd.
  - rewrite (dispatch_try_destroyed p o h Hd). reflexivity.
  - assert (Hc : closed p = true).
    { unfold accepting in Ha. rewrite Hd in Ha. unfold closed.
      destruct (kClosedPromise p); [reflexivity|discriminate]. }
    rewrite (dispatch_try_closed p o h Hd Hc). reflexivity.
Qed.

(** X14: [dispatch] never loses a request: it is handed to a connection
    (and then not queued), or appended to the queue with the count and
    the backpressure flag raised, or its handler is told an error, or
    [dispatch] throws. *)
Theorem dispatch_never_loses_request o h p :
  let q := snd (dispatch o h p) in
  (exists c tail,
      trace q = trace p ++ ClientDispatch c (mkItem o h) :: tail
      /\ kQueue q = kQueue p)
  \/ (kQueue q = kQueue p ++ [mkItem o h]
      /\ kPending q = kPending p + 1
      /\ kNeedDrain q = true
      /\ trace q = trace p)
  \/ (exists hid e,
        h = HandlerObject hid true
        /\ trace q = trace p ++ [OnError hid e]
        /\ kQueue q = kQueue p)
  \/ is_throw (fst (dispatch o h p)) = true.
Proof.
  cbn zeta. destruct (accepting p) eqn:Ha.
  - destruct (find_not_busy 0 (kClients p)) as [c|] eqn:Hf.
    + destruct (find_not_busy_spec (kClients p) 0 c Hf) as (s & _ & Hc & _).
      rewrite Nat.sub_0_r in Hc.
      rewrite (dispatch_found o h p c s Ha Hf Hc). left. exists c.
      destruct (client_dispatch o h (conn s)) as [[[]|e] st]; cbn [fst snd].
      * exists []. destruct (client_busy st && busy _); cbn; auto.
      * destruct h as [|hid [|]|hid thrown]; cbn; rewrite <- ?app_assoc; cbn; eauto.
    + destruct (may_grow p) eqn:Hg.
      * rewrite (dispatch_grow_eq o h p Ha Hg). cbn zeta.
        destruct (newClient (kUrl p) _) as [client|e].
        -- left. exists (length (kClients p)).
           destruct (client_dispatch o h client) as [[[]|e] st];
             cbn [fst snd].
           ++ exists []. destruct (client_busy st && busy _); cbn; auto.
           ++ destruct h as [|hid [|]|hid thrown]; cbn; rewrite <- ?app_assoc; cbn;
                eauto.
        -- right. right.
           destruct h as [|hid [|]|hid thrown]; cbn;
             [right; reflexivity
             |left; exists hid, e; repeat split
             |right; reflexivity
             |right; reflexivity].
      * assert (Hcap : at_capacity p = true).
        { unfold at_capacity. unfold may_grow in Hg. rewrite Hf in *.
          rewrite Hg. reflexivity. }
        rewrite (dispatch_at_capacity p o h Ha Hcap). cbn.
        right. left. auto.
  - rewrite (dispatch_rejected_eq o h p Ha). right. right.
    destruct h as [|hid [|]|hid thrown]; cbn;
      [right; reflexivity
      |left; eexists hid, _; repeat split
      |right; reflexivity
      |right; reflexivity].
Qed.
End Making.

(** ** How a graceful close ends *)

Lemma store_grows_is_preorder {C} : PreOrder (@store_grows C).
Proof.
  split.
  - intros p. repeat split. exists []. rewrite app_nil_r. split; reflexivity.
  - intros p q r (Hr1 & Hc1 & e1 & Hp1 & Hn1) (Hr2 & Hc2 & e2 & Hp2 & Hn2).
    split; [congruence|]. split; [congruence|].
    exists (e1 ++ e2). rewrite Hp2, Hp1, app_assoc, forallb_app, Hn1, Hn2.
    split; reflexivity.
Qed.

#[export] Instance store_grows_PreOrder {C} : PreOrder (@store_grows C) :=
  store_grows_is_preorder.

Section Wiring.
Context {C : Type} `{Client C}.
Implicit Types p q : Pool C.

Lemma keeps_grows_of_view {A} (m : Eff C A) :
  keeps (same (@wiring_view C)) m -> keeps (@store_grows C) m.
Proof.
  intros Hm p. specialize (Hm p). unfold same, wiring_view in Hm.
  injection Hm as Hp Hc Hr. repeat split; auto.
  exists []. rewrite app_nil_r. split; [exact Hp|reflexivity].
Qed.

Lemma keeps_grows_new_promise c :
  sets_destroyed c = false -> keeps (@store_grows C) (new_promise c).
Proof.
  intros Hc p. cbn. repeat split. exists [c]. cbn. rewrite Hc.
  split; reflexivity.
Qed.

Lemma close_wired_grows p q :
  store_grows p q -> close_wired p -> close_wired q.
Proof.
  intros (Hr & Hc & extra & Hp & _) Hw a Ha.
  rewrite Hr in Ha. destruct (Hw a Ha) as (Hcp & Hca & Hcs).
  split; [congruence|].
  split; eapply cell_stable; eauto.
Qed.
End Wiring.

Ltac grows_leaf :=
  idtac;
  match goal with
  | |- keeps _ (new_promise _) => apply keeps_grows_new_promise; reflexivity
  | |- keeps _ (modify _) => apply keeps_grows_of_view; keeps_go
  | |- keeps _ (dispatch_to _ _) => apply keeps_grows_of_view; keeps_go
  | |- keeps _ (fun p => onDrain_loop _ (kQueue p) p) =>
      apply keeps_grows_of_view; keeps_go
  | |- keeps _ (fun p => destroy_loop (kQueue p) _ p) =>
      apply keeps_grows_of_view; keeps_go
  end.

Ltac grows_go := repeat keeps_step grows_leaf.

Section GracefulClose.
Context {C : Type} `{Client C}.
Variable parseOrigin : string -> Completion Url.
Implicit Types p q : Pool C.

Lemma perform_keeps_grows (a : Action) :
  is_close a = false -> keeps (@store_grows C) (perform a).
Proof.
  destruct a; cbn [perform is_close]; intros Ha; try discriminate;
    grows_go.
Qed.

(** The first [close] on a pool that is not destroyed. *)
Lemma close_first_eq cb p :
  kDestroyed p = false ->
  kClosedPromise p = None ->
  let n := length (promises p) in
  let tail :=
    match cb with
    | Some f => [PromiseThen (S n) (CallCallback f)]
    | None => []
    end in
  let result := match cb with Some _ => None | None => Some (S n) end in
  close cb p
  = (Normal result,
     match kQueue p with
     | [] =>
         set_kClosedPromise (Some (S n))
           (set_promises
              (promises p
               ++ PromiseAll (length (kClients p))
                  :: PromiseThen n SetDestroyed :: tail)
              (set_trace (trace p ++ call_each ClientClose 0 (kClients p))
                 (set_kClients (map_conn client_close (kClients p)) p)))
     | _ :: _ =>
         set_kClosedPromise (Some (S n))
           (set_kClosedResolve (Some n)
              (set_promises
                 (promises p
                  ++ PromiseNew :: PromiseThen n SetDestroyed :: tail)
                 p))
     end).
Proof.
  intros Hd Hc. cbn zeta.
  unfold close, close_try, close_catch, close_all. eff. cbn.
  rewrite Hd. cbn. rewrite Hc. cbn.
  destruct (kQueue p); cbn; rewrite ?length_app, ?Nat.add_1_r;
    destruct cb; cbn; f_equal; pool_ext;
    rewrite <- ?app_assoc; reflexivity.
Qed.

Lemma close_rejected_grows p :
  store_grows p
    (set_promises (promises p ++ [PromiseReject ClientDestroyedError]) p)
  /\ forall f,
      store_grows p
        (set_trace (trace p ++ [Callback f (Some ClientDestroyedError)]) p).
Proof.
  split; [|intros f]; repeat split; cbn.
  - eexists. split; reflexivity.
  - exists []. rewrite app_nil_r. split; reflexivity.
Qed.

Lemma close_again_grows p r f :
  store_grows p
    (set_promises (promises p ++ [PromiseThen r (CallCallback f)]) p).
Proof. repeat split; cbn. eexists. split; reflexivity. Qed.

Lemma close_keeps_wired cb p :
  close_wired p -> close_wired (snd (close cb p)).
Proof.
  intros Hw. destruct (kDestroyed p) eqn:Hd.
  - destruct (close_destroyed p Hd) as [Hn Hs].
    destruct cb as [f|]; [rewrite Hs | rewrite Hn]; cbn [snd];
      (eapply close_wired_grows; [|exact Hw]); apply close_rejected_grows.
  - destruct (kClosedPromise p) as [r|] eqn:Hc.
    + destruct (close_again p r Hd Hc) as [Hn Hs].
      destruct cb as [f|]; [rewrite Hs | rewrite Hn]; cbn [snd];
        [|exact Hw].
      eapply close_wired_grows; [|exact Hw]. apply close_again_grows.
    + rewrite (close_first_eq cb p Hd Hc). cbn [snd].
      destruct (kQueue p) eqn:Hq.
      * intros a Ha. cbn in Ha. destruct (Hw a Ha) as (Hcp & _).
        congruence.
      * intros a Ha. cbn in Ha. injection Ha as <-.
        unfold cell. cbn -[nth_error].
        split; [reflexivity|].
        split; [rewrite nth_error_after0; reflexivity|].
        replace (S (length (promises p)))
          with (length (promises p) + 1)%nat by lia.
        rewrite nth_error_after. reflexivity.
Qed.

Lemma perform_keeps_wired (a : Action) p :
  close_wired p -> close_wired (after a p).
Proof.
  intros Hw. destruct (is_close a) eqn:Ha.
  - destruct a; try discriminate. unfold after. cbn [perform].
    rewrite snd_forget. apply close_keeps_wired. exact Hw.
  - eapply close_wired_grows; [|exact Hw].
    exact (perform_keeps_grows a Ha p).
Qed.

Lemma reachable_close_wired p : reachable parseOrigin p -> close_wired p.
Proof.
  induction 1 as [origin connections options p Hnew | a p Hp IH Hen].
  - unfold constructor in Hnew.
    destruct (invalid_connections connections); [discriminate|].
    destruct (parseOrigin origin); [|discriminate].
    injection Hnew as <-. intros r Hr. discriminate.
  - apply perform_keeps_wired. exact IH.
Qed.
Lemma settle_all_eq r p k :
  cell p r = Some (PromiseAll k) ->
  settle_all r p = (Normal tt, set_fulfilled (r :: fulfilled p) p).
Proof.
  unfold cell, settle_all, fulfil. eff. cbn. intros ->. reflexivity.
Qed.

Lemma run_reaction_eq r p src k :
  cell p r = Some (PromiseThen src k) ->
  is_fulfilled src p = true ->
  is_fulfilled r p = false ->
  run_reaction r p = bind (react k) (fun _ => fulfil r) p.
Proof.
  unfold cell, run_reaction. eff. cbn. intros -> -> ->. reflexivity.
Qed.

Lemma run_reaction_waits r p src k :
  cell p r = Some (PromiseThen src k) ->
  is_fulfilled src p = false ->
  run_reaction r p = (Normal tt, p).
Proof.
  unfold cell, run_reaction. eff. cbn. intros -> ->. reflexivity.
Qed.

Lemma is_fulfilled_fresh p r :
  store_ok p -> (length (promises p) <= r)%nat -> is_fulfilled r p = false.
Proof.
  intros (Hf & _) Hr. unfold is_fulfilled.
  destruct (existsb (Nat.eqb r) (fulfilled p)) eqn:He; [|reflexivity].
  apply existsb_exists in He. destruct He as (x & Hin & Hx).
  apply Nat.eqb_eq in Hx. subst x. apply Hf in Hin. lia.
Qed.

Lemma is_fulfilled_cons r x p :
  is_fulfilled r (set_fulfilled (x :: fulfilled p) p)
  = Nat.eqb r x || is_fulfilled r p.
Proof. reflexivity. Qed.

(** A drain notification that ends with an empty queue on a pool whose
    [close] is waiting: the pool before the connections are closed, and
    the pool after. *)
Lemma onDrain_resolves c p a :
  kClosedResolve p = Some a ->
  fst (onDrain c p) = Normal tt ->
  kQueue (snd (onDrain c p)) = [] ->
  exists pm,
    store_view pm = store_view p
    /\ length (kClients pm) = length (kClients p)
    /\ closes_called (trace pm) = closes_called (trace p)
    /\ snd (onDrain c p)
       = set_promises
           (promises p
            ++ [PromiseAll (length (kClients p));
                PromiseThen (length (promises p)) (ResolveClosed a)])
           (set_trace (trace pm ++ call_each ClientClose 0 (kClients pm))
              (set_kClients (map_conn client_close (kClients pm)) pm)).
Proof.
  intros Ha. rewrite onDrain_eq.
  destruct (onDrain_loop_spec c (kQueue p) p eq_refl)
    as (n & cs' & _ & Hl & Hs & _).
  destruct (onDrain_loop c (kQueue p) p) as [[[]|e] pl]; cbn [snd] in Hs;
    [|cbn; discriminate].
  set (pm := if kNeedDrain pl && negb (this_busy c pl)
             then set_trace (trace pl ++ [EmitDrain])
                    (set_kNeedDrain false pl)
             else pl).
  assert (Hview : store_view pm = store_view p).
  { subst pm. destruct (kNeedDrain pl && negb (this_busy c pl));
      rewrite Hs; reflexivity. }
  assert (Hlen : length (kClients pm) = length (kClients p)).
  { transitivity (length cs').
    - subst pm. destruct (kNeedDrain pl && negb (this_busy c pl));
        rewrite Hs; reflexivity.
    - rewrite <- (length_map (@listeners C) cs'), Hl. apply length_map. }
  assert (Hcl : closes_called (trace pm) = closes_called (trace p)).
  { subst pm. unfold closes_called.
    destruct (kNeedDrain pl && negb (this_busy c pl));
      rewrite Hs; cbn [trace set_trace set_kNeedDrain];
      rewrite !count_effects_app,
        (count_effects_dispatches is_client_close) by reflexivity;
      cbn; lia. }
  assert (Hres : kClosedResolve pm = Some a).
  { unfold store_view in Hview. injection Hview as _ _ _ Hr _. congruence. }
  assert (Hpr : promises pm = promises p).
  { unfold store_view in Hview. injection Hview as Hp _ _ _ _. exact Hp. }
  clearbody pm. intros _ Hq.
  destruct (resolve_closed_frame pm) as (Hqm & _). rewrite Hq in Hqm.
  exists pm. repeat split; auto.
  unfold resolve_closed, close_all. eff. cbn.
  rewrite Hres, <- Hqm. cbn. rewrite Hpr, Hlen.
  pool_ext. rewrite <- app_assoc. reflexivity.
Qed.

(** X16: on a pool whose [close] was called while requests were waiting
    and which is not destroyed yet, a drain notification that returns
    with the queue empty calls [close()] on every connection; once these
    have closed, the pending reactions resolve the promise of [close]:
    the pool is destroyed and the promise that [close] returned is
    fulfilled. *)
Theorem close_with_waiting_requests_ends_after_drain p a c :
  reachable parseOrigin p ->
  kClosedResolve p = Some a ->
  kDestroyed p = false ->
  fst (onDrain c p) = Normal tt ->
  kQueue (after (NotifyDrain c) p) = [] ->
  let n := length (promises p) in
  let p1 := after (NotifyDrain c) p in
  let p4 :=
    after (RunReaction (S a))
      (after (RunReaction (S n)) (after (SettleAll n) p1)) in
  kClosedPromise p = Some (S a)
  /\ closes_called (trace p1)
     = (closes_called (trace p) + length (kClients p))%nat
  /\ kDestroyed p1 = false
  /\ kDestroyed p4 = true
  /\ is_fulfilled (S a) p4 = true.
Proof.
  intros Hreach Ha Hd Hn Hq. cbn zeta.
  destruct (reachable_close_wired p Hreach a Ha) as (Hcp & Hca & HcS).
  split; [exact Hcp|].
  pose proof (reachable_store_ok parseOrigin p Hreach) as Hok.
  pose proof (closed_promise_pending parseOrigin p (S a) Hreach Hcp Hd)
    as Hpend.
  assert (HSa : (S a < length (promises p))%nat)
    by (apply nth_error_Some; unfold cell in HcS; congruence).
  pose proof (is_fulfilled_fresh p (S (length (promises p))) Hok
                ltac:(lia)) as HSn.
  unfold after in *. cbn [perform] in *.
  destruct (onDrain_resolves c p a Ha Hn Hq)
    as (pm & Hview & Hlen & Hcl & Hp1).
  rewrite Hp1. clear Hp1 Hq Hn.
  unfold store_view in Hview. injection Hview as Hpr Hfu _ _ Hde.
  set (p1 := set_promises _ _).
  assert (Hext : promises p1
                 = promises p
                   ++ [PromiseAll (length (kClients p));
                       PromiseThen (length (promises p)) (ResolveClosed a)])
    by reflexivity.
  assert (Hf1 : fulfilled p1 = fulfilled p) by exact Hfu.
  assert (Hcn : cell p1 (length (promises p))
                = Some (PromiseAll (length (kClients p)))).
  { unfold cell. rewrite Hext, nth_error_after0. reflexivity. }
  assert (HcSn : cell p1 (S (length (promises p)))
                 = Some (PromiseThen (length (promises p))
                           (ResolveClosed a))).
  { unfold cell. rewrite Hext.
    replace (S (length (promises p)))
      with (length (promises p) + 1)%nat by lia.
    rewrite nth_error_after. reflexivity. }
  assert (HcSa : cell p1 (S a) = Some (PromiseThen a SetDestroyed))
    by (eapply cell_stable; [exact Hext | exact HcS]).
  split.
  { subst p1. cbn [trace set_promises set_trace]. unfold closes_called in *.
    rewrite count_effects_app, Hcl.
    rewrite count_effects_call_each_all by (intros; reflexivity).
    rewrite Hlen. reflexivity. }
  split; [subst p1; cbn; congruence|].
  rewrite (settle_all_eq _ p1 _ Hcn). cbn [snd].
  set (p2 := set_fulfilled _ p1).
  assert (Hn2 : is_fulfilled (length (promises p)) p2 = true).
  { subst p2. rewrite is_fulfilled_cons, Nat.eqb_refl. reflexivity. }
  assert (HSn2 : is_fulfilled (S (length (promises p))) p2 = false).
  { subst p2. rewrite is_fulfilled_cons.
    unfold is_fulfilled in *. rewrite Hf1, HSn.
    destruct (Nat.eqb_spec (S (length (promises p))) (length (promises p)));
      [lia|reflexivity]. }
  rewrite (run_reaction_eq _ p2 _ _ HcSn Hn2 HSn2).
  unfold bind, react, fulfil. eff. cbn [fst snd].
  set (p3 := set_fulfilled _ (set_fulfilled _ p2)).
  assert (Ha3 : is_fulfilled a p3 = true).
  { subst p3. rewrite !is_fulfilled_cons, Nat.eqb_refl.
    apply orb_true_iff. right. reflexivity. }
  assert (HSa3 : is_fulfilled (S a) p3 = false).
  { subst p3 p2. rewrite !is_fulfilled_cons.
    unfold is_fulfilled in *. rewrite Hf1, Hpend.
    destruct (Nat.eqb_spec (S a) (S (length (promises p)))); [lia|].
    destruct (Nat.eqb_spec (S a) a); [lia|].
    destruct (Nat.eqb_spec (S a) (length (promises p))); [lia|].
    reflexivity. }
  rewrite (run_reaction_eq _ p3 _ _ HcSa Ha3 HSa3).
  unfold is_fulfilled. cbn. rewrite Nat.eqb_refl. split; reflexivity.
Qed.
Lemma destroyed_by_close_grows p q :
  store_grows p q -> destroyed_by_close_only p -> destroyed_by_close_only q.
Proof.
  intros (_ & Hc & extra & Hp & Hnone) Hj i src Hi.
  rewrite Hc. unfold cell in *. rewrite Hp in Hi.
  destruct (Nat.lt_ge_cases i (length (promises p))) as [Hlt|Hge].
  - rewrite nth_error_app1 in Hi by exact Hlt. eapply Hj. exact Hi.
  - rewrite nth_error_app2 in Hi by exact Hge.
    apply nth_error_In in Hi.
    rewrite forallb_forall in Hnone. apply Hnone in Hi. discriminate.
Qed.

Lemma close_keeps_destroyed_by_close cb p :
  destroyed_by_close_only p -> destroyed_by_close_only (snd (close cb p)).
Proof.
  intros Hj. destruct (kDestroyed p) eqn:Hd.
  - destruct (close_destroyed p Hd) as [Hn Hs].
    destruct cb as [f|]; [rewrite Hs | rewrite Hn]; cbn [snd];
      (eapply destroyed_by_close_grows; [|exact Hj]);
      apply close_rejected_grows.
  - destruct (kClosedPromise p) as [r|] eqn:Hc.
    + destruct (close_again p r Hd Hc) as [Hn Hs].
      destruct cb as [f|]; [rewrite Hs | rewrite Hn]; cbn [snd];
        [|exact Hj].
      eapply destroyed_by_close_grows; [|exact Hj].
      apply close_again_grows.
    + rewrite (close_first_eq cb p Hd Hc). cbn [snd].
      assert (Hnew : forall first tail i src,
                 forallb (fun c => negb (sets_destroyed c)) (first :: tail)
                 = true ->
                 nth_error
                   (promises p
                    ++ first
                       :: PromiseThen (length (promises p)) SetDestroyed
                       :: tail) i
                 = Some (PromiseThen src SetDestroyed) ->
                 i = S (length (promises p))).
      { intros first tail i src Hnone Hi.
        destruct (Nat.lt_ge_cases i (length (promises p))) as [Hlt|Hge].
        - rewrite nth_error_app1 in Hi by exact Hlt.
          specialize (Hj i src Hi). congruence.
        - rewrite nth_error_app2 in Hi by exact Hge.
          destruct (i - length (promises p))%nat as [|[|k]] eqn:Hk;
            [| lia |]; cbn in Hi, Hnone.
          + injection Hi as ->. discriminate.
          + apply nth_error_In in Hi.
            apply andb_true_iff in Hnone as [_ Hnone].
            rewrite forallb_forall in Hnone. apply Hnone in Hi.
            discriminate. }
      destruct (kQueue p) as [|it rest]; intros i src Hi; unfold cell in Hi;
        cbn in Hi |- *;
        (eapply Hnew in Hi; [rewrite Hi; reflexivity|destruct cb; reflexivity]).
Qed.

Lemma perform_keeps_destroyed_by_close (a : Action) p :
  destroyed_by_close_only p -> destroyed_by_close_only (after a p).
Proof.
  intros Hj. destruct (is_close a) eqn:Ha.
  - destruct a; try discriminate. unfold after. cbn [perform].
    rewrite snd_forget. apply close_keeps_destroyed_by_close. exact Hj.
  - eapply destroyed_by_close_grows; [|exact Hj].
    exact (perform_keeps_grows a Ha p).
Qed.

Lemma reachable_destroyed_by_close p :
  reachable parseOrigin p -> destroyed_by_close_only p.
Proof.
  induction 1 as [origin connections options p Hnew | a p Hp IH Hen].
  - unfold constructor in Hnew.
    destruct (invalid_connections connections); [discriminate|].
    destruct (parseOrigin origin); [|discriminate].
    injection Hnew as <-. intros [|i] src Hi; discriminate.
  - apply perform_keeps_destroyed_by_close. exact IH.
Qed.

Lemma perform_keeps_alive (a : Action) :
  is_destroy a = false ->
  (forall r, a <> RunReaction r) ->
  keeps (same (@kDestroyed C)) (perform a).
Proof.
  destruct a; cbn [perform is_destroy]; intros Ha Hr; try discriminate;
    try (exfalso; eapply Hr; reflexivity); keeps_go.
Qed.

(** X17: a pool becomes destroyed in two ways only: by [destroy], or by
    the reaction of the promise that [close] keeps, once what that
    promise waits for is fulfilled. *)
Theorem destroyed_only_by_destroy_or_finished_close (a : Action) p :
  reachable parseOrigin p ->
  kDestroyed p = false ->
  kDestroyed (after a p) = true ->
  is_destroy a = true
  \/ (exists r src,
        a = RunReaction r
        /\ kClosedPromise p = Some r
        /\ cell p r = Some (PromiseThen src SetDestroyed)
        /\ is_fulfilled src p = true
        /\ is_fulfilled r p = false).
Proof.
  intros Hreach Hd Hafter.
  destruct (is_destroy a) eqn:Ha; [left; reflexivity|right].
  destruct a as [o h|cb|err cb|c|c|c err|c s|c st|r|r];
    try (pose proof (perform_keeps_alive _ Ha
                       ltac:(intros; discriminate) p) as Hk;
         unfold same, after in *; congruence).
  unfold after in Hafter. cbn [perform] in Hafter.
  unfold run_reaction in Hafter. eff. cbn [fst snd] in Hafter.
  fold (cell p r) in Hafter.
  destruct (cell p r) as [[n0| |src k|e0]|] eqn:Hc;
    cbn in Hafter; try congruence.
  destruct (is_fulfilled src p) eqn:Hs; cbn in Hafter; [|congruence].
  destruct (is_fulfilled r p) eqn:Hr; cbn in Hafter; [congruence|].
  destruct k; cbn in Hafter; try congruence.
  exists r, src. repeat split; auto.
  eapply (reachable_destroyed_by_close p Hreach). exact Hc.
Qed.
(** X18: the callback given to [destroy] is called, with no error, by a
    reaction that does nothing before the connections are destroyed and
    runs once they are. *)
Theorem destroy_callback_waits_for_connections err cb f p :
  reachable parseOrigin p ->
  failable (kQueue p) = length (kQueue p) ->
  destroy_callback err cb = Some f ->
  let n := length (promises p) in
  let p1 := after (CallDestroy err cb) p in
  fst (destroy err cb p) = Normal None
  /\ after (RunReaction (S n)) p1 = p1
  /\ trace (after (RunReaction (S n)) (after (SettleAll n) p1))
     = trace p1 ++ [Callback f None].
Proof.
  intros Hreach Hall Hcb. cbn zeta.
  pose proof (reachable_store_ok parseOrigin p Hreach) as Hok.
  pose proof (is_fulfilled_fresh p _ Hok (Nat.le_refl _)) as Hn.
  pose proof (is_fulfilled_fresh p (S (length (promises p))) Hok
                ltac:(lia)) as HSn.
  unfold after. cbn [perform]. rewrite !snd_forget.
  rewrite (destroy_all_failable err cb p Hall). cbn zeta. rewrite Hcb.
  cbn [fst snd]. split; [reflexivity|].
  set (p1 := set_promises _ _).
  assert (Hcn : cell p1 (length (promises p))
                = Some (PromiseAll (length (kClients p)))).
  { subst p1. unfold cell. cbn -[nth_error].
    rewrite nth_error_after0. reflexivity. }
  assert (HcS : cell p1 (S (length (promises p)))
                = Some (PromiseThen (length (promises p)) (CallCallback f))).
  { subst p1. unfold cell. cbn -[nth_error].
    replace (S (length (promises p)))
      with (length (promises p) + 1)%nat by lia.
    rewrite nth_error_after. reflexivity. }
  assert (Hn1 : is_fulfilled (length (promises p)) p1 = false) by exact Hn.
  assert (HSn1 : is_fulfilled (S (length (promises p))) p1 = false)
    by exact HSn.
  rewrite (run_reaction_waits _ p1 _ _ HcS Hn1).
  split; [reflexivity|].
  rewrite (settle_all_eq _ p1 _ Hcn). cbn [snd].
  set (p2 := set_fulfilled _ p1).
  assert (HcS2 : cell p2 (S (length (promises p)))
                 = Some (PromiseThen (length (promises p)) (CallCallback f)))
    by exact HcS.
  assert (Hn2 : is_fulfilled (length (promises p)) p2 = true).
  { subst p2. rewrite is_fulfilled_cons, Nat.eqb_refl. reflexivity. }
  assert (HSn2 : is_fulfilled (S (length (promises p))) p2 = false).
  { subst p2. rewrite is_fulfilled_cons, HSn1.
    destruct (Nat.eqb_spec (S (length (promises p))) (length (promises p)));
      [lia|reflexivity]. }
  rewrite (run_reaction_eq _ p2 _ _ HcS2 Hn2 HSn2).
  reflexivity.
Qed.
End GracefulClose.

(** ** Counters and configuration *)

Section Getters.
Context {C : Type} `{Client C}.
Implicit Types p q : Pool C.


(** Beyond [2^53] a sum of doubles is rounded: one more than [2^53] is
    [2^53]. *)
Lemma js_add_rounds : js_add (2 ^ 53) 1 = 2 ^ 53.
Proof. reflexivity. Qed.

Lemma keeps_covers_enqueue it :
  keeps (steady (@pending_covers_queue C)) (enqueue it).
Proof.
  intros p. unfold steady, pending_covers_queue. cbn.
  rewrite length_app. cbn. lia.
Qed.

Lemma keeps_covers_onDrain_loop this :
  keeps (steady (@pending_covers_queue C))
    (fun p => onDrain_loop this (kQueue p) p).
Proof.
  intros p.
  destruct (onDrain_loop_spec this (kQueue p) p eq_refl)
    as (n & cs' & Hn & _ & Hs & _).
  rewrite Hs. unfold steady, pending_covers_queue. cbn.
  rewrite length_skipn. lia.
Qed.

Lemma keeps_covers_destroy_loop err :
  keeps (steady (@pending_covers_queue C))
    (fun p => destroy_loop (kQueue p) err p).
Proof.
  intros p.
  rewrite (destroy_loop_spec err (kQueue p) p eq_refl).
  unfold steady, pending_covers_queue. cbn -[skipn].
  rewrite length_skipn. lia.
Qed.
End Getters.

Ltac covers_leaf :=
  idtac;
  match goal with
  | |- keeps _ (enqueue _) => apply keeps_covers_enqueue
  | |- keeps _ (fun p => onDrain_loop _ (kQueue p) p) =>
      apply keeps_covers_onDrain_loop
  | |- keeps _ (fun p => destroy_loop (kQueue p) _ p) =>
      apply keeps_covers_destroy_loop
  | |- keeps _ (modify _) =>
      apply keeps_modify; class_goal; intros;
      repeat match goal with
        | |- context [match ?x with _ => _ end] => destruct x
        end;
      unfold steady, pending_covers_queue; cbn; auto
  | |- keeps _ (new_promise _) =>
      intros ?; unfold steady, pending_covers_queue; cbn; auto
  | |- keeps _ (dispatch_to _ _) =>
      apply keeps_dispatch_to; class_goal; intros;
      unfold steady, pending_covers_queue; cbn; auto
  end.

Ltac covers_go := repeat keeps_step covers_leaf.

Section Counters.
Context {C : Type} `{Client C}.
Variable parseOrigin : string -> Completion Url.
Implicit Types p q : Pool C.

Lemma perform_keeps_covers (a : Action) :
  keeps (steady (@pending_covers_queue C)) (perform a).
Proof. destruct a; cbn [perform]; covers_go. Qed.

Lemma reachable_covers p :
  reachable parseOrigin p -> pending_covers_queue p.
Proof.
  induction 1 as [origin connections options p Hnew | a p Hp IH Hen].
  - unfold constructor in Hnew.
    destruct (invalid_connections connections); [discriminate|].
    destruct (parseOrigin origin); [|discriminate].
    injection Hnew as <-. unfold pending_covers_queue. cbn. lia.
  - exact (perform_keeps_covers a p IH).
Qed.

(** X20: in every state a pool can be in, [pendingCount] is at least
    the number of waiting requests, so it is never negative, and the
    pool reports busy whenever a request is waiting. *)
Theorem pending_count_covers_queue p :
  reachable parseOrigin p ->
  Z.of_nat (length (kQueue p)) <= kPending p
  /\ 0 <= kPending p
  /\ (kQueue p <> [] -> busy p = true).
Proof.
  intros Hreach. pose proof (reachable_covers p Hreach) as Hc.
  unfold pending_covers_queue in Hc.
  split; [exact Hc|]. split; [lia|].
  intros Hq. unfold busy.
  destruct (kQueue p) as [|it rest]; [congruence|]. cbn [length] in Hc.
  destruct (Z.ltb_spec 0 (kPending p)); [reflexivity|lia].
Qed.

Lemma perform_keeps_connected (a : Action) :
  connected_change a = 0 -> keeps (same (@kConnected C)) (perform a).
Proof.
  destruct a; cbn [perform connected_change]; intros Ha;
    try discriminate; keeps_go.
Qed.

(** X21: [connected] goes up by one for each connect notification and
    down by one for each disconnect notification, which the pool passes
    on as its own ['connect'] and ['disconnect'] events; nothing else
    changes it. *)
Theorem connected_counts_connect_events (a : Action) p :
  connected (after a p) = connected p + connected_change a
  /\ (forall c, a = NotifyConnect c ->
                trace (after a p) = trace p ++ [EmitConnect c])
  /\ (forall c err, a = NotifyDisconnect c err ->
                    trace (after a p) = trace p ++ [EmitDisconnect c err]).
Proof.
  split; [|split; intros; subst; reflexivity].
  unfold connected.
  destruct (Z.eq_dec (connected_change a) 0) as [H0|Hn].
  - rewrite H0, Z.add_0_r. exact (perform_keeps_connected a H0 p).
  - destruct a; cbn [connected_change] in Hn; try congruence; reflexivity.
Qed.

Lemma perform_keeps_session (a : Action) :
  (forall c s, a <> NotifySession c s) ->
  keeps (same (@kTLSSession C)) (perform a).
Proof.
  destruct a; cbn [perform]; intros Ha;
    try (exfalso; eapply Ha; reflexivity); keeps_go.
Qed.

(** X22: the session cache changes only when a session notification
    brings a ticket that is not null or undefined; no call and no other
    event writes or clears it. *)
Theorem session_cache_written_only_by_session_event (a : Action) p :
  kTLSSession (after a p) = session_after a p.
Proof.
  destruct a;
    try (apply (perform_keeps_session _); intros; discriminate).
  unfold after, session_after. cbn [perform].
  unfold cacheClientTLSSession. eff.
  destruct (session_truthy s); reflexivity.
Qed.

Lemma perform_keeps_kUrl (a : Action) : keeps (same (@kUrl C)) (perform a).
Proof. destruct a; cbn [perform]; keeps_go. Qed.

Lemma perform_keeps_kOptions (a : Action) :
  is_dispatch a = false -> keeps (same (@kOptions C)) (perform a).
Proof.
  destruct a; cbn [perform is_dispatch]; intros Ha; try discriminate;
    keeps_go.
Qed.
Lemma kept_options_clientOptions p :
  clientOptions (kept_options_after_new_client p) = clientOptions (kOptions p).
Proof.
  unfold kept_options_after_new_client.
  destruct (tls (kOptions p)); reflexivity.
Qed.

Lemma dispatch_catch_kOptions h e p :
  kOptions (snd (dispatch_catch h e p)) = kOptions p.
Proof. destruct h as [|hid [|]|hid thrown]; reflexivity. Qed.

Lemma dispatch_kOptions o h p :
  kOptions (snd (dispatch o h p)) = kOptions p
  \/ (accepting p = true
      /\ may_grow p = true
      /\ kOptions (snd (dispatch o h p)) = kept_options_after_new_client p).
Proof.
  destruct (accepting p) eqn:Ha.
  - destruct (find_not_busy 0 (kClients p)) as [c|] eqn:Hf.
    + destruct (find_not_busy_spec (kClients p) 0 c Hf) as (s & _ & Hc & _).
      rewrite Nat.sub_0_r in Hc.
      rewrite (dispatch_found o h p c s Ha Hf Hc). left.
      destruct (client_dispatch o h (conn s)) as [[[]|e] st]; cbn [fst snd].
      * destruct (client_busy st && busy _); reflexivity.
      * rewrite dispatch_catch_kOptions. reflexivity.
    + destruct (may_grow p) eqn:Hg.
      * right. split; [reflexivity|]. split; [reflexivity|].
        rewrite (dispatch_grow_eq o h p Ha Hg). cbn zeta.
        destruct (newClient (kUrl p) _) as [client|e].
        -- destruct (client_dispatch o h client) as [[[]|e] st];
             cbn [fst snd].
           ++ destruct (client_busy st && busy _); reflexivity.
           ++ rewrite dispatch_catch_kOptions. reflexivity.
        -- rewrite dispatch_catch_kOptions. reflexivity.
      * assert (Hcap : at_capacity p = true).
        { unfold at_capacity. unfold may_grow in Hg. rewrite Hf in *.
          rewrite Hg. reflexivity. }
        rewrite (dispatch_at_capacity p o h Ha Hcap). left. reflexivity.
  - rewrite (dispatch_rejected_eq o h p Ha). left.
    apply dispatch_catch_kOptions.
Qed.

(** X23: the URL and the limit of a pool never change; the options it
    keeps change only when [dispatch] makes a connection, and then only
    in the session of their [tls] member, which takes the cached
    ticket. *)
Theorem configuration_changes_only_in_tls_session (a : Action) p :
  url (after a p) = url p
  /\ kConnections (after a p) = kConnections p
  /\ clientOptions (kOptions (after a p)) = clientOptions (kOptions p)
  /\ (kOptions (after a p) = kOptions p
      \/ (is_dispatch a = true
          /\ accepting p = true
          /\ may_grow p = true
          /\ kOptions (after a p) = kept_options_after_new_client p)).
Proof.
  split; [exact (perform_keeps_kUrl a p)|].
  split; [exact (perform_keeps_kConnections a p)|].
  assert (Hopt : kOptions (after a p) = kOptions p
                 \/ (is_dispatch a = true
                     /\ accepting p = true
                     /\ may_grow p = true
                     /\ kOptions (after a p)
                        = kept_options_after_new_client p)).
  { destruct (is_dispatch a) eqn:Ha.
    - destruct a; try discriminate. unfold after. cbn [perform].
      destruct (dispatch_kOptions o h p) as [Hs|(H1 & H2 & H3)]; auto.
    - left. exact (perform_keeps_kOptions a Ha p). }
  split; [|exact Hopt].
  destruct Hopt as [->|(_ & _ & _ & ->)];
    [reflexivity|apply kept_options_clientOptions].
Qed.

(** X24: the constructor checks [connections] before it parses the
    origin, and fails when parsing fails; the pool it returns holds the
    parsed origin and the options, has no connection and no waiting
    request, and reads zero or false on every getter. *)
Theorem new_pool_is_idle origin connections options :
  (invalid_connections connections = true ->
   (constructor parseOrigin origin connections options
    : Completion (Pool C))
   = Throw (InvalidArgumentError "invalid connections"))
  /\ (invalid_connections connections = false ->
      forall e,
        parseOrigin origin = Throw e ->
        (constructor parseOrigin origin connections options
         : Completion (Pool C))
        = Throw e)
  /\ (forall p,
        constructor parseOrigin origin connections options = Normal p ->
        parseOrigin origin = Normal (url p)
        /\ kOptions p = options
        /\ kClients p = [] /\ kQueue p = []
        /\ busy p = false /\ pending p = 0 /\ running p = 0 /\ size p = 0
        /\ connected p = 0 /\ closed p = false /\ destroyed p = false).
Proof.
  unfold constructor.
  destruct (invalid_connections connections).
  - split; [reflexivity|]. split; [discriminate|]. discriminate.
  - split; [discriminate|].
    destruct (parseOrigin origin) as [u|e0].
    + split; [discriminate|]. intros p [= <-].
      repeat split.
      unfold busy. cbn [kPending kConnections kClients length].
      change (0 <? 0) with false. cbn iota.
      destruct (connections_or_null connections) as [q|]; [|reflexivity].
      unfold limit_truthy, length_is_limit.
      destruct (Qeq_bool q 0) eqn:Hz; [reflexivity|]. cbn [negb andb].
      destruct (Qeq_bool (inject_Z (Z.of_nat 0)) q) eqn:Hq; [|reflexivity].
      apply Qeq_bool_eq in Hq.
      assert (Ht : Qeq_bool q 0 = true)
        by (apply Qeq_bool_iff; symmetry; exact Hq).
      congruence.
    + split; [intros _ e [= <-]; reflexivity|]. discriminate.
Qed.

Lemma every_client_busy_find (cs : list (Slot C)) : forall from,
  every_client_busy cs
  = match find_not_busy from cs with Some _ => false | None => true end.
Proof.
  induction cs as [|s cs IH]; intros from; cbn; [reflexivity|].
  destruct (client_busy (conn s)); cbn; [apply IH|reflexivity].
Qed.

Lemma app_one_differs {A} (l : list A) x : l ++ [x] <> l.
Proof.
  intros Heq. apply (f_equal (@length A)) in Heq.
  rewrite length_app in Heq. cbn in Heq. lia.
Qed.

(** [dispatch] on a pool neither destroyed nor closed queues the request
    exactly when no connection is free and none may be added. *)
Lemma dispatch_queues_iff o h p :
  accepting p = true ->
  kQueue (snd (dispatch o h p)) = kQueue p ++ [mkItem o h]
  <-> at_capacity p = true.
Proof.
  intros Ha.
  assert (Hcatch : forall e q, kQueue (snd (dispatch_catch h e q)) = kQueue q)
    by (intros e q; apply dispatch_catch_frame).
  destruct (find_not_busy 0 (kClients p)) as [c|] eqn:Hf.
  - assert (Hcap : at_capacity p = false)
      by (unfold at_capacity; rewrite Hf; reflexivity).
    rewrite Hcap.
    destruct (find_not_busy_spec (kClients p) 0 c Hf) as (s & _ & Hc & _).
    rewrite Nat.sub_0_r in Hc.
    rewrite (dispatch_found o h p c s Ha Hf Hc).
    split; [|discriminate]. intros Hq. exfalso.
    apply (app_one_differs (kQueue p) (mkItem o h)). rewrite <- Hq.
    destruct (client_dispatch o h (conn s)) as [[[]|e] st]; cbn [fst snd].
    + destruct (client_busy st && busy _); reflexivity.
    + rewrite Hcatch. reflexivity.
  - destruct (may_grow p) eqn:Hg.
    + assert (Hcap : at_capacity p = false).
      { unfold at_capacity. unfold may_grow in Hg. rewrite Hf in *.
        rewrite Hg. reflexivity. }
      rewrite Hcap.
      rewrite (dispatch_grow_eq o h p Ha Hg). cbn zeta.
      split; [|discriminate]. intros Hq. exfalso.
      apply (app_one_differs (kQueue p) (mkItem o h)). rewrite <- Hq.
      destruct (newClient (kUrl p) _) as [client|e].
      * destruct (client_dispatch o h client) as [[[]|e] st]; cbn [fst snd].
        -- destruct (client_busy st && busy _); reflexivity.
        -- rewrite Hcatch. reflexivity.
      * rewrite Hcatch. reflexivity.
    + assert (Hcap : at_capacity p = true).
      { unfold at_capacity. unfold may_grow in Hg. rewrite Hf in *.
        rewrite Hg. reflexivity. }
      rewrite (dispatch_at_capacity p o h Ha Hcap). cbn.
      split; auto.
Qed.

(** X25: where the limit is unset or a whole number, [busy] tells what
    [dispatch] would do: [busy] is true exactly when [pendingCount] is
    positive or no connection is free and none may be added; so a pool
    with no waiting request that is neither destroyed nor closed
    reports busy exactly when [dispatch] would queue the request. *)
Theorem busy_tells_when_dispatch_queues p :
  reachable parseOrigin p ->
  whole_limit p ->
  busy p = (0 <? kPending p) || at_capacity p
  /\ (forall o h,
        accepting p = true ->
        kPending p = 0 ->
        busy p = true
        <-> kQueue (snd (dispatch o h p)) = kQueue p ++ [mkItem o h]).
Proof.
  intros Hreach Hwhole.
  assert (Hbusy : busy p = (0 <? kPending p) || at_capacity p).
  { pose proof (reachable_limit_positive parseOrigin p Hreach) as Hpos.
    pose proof (reachable_within_limit parseOrigin p Hreach) as Hin.
    unfold busy, at_capacity, limit_positive, within_limit, whole_limit,
      limit_truthy, length_is_limit, length_below_limit in *.
    destruct (0 <? kPending p); [reflexivity|]. cbn [orb].
    rewrite (every_client_busy_find (kClients p) 0).
    destruct (kConnections p) as [q|]; cbn;
      [|destruct (find_not_busy 0 (kClients p)); reflexivity].
    destruct (Hwhole q eq_refl) as (n & Hn).
    assert (Hq : Qeq_bool q 0 = false).
    { destruct (Qeq_bool q 0) eqn:Hz; [|reflexivity].
      apply Qeq_bool_eq in Hz. rewrite Hz in Hpos.
      exfalso. exact (Qlt_irrefl 0 Hpos). }
    rewrite Hq. cbn.
    destruct (Qeq_bool (inject_Z (Z.of_nat (length (kClients p)))) q) eqn:He.
    - apply Qeq_bool_eq in He.
      assert (Hle : Qle_bool q (inject_Z (Z.of_nat (length (kClients p))))
                    = true).
      { apply Qle_bool_iff. rewrite He. apply Qle_refl. }
      rewrite Hle. cbn. reflexivity.
    - assert (Hle : Qle_bool q (inject_Z (Z.of_nat (length (kClients p))))
                    = false).
      { destruct (Qle_bool q _) eqn:Hb; [|reflexivity]. exfalso.
        apply Qle_bool_iff in Hb. rewrite Hn in Hb.
        rewrite <- Zle_Qle in Hb.
        assert (Hne : length (kClients p) <> n).
        { intros Heq. rewrite Heq in He.
          assert (Ht : Qeq_bool (inject_Z (Z.of_nat n)) q = true)
            by (apply Qeq_bool_iff; symmetry; exact Hn).
          congruence. }
        destruct (length (kClients p)) as [|m] eqn:Hlen; [lia|].
        specialize (Hin m eq_refl). rewrite Hn in Hin.
        rewrite <- Zlt_Qlt in Hin. lia. }
      rewrite Hle. cbn.
      destruct (find_not_busy 0 (kClients p)); reflexivity. }
  split; [exact Hbusy|].
  intros o h Ha Hp. rewrite (dispatch_queues_iff o h p Ha), Hbusy, Hp.
  reflexivity.
Qed.
End Counters.

(** ** The further properties at work *)

Lemma poolClosing_reachable : reachable anyOrigin poolClosing.
Proof. apply newPool_reachable. reflexivity. Qed.

Lemma poolWithBadHandler_reachable : reachable anyOrigin poolWithBadHandler.
Proof. apply newPool_reachable. reflexivity. Qed.

Lemma poolIdle_reachable : reachable anyOrigin poolIdle.
Proof. apply newPool_reachable. reflexivity. Qed.

Lemma connections_within_limit_witness :
  kConnections poolWithQueue = Some 1%Q
  /\ (length (kClients poolWithQueue) <= 1)%nat.
Proof.
  split; [reflexivity|].
  destruct (connections_within_limit anyOrigin poolWithQueue 1%Q
              poolWithQueue_reachable eq_refl) as [_ Hwhole].
  apply (Hwhole 1%nat). reflexivity.
Defined.

Lemma every_connection_subscribed_witness :
  well_subscribed (listeners (mkSlot [requestA]
                                (base_events ++ [EvSession])))
  /\ listens 0 EvDrain poolWithQueue = true
  /\ listens 0 EvConnect poolWithQueue = true
  /\ listens 0 EvDisconnect poolWithQueue = true.
Proof.
  exact (every_connection_subscribed anyOrigin poolWithQueue 0%nat _
           poolWithQueue_reachable eq_refl).
Defined.

Lemma waiting_request_keeps_flag_up_witness :
  kQueue poolWithQueue = [requestB; requestC]
  /\ kNeedDrain poolWithQueue = true.
Proof.
  split; [reflexivity|].
  apply (waiting_request_keeps_flag_up anyOrigin poolWithQueue
           poolWithQueue_reachable).
  discriminate.
Defined.

Lemma destroy_fails_queue_then_destroys_connections_witness :
  let err := OtherError 9 in
  let q := snd (destroy (ArgError err) None poolWithQueue) in
  trace q
  = trace poolWithQueue ++ [OnError 2 err; OnError 3 err; ClientDestroy 0 err]
  /\ kQueue q = []
  /\ kDestroyed q = true.
Proof.
  destruct (destroy_fails_queue_then_destroys_connections
              (ArgError (OtherError 9)) None poolWithQueue eq_refl)
    as (Ht & _ & Hq & Hd & _).
  split; [exact Ht|]. split; [exact Hq|exact Hd].
Defined.

Lemma destroy_stops_at_handler_without_onError_witness :
  let q := snd (destroy ArgAbsent None poolWithBadHandler) in
  fst (destroy ArgAbsent None poolWithBadHandler) = Throw TypeError
  /\ kDestroyed q = true
  /\ kQueue q = [requestC]
  /\ trace q = trace poolWithBadHandler.
Proof.
  assert (Hbad : (failable (kQueue poolWithBadHandler)
                  < length (kQueue poolWithBadHandler))%nat)
    by (vm_compute; lia).
  destruct (destroy_stops_at_handler_without_onError ArgAbsent None
              poolWithBadHandler Hbad)
    as (_ & Hno & Hd & _ & Hq & _).
  assert (Hit : nth_error (kQueue poolWithBadHandler)
                  (failable (kQueue poolWithBadHandler))
                = Some (mkItem "/b"%string (HandlerObject 2 false)))
    by reflexivity.
  destruct (Hno _ Hit eq_refl) as [Hr Ht].
  split; [exact Hr|]. split; [exact Hd|]. split; [exact Hq|].
  rewrite Ht. apply app_nil_r.
Defined.

Lemma rejected_dispatch_only_reports_witness :
  dispatch "/d"%string (handlerOf 4) poolDestroyed
  = (Normal tt,
     set_trace (trace poolDestroyed ++ [OnError 4 ClientDestroyedError])
       poolDestroyed)
  /\ dispatch "/d"%string (HandlerObject 4 false) poolDestroyed
     = (Throw (InvalidArgumentError "invalid onError method"), poolDestroyed).
Proof.
  split.
  - exact (rejected_dispatch_only_reports "/d"%string (handlerOf 4)
             poolDestroyed eq_refl).
  - exact (rejected_dispatch_only_reports "/d"%string (HandlerObject 4 false)
             poolDestroyed eq_refl).
Defined.

Lemma dispatch_goes_to_first_free_connection_witness :
  let q := snd (dispatch "/c"%string (handlerOf 3) poolWithFreeConnection) in
  map (@conn SerialClient) (kClients poolWithFreeConnection)
  = [[requestA]; []]
  /\ map (@conn SerialClient) (kClients q) = [[requestA]; [requestC]]
  /\ kQueue q = []
  /\ trace q = trace poolWithFreeConnection ++ [ClientDispatch 1 requestC].
Proof.
  assert (Hbusy : forall i s',
             (i < 1)%nat ->
             nth_error (kClients poolWithFreeConnection) i = Some s' ->
             client_busy (conn s') = true).
  { intros [|i] s' Hi Hs; [|lia]. injection Hs as <-. reflexivity. }
  assert (Hs : nth_error (kClients poolWithFreeConnection) 1
               = Some (mkSlot ([] : SerialClient)
                         (base_events ++ [EvSession])))
    by reflexivity.
  assert (Hfree : client_busy
                    (conn (mkSlot ([] : SerialClient)
                             (base_events ++ [EvSession])))
                  = false)
    by reflexivity.
  assert (Hacc : accepting poolWithFreeConnection = true) by reflexivity.
  destruct (dispatch_goes_to_first_free_connection "/c"%string (handlerOf 3)
              poolWithFreeConnection 1%nat _ Hacc Hs Hfree Hbusy)
    as (Hcs & Hq & _ & Ht & _).
  split; [reflexivity|]. split; [rewrite Hcs; reflexivity|].
  split; [exact Hq|exact Ht].
Defined.

Lemma dispatch_makes_connection_when_none_free_witness :
  let q := snd (dispatch "/b"%string (handlerOf 2) poolWithSession) in
  length (kClients poolWithSession) = 1%nat
  /\ kClients q
     = kClients poolWithSession ++ [mkSlot [requestB] base_events]
  /\ kQueue q = []
  /\ trace q = trace poolWithSession ++ [ClientDispatch 1 requestB].
Proof.
  assert (Hacc : accepting poolWithSession = true) by reflexivity.
  assert (Hgrow : may_grow poolWithSession = true) by reflexivity.
  destruct (dispatch_makes_connection_when_none_free "/b"%string (handlerOf 2)
              poolWithSession Hacc Hgrow)
    as (_ & Hq & _ & Hcs & Ht).
  split; [reflexivity|]. split; [exact Hcs|]. split; [exact Hq|exact Ht].
Defined.

Lemma closed_or_destroyed_pool_stays_so_witness :
  accepting
    (run [dispatchItem requestA; CallClose None; NotifyDrain 0] poolDestroyed)
  = false.
Proof.
  exact (closed_or_destroyed_pool_stays_so
           [dispatchItem requestA; CallClose None; NotifyDrain 0]
           poolDestroyed eq_refl).
Defined.


Lemma close_with_waiting_requests_ends_after_drain_witness :
  let p1 := after (NotifyDrain 0) poolClosing in
  let p4 :=
    after (RunReaction 1)
      (after (RunReaction 3) (after (SettleAll 2) p1)) in
  kQueue poolClosing = [requestB]
  /\ kClosedPromise poolClosing = Some 1%nat
  /\ kDestroyed p1 = false
  /\ kDestroyed p4 = true
  /\ is_fulfilled 1 p4 = true.
Proof.
  destruct (close_with_waiting_requests_ends_after_drain anyOrigin
              poolClosing 0%nat 0%nat poolClosing_reachable
              eq_refl eq_refl eq_refl eq_refl)
    as (Hc & _ & Hd & Hd4 & Hf).
  split; [reflexivity|]. split; [exact Hc|]. split; [exact Hd|].
  split; [exact Hd4|exact Hf].
Defined.

Lemma destroyed_only_by_destroy_or_finished_close_witness :
  let p := run [CallClose None; SettleAll 0] poolIdle in
  kDestroyed p = false
  /\ kDestroyed (after (RunReaction 1) p) = true
  /\ kClosedPromise p = Some 1%nat.
Proof.
  intros p.
  assert (Hreach : reachable anyOrigin p)
    by (apply reachable_run; exact poolIdle_reachable).
  destruct (destroyed_only_by_destroy_or_finished_close anyOrigin
              (RunReaction 1) p Hreach eq_refl eq_refl)
    as [Hdes|(r & src & Ha & Hc & _)]; [discriminate|].
  injection Ha as <-.
  split; [reflexivity|]. split; [reflexivity|exact Hc].
Defined.

Lemma destroy_callback_waits_for_connections_witness :
  let p1 := after (CallDestroy ArgAbsent (Some 5%nat)) poolWithQueue in
  fst (destroy ArgAbsent (Some 5%nat) poolWithQueue) = Normal None
  /\ after (RunReaction 1) p1 = p1
  /\ trace (after (RunReaction 1) (after (SettleAll 0) p1))
     = trace p1 ++ [Callback 5 None].
Proof.
  exact (destroy_callback_waits_for_connections anyOrigin ArgAbsent
           (Some 5%nat) 5%nat poolWithQueue poolWithQueue_reachable
           eq_refl eq_refl).
Defined.

Lemma pending_count_covers_queue_witness :
  kPending poolDestroyed = 2
  /\ kQueue poolDestroyed = []
  /\ Z.of_nat (length (kQueue poolDestroyed)) <= kPending poolDestroyed.
Proof.
  assert (Hreach : reachable anyOrigin poolDestroyed)
    by (apply reachable_step; [exact poolWithQueue_reachable|reflexivity]).
  destruct (pending_count_covers_queue anyOrigin poolDestroyed Hreach)
    as (Hc & _).
  split; [reflexivity|]. split; [reflexivity|exact Hc].
Defined.

Lemma busy_tells_when_dispatch_queues_witness :
  busy poolIdle = false
  /\ kQueue (snd (dispatch "/b"%string (handlerOf 2) poolIdle)) = []
  /\ busy poolWithQueue
     = (0 <? kPending poolWithQueue) || at_capacity poolWithQueue.
Proof.
  assert (Hidle : whole_limit poolIdle)
    by (intros limit Hl; discriminate).
  assert (Hqueue : whole_limit poolWithQueue).
  { intros limit Hl. injection Hl as <-. exists 1%nat. reflexivity. }
  destruct (busy_tells_when_dispatch_queues anyOrigin poolIdle
              poolIdle_reachable Hidle) as [Hb _].
  destruct (busy_tells_when_dispatch_queues anyOrigin poolWithQueue
              poolWithQueue_reachable Hqueue) as [Hbq _].
  split; [rewrite Hb; reflexivity|]. split; [reflexivity|exact Hbq].
Defined.


(** ** The pool without a limit *)

Section Unbounded.
Context {C : Type} `{Client C}.
Variable parseOrigin : string -> Completion Url.
Implicit Types p q : Pool C.

Lemma find_not_busy_none (cs : list (Slot C)) : forall from,
  (forall c s, nth_error cs c = Some s -> client_busy (conn s) = true) ->
  find_not_busy from cs = None.
Proof.
  induction cs as [|s cs IH]; intros from Hbusy; cbn; [reflexivity|].
  rewrite (Hbusy 0%nat s eq_refl). cbn. apply IH.
  intros c s' Hc. exact (Hbusy (S c) s' Hc).
Qed.

Lemma dispatch_catch_trace h e p :
  trace (snd (dispatch_catch h e p)) = trace p ++ reported h e
  /\ kClients (snd (dispatch_catch h e p)) = kClients p.
Proof.
  destruct h as [|hid [|]|hid thrown]; cbn; rewrite ?app_nil_r; auto.
Qed.

(** C9: the constructor takes [connections] of 0 and makes the pool it
    makes without [connections], a pool with no limit; in every state
    of that pool the queue is empty and [pendingCount] is 0, and
    [dispatch] leaves them so; while the pool is neither destroyed nor
    closed, [dispatch] hands the request to the first connection that
    is not busy and makes none; when every connection is busy it makes
    one, appends it and hands the request to it, and if making it
    throws, the handler is told and nothing is added. *)
Theorem zero_connections_is_unbounded origin options u (z : Q) acts o h :
  parseOrigin origin = Normal u ->
  (z == 0)%Q ->
  exists p0 : Pool C,
    constructor parseOrigin origin (ConnFinite z) options = Normal p0
    /\ constructor parseOrigin origin ConnUndefined options = Normal p0
    /\ kConnections p0 = None
    /\ let p := run acts p0 in
       let q := snd (dispatch o h p) in
       queue_and_count p = ([], 0)
       /\ queue_and_count q = ([], 0)
       /\ (accepting p = true ->
           (forall c (s : Slot C),
               nth_error (kClients p) c = Some s ->
               client_busy (conn s) = false ->
               (forall i s',
                   (i < c)%nat -> nth_error (kClients p) i = Some s' ->
                   client_busy (conn s') = true) ->
               kClients q
               = replace_nth c
                   (mkSlot (snd (client_dispatch o h (conn s)))
                      (listeners s))
                   (kClients p)
               /\ trace q
                  = trace p
                    ++ ClientDispatch c (mkItem o h)
                       :: match fst (client_dispatch o h (conn s)) with
                          | Normal _ => []
                          | Throw e => reported h e
                          end)
           /\ ((forall c (s : Slot C),
                   nth_error (kClients p) c = Some s ->
                   client_busy (conn s) = true) ->
               match newClient (kUrl p)
                       (mkOptions (Some (tls_for_new_client p))
                          (clientOptions (kOptions p))) with
               | Normal client =>
                   kClients q
                   = kClients p
                     ++ [mkSlot (snd (client_dispatch o h client))
                           (base_events
                            ++ (if listens_to_session
                                     (Some (tls_for_new_client p))
                                then [EvSession] else []))]
                   /\ trace q
                      = trace p
                        ++ ClientDispatch (length (kClients p)) (mkItem o h)
                           :: match fst (client_dispatch o h client) with
                              | Normal _ => []
                              | Throw e => reported h e
                              end
               | Throw e =>
                   kClients q = kClients p
                   /\ trace q = trace p ++ reported h e
               end)).
Proof.
  intros Hu Hz.
  assert (Hle : Qle_bool 0 z = true).
  { apply Qle_bool_iff. rewrite Hz. apply Qle_refl. }
  assert (Heq : Qeq_bool z 0 = true) by (apply Qeq_bool_iff; exact Hz).
  unfold constructor. cbn [invalid_connections connections_or_null].
  rewrite Hle, Heq, Hu. cbn [negb].
  eexists. split; [reflexivity|]. split; [reflexivity|].
  split; [reflexivity|].
  set (p := run acts _). cbn zeta.
  assert (Hk : kConnections p = None)
    by (unfold p; rewrite run_kConnections; reflexivity).
  assert (Hq : queue_and_count p = ([], 0))
    by (apply run_unbounded_empty; reflexivity).
  split; [exact Hq|].
  destruct (dispatch_unbounded p o h Hk) as [Hd _].
  split; [rewrite Hd; exact Hq|].
  intros Ha. split.
  - intros c s Hc Hfree Hbusy.
    rewrite (dispatch_first_free o h p c s Ha Hc Hfree Hbusy).
    destruct (client_dispatch o h (conn s)) as [[[]|e] st]; cbn [fst snd].
    + destruct (client_busy st && busy _); cbn; auto.
    + destruct (dispatch_catch_trace h e
                  (set_trace (trace p ++ [ClientDispatch c (mkItem o h)])
                     (set_kClients
                        (replace_nth c (mkSlot st (listeners s))
                           (kClients p)) p)))
        as [Ht Hcs].
      rewrite Ht, Hcs. cbn. rewrite <- app_assoc. auto.
  - intros Hbusy.
    assert (Hg : may_grow p = true).
    { unfold may_grow. rewrite (find_not_busy_none _ 0 Hbusy), Hk.
      reflexivity. }
    rewrite (dispatch_grow_eq o h p Ha Hg). cbn zeta.
    destruct (newClient (kUrl p) _) as [client|e].
    + destruct (client_dispatch o h client) as [[[]|e] st]; cbn [fst snd].
      * destruct (client_busy st && busy _); cbn; auto.
      * match goal with
        | |- context [dispatch_catch h e ?p1] =>
            destruct (dispatch_catch_trace h e p1) as [Ht Hcs]
        end.
        rewrite Ht, Hcs. cbn. rewrite <- app_assoc. auto.
    + match goal with
      | |- context [dispatch_catch h e ?p1] =>
          destruct (dispatch_catch_trace h e p1) as [Ht Hcs]
      end.
      rewrite Ht, Hcs. cbn. auto.
Qed.
End Unbounded.

Lemma zero_connections_is_unbounded_witness :
  anyOrigin "http://localhost:3000"%string
  = Normal "http://localhost:3000"%string
  /\ (0 == 0)%Q
  /\ exists p0 : Pool SerialClient,
      constructor anyOrigin "http://localhost:3000"%string (ConnFinite 0)
        noOptions
      = Normal p0
      /\ queue_and_count
           (run [dispatchItem requestA; dispatchItem requestB;
                 dispatchItem requestC] p0)
         = ([], 0)
      /\ length
           (kClients
              (run [dispatchItem requestA; dispatchItem requestB;
                    dispatchItem requestC] p0))
         = 3%nat.
Proof.
  split; [reflexivity|]. split; [reflexivity|].
  destruct (zero_connections_is_unbounded anyOrigin
              "http://localhost:3000"%string noOptions
              "http://localhost:3000"%string 0%Q
              [dispatchItem requestA; dispatchItem requestB;
               dispatchItem requestC]
              "/d"%string (handlerOf 4) eq_refl (Qeq_refl 0))
    as (p0 & Hmade & _ & _ & Hempty & _).
  exists p0. split; [exact Hmade|]. split; [exact Hempty|].
  unfold constructor in Hmade. cbn in Hmade. injection Hmade as <-.
  reflexivity.
Defined.
